(** * SERIL speech enhancement: the online feature pipeline of [preprocess.py]

    A shallow embedding of [OnlinePreprocessor] (constructor, [forward],
    [select_feat], [istft]) over a model of the tensor operations it calls,
    and of the two waveform helpers of the module, [read] and [adnoise].

    - Tensors are a shape and row-major data, as PyTorch's contiguous tensors.
    - Python exceptions are values of [exn]; fallible code lives in [res].
    - [forward] runs in [traced], which also records the library transforms
      that were started, so that "before any numeric work" can be stated.
    - Element arithmetic is an interface ([ScalarOps], [TransformOps]); it is
      instantiated by symbolic terms ([sym]), by IEEE binary32 numbers with
      the rounding of the standard ([b32_scalar]), as the tensors hold them,
      and by reals with the IEEE special values ([fval]), which do not round
      and serve for signs, finiteness and the special values only. *)

From Stdlib Require Import String ZArith QArith Qabs Reals Lra Lia Bool Arith List.
From Stdlib Require Import Floats.SpecFloat.
Import ListNotations.
Close Scope Q_scope.
Open Scope nat_scope.

Set Implicit Arguments.
Set Warnings "-abstract-large-number".

(* ================================================================== *)
(** * Python exceptions and results *)
(* ================================================================== *)

Inductive exn : Type :=
| NameError (name : string)
| AttributeError (attr : string)
| KeyError (key : string)
| AssertionError
| IndexError
| TypeError
| ValueError
| ZeroDivisionError
| OverflowError
| RuntimeError.

Definition res (X : Type) : Type := (exn + X)%type.

Definition ret {X : Type} (x : X) : res X := inr x.
Definition raise {X : Type} (e : exn) : res X := inl e.

Definition bind {X Y : Type} (m : res X) (k : X -> res Y) : res Y :=
  match m with
  | inl e => inl e
  | inr x => k x
  end.

Declare Scope res_scope.
Delimit Scope res_scope with res.
Notation "x <- m ;; k" := (bind m (fun x => k))
  (at level 61, m at next level, right associativity) : res_scope.
Notation "' pat <- m ;; k" := (bind m (fun x => match x with pat => k end))
  (at level 61, pat pattern, m at next level, right associativity) : res_scope.

(** Python's [assert cond]. *)
Definition py_assert (cond : bool) : res unit :=
  if cond then ret tt else raise AssertionError.

(** A list comprehension whose body may raise: left to right, first error wins. *)
Fixpoint map_res {X Y : Type} (f : X -> res Y) (l : list X) : res (list Y) :=
  match l with
  | [] => ret []
  | x :: l' =>
      match f x with
      | inl e => inl e
      | inr y =>
          match map_res f l' with
          | inl e => inl e
          | inr ys => inr (y :: ys)
          end
      end
  end.

(** ** Results with a trace of the library transforms that were started *)

Inductive event : Type :=
| EvStft
| EvMagphase
| EvMelScale
| EvMfcc.

Definition traced (X : Type) : Type := (list event * res X)%type.

Definition tret {X : Type} (x : X) : traced X := ([], inr x).

Definition tbind {X Y : Type} (m : traced X) (k : X -> traced Y) : traced Y :=
  match m with
  | (tr, inl e) => (tr, inl e)
  | (tr, inr x) => let (tr', r) := k x in (tr ++ tr', r)
  end.

(** A step that cannot start a transform. *)
Definition lift {X : Type} (m : res X) : traced X := ([], m).

(** A library transform: it is started (and recorded), then returns or raises. *)
Definition run_transform {X : Type} (ev : event) (m : res X) : traced X := ([ev], m).

Declare Scope traced_scope.
Delimit Scope traced_scope with traced.
Notation "x <- m ;; k" := (tbind m (fun x => k))
  (at level 61, m at next level, right associativity) : traced_scope.
Notation "' pat <- m ;; k" := (tbind m (fun x => match x with pat => k end))
  (at level 61, pat pattern, m at next level, right associativity) : traced_scope.

Definition trace_of {X : Type} (m : traced X) : list event := fst m.
Definition result_of {X : Type} (m : traced X) : res X := snd m.

(* ================================================================== *)
(** * Tensors *)
(* ================================================================== *)

Section Tensors.

Context {A : Type}.

(** A contiguous tensor: its sizes and its elements in row-major order. *)
Record Tensor : Type := mkTensor { shape : list nat; data : list A }.

Definition numel (sh : list nat) : nat := fold_right Nat.mul 1 sh.

(** The invariant of every tensor PyTorch builds. *)
Definition wf (t : Tensor) : Prop := length (data t) = numel (shape t).

Definition dim (t : Tensor) : nat := length (shape t).

(** [split_end k sh]: [sh] as [pre ++ post] with [k] sizes in [post]; this is
    how the negative dimensions [-1 .. -k] of the source are addressed. *)
Definition split_end (k : nat) (sh : list nat) : option (list nat * list nat) :=
  if k <=? length sh
  then Some (firstn (length sh - k) sh, skipn (length sh - k) sh)
  else None.

(** Elements of [l] at the positions [idx], in that order. *)
Definition gather (idx : list nat) (l : list A) : list A :=
  flat_map (fun k => match nth_error l k with Some x => [x] | None => [] end) idx.

(** Row [i] of a list read as rows of length [n]. *)
Definition row (n : nat) (l : list A) (i : nat) : list A :=
  firstn n (skipn (i * n) l).

Definition rows (count n : nat) (l : list A) : list (list A) :=
  map (row n l) (seq 0 count).

(** ** [Tensor.reshape] / [Tensor.view]

    The requested sizes are integers; one of them may be [-1] and is then
    inferred from the number of elements. *)
Definition known_sizes (req : list Z) : list nat :=
  map Z.to_nat (filter (fun z => negb (z =? -1)%Z) req).

Definition reshape (t : Tensor) (req : list Z) : res Tensor :=
  let n := numel (shape t) in
  let holes := length (filter (fun z => (z =? -1)%Z) req) in
  let known := numel (known_sizes req) in
  if existsb (fun z => (z <? -1)%Z) req then raise RuntimeError
  else match holes with
       | 0 => if known =? n
              then ret (mkTensor (map Z.to_nat req) (data t))
              else raise RuntimeError
       | 1 => if (known =? 0) || negb (n mod known =? 0)
              then raise RuntimeError
              else ret (mkTensor
                          (map (fun z => if (z =? -1)%Z then n / known else Z.to_nat z) req)
                          (data t))
       | _ => raise RuntimeError
       end.

Definition sizes (sh : list nat) : list Z := map Z.of_nat sh.

(** ** [Tensor.transpose(-(p+1), -(p+2)).contiguous()]

    The two adjacent dimensions that are followed by [p] more dimensions are
    exchanged. For the sizes [pre ++ [X; Y] ++ post] the element at
    [(b, y, x, z)] of the result is the element at [(b, x, y, z)] of the
    argument. *)
Definition swap_index (X Y Z k : nat) : nat :=
  let z := k mod Z in
  let q := k / Z in
  let x := q mod X in
  let q' := q / X in
  let y := q' mod Y in
  let b := q' / Y in
  ((b * X + x) * Y + y) * Z + z.

Definition transpose_adjacent (p : nat) (t : Tensor) : res Tensor :=
  match split_end (p + 2) (shape t) with
  | Some (pre, X :: Y :: post) =>
      ret (mkTensor (pre ++ Y :: X :: post)
             (gather (map (swap_index X Y (numel post)) (seq 0 (numel (shape t))))
                     (data t)))
  | _ => raise IndexError
  end.

(** [t.transpose(-1, -2)] and [t.transpose(-2, -3)]. *)
Definition transpose_last2 : Tensor -> res Tensor := transpose_adjacent 0.
Definition transpose_mid : Tensor -> res Tensor := transpose_adjacent 1.

(** ** [Tensor.select(dim=-(p+1), index)]

    Python's index convention: [-n <= index < n], negative counts from the end. *)
Definition norm_index (n : nat) (index : Z) : res nat :=
  if ((0 <=? index) && (index <? Z.of_nat n))%Z then ret (Z.to_nat index)
  else if ((- Z.of_nat n <=? index) && (index <? 0))%Z
       then ret (Z.to_nat (index + Z.of_nat n))
       else raise IndexError.

Definition select_index (n Z i k : nat) : nat := ((k / Z) * n + i) * Z + k mod Z.

Definition select (p : nat) (index : Z) (t : Tensor) : res Tensor :=
  match split_end (p + 1) (shape t) with
  | Some (pre, n :: post) =>
      (i <- norm_index n index ;;
       ret (mkTensor (pre ++ post)
              (gather (map (select_index n (numel post) i)
                           (seq 0 (numel pre * numel post)))
                      (data t))))%res
  | _ => raise IndexError
  end.

(** ** [torch.cat(ts, dim=-2)] *)
Definition cat_compatible (pre : list nat) (T : nat) (t : Tensor) : bool :=
  match split_end 2 (shape t) with
  | Some (pre', [_; T']) =>
      (T' =? T) && (if list_eq_dec Nat.eq_dec pre' pre then true else false)
  | _ => false
  end.

Definition feat_size (t : Tensor) : nat :=
  match split_end 2 (shape t) with
  | Some (_, [D; _]) => D
  | _ => 0
  end.

Definition cat_feat (ts : list Tensor) : res Tensor :=
  match ts with
  | [] => raise RuntimeError
  | t0 :: _ =>
      match split_end 2 (shape t0) with
      | Some (pre, [_; T]) =>
          if forallb (cat_compatible pre T) ts
          then ret (mkTensor
                      (pre ++ [fold_right Nat.add 0 (map feat_size ts); T])
                      (flat_map (fun b => flat_map (fun t => row (feat_size t * T) (data t) b) ts)
                                (seq 0 (numel pre))))
          else raise RuntimeError
      | _ => raise IndexError
      end
  end.

(** ** Element-wise maps and reductions along the last dimension *)
Definition tmap (f : A -> A) (t : Tensor) : Tensor :=
  mkTensor (shape t) (map f (data t)).

(** [t.mean(dim=-1, keepdim=True)] and the like: one value per row. *)
Definition reduce_last (f : list A -> A) (t : Tensor) : res Tensor :=
  match split_end 1 (shape t) with
  | Some (pre, [T]) =>
      ret (mkTensor (pre ++ [1]) (map f (rows (numel pre) T (data t))))
  | _ => raise IndexError
  end.

(** [a (op) b] where [b] has the sizes of [a] or the sizes of [a] with the
    last one replaced by 1 (the broadcast that [keepdim=True] produces). *)
Fixpoint zip_with (f : A -> A -> A) (l1 l2 : list A) : list A :=
  match l1, l2 with
  | x :: l1', y :: l2' => f x y :: zip_with f l1' l2'
  | _, _ => []
  end.

Definition shape_eqb (s1 s2 : list nat) : bool :=
  if list_eq_dec Nat.eq_dec s1 s2 then true else false.

(** Every row of [rs] combined with the one value [bs] holds for it. *)
Fixpoint zip_rows (f : A -> A -> A) (rs : list (list A)) (bs : list A) : list (list A) :=
  match rs, bs with
  | r :: rs', b :: bs' => map (fun x => f x b) r :: zip_rows f rs' bs'
  | _, _ => []
  end.

Definition broadcast_last (f : A -> A -> A) (a b : Tensor) : res Tensor :=
  match split_end 1 (shape a) with
  | Some (pre, [T]) =>
      if shape_eqb (shape b) (pre ++ [1])
      then ret (mkTensor (shape a)
                  (concat (zip_rows f (rows (numel pre) T (data a)) (data b))))
      else if shape_eqb (shape a) (shape b)
           then ret (mkTensor (shape a) (zip_with f (data a) (data b)))
           else raise RuntimeError
  | _ =>
      if shape_eqb (shape a) (shape b)
      then ret (mkTensor (shape a) (zip_with f (data a) (data b)))
      else raise RuntimeError
  end.

(** ** General broadcasting of two tensors (sizes aligned from the end) *)
Fixpoint broadcast_rev (r1 r2 : list nat) : option (list nat) :=
  match r1, r2 with
  | [], r => Some r
  | r, [] => Some r
  | n1 :: r1', n2 :: r2' =>
      match broadcast_rev r1' r2' with
      | Some r =>
          if n1 =? n2 then Some (n1 :: r)
          else if n1 =? 1 then Some (n2 :: r)
          else if n2 =? 1 then Some (n1 :: r)
          else None
      | None => None
      end
  end.

Definition broadcast_shapes (s1 s2 : list nat) : option (list nat) :=
  option_map (@rev nat) (broadcast_rev (rev s1) (rev s2)).

(** The multi-index of the flat position [k] in a tensor of sizes [sh]. *)
Fixpoint unravel (sh : list nat) (k : nat) : list nat :=
  match sh with
  | [] => []
  | n :: sh' => (k / numel sh') mod n :: unravel sh' k
  end.

(** The flat position in a tensor of sizes [sh] that a multi-index of the
    broadcast result reads: a dimension of size 1 is read at 0. *)
Fixpoint ravel (sh idx : list nat) : nat :=
  match sh, idx with
  | n :: sh', i :: idx' => (if n =? 1 then 0 else i) * numel sh' + ravel sh' idx'
  | _, _ => 0
  end.

Definition broadcast_index (out sh : list nat) (k : nat) : nat :=
  ravel sh (skipn (length out - length sh) (unravel out k)).

Definition broadcast_to (out : list nat) (t : Tensor) : list A :=
  gather (map (broadcast_index out (shape t)) (seq 0 (numel out))) (data t).

End Tensors.

Arguments Tensor A : clear implicits.

(* ================================================================== *)
(** * Element arithmetic *)
(* ================================================================== *)

(** The element-wise float operations of [select_feat] and of the library
    kernels it reaches. [f_lit q] is the float written as the literal [q]. *)
Class ScalarOps (A : Type) : Type := {
  f_lit : Q -> A;
  f_add : A -> A -> A;
  f_sub : A -> A -> A;
  f_mul : A -> A -> A;
  f_div : A -> A -> A;
  f_sqrt : A -> A;
  f_log : A -> A
}.

(** The numeric kernels of the transforms, whose values no claim depends on:
    windows and noise, one bin of the windowed DFT of a frame, one sample of
    the overlap-add inverse, the overlap test of the inverse, and the
    element-wise functions of [magphase] and of its inverse. *)
Class TransformOps (A : Type) : Type := {
  hann_window : nat -> list A;
  randn : nat -> list A;
  stft_bin : list A -> list A -> nat -> A * A;
  istft_sample : list A -> nat -> nat -> list A -> nat -> A;
  nola_ok : list A -> nat -> nat -> bool;
  f_norm : Q -> A -> A -> A;
  f_atan2 : A -> A -> A;
  f_pow : A -> Q -> A;
  f_cos : A -> A;
  f_sin : A -> A;
  f_close : Q -> A -> A -> bool
}.

(* ================================================================== *)
(** * The library calls of [preprocess.py] *)
(* ================================================================== *)

Section Library.

Context {A : Type} {SO : ScalarOps A} {TO : TransformOps A}.

Definition f_sum (l : list A) : A := fold_left f_add l (f_lit 0%Q).

Definition q_of_nat (n : nat) : Q := inject_Z (Z.of_nat n).

(** [torch.mean] of one row. *)
Definition mean_row (r : list A) : A :=
  f_div (f_sum r) (f_lit (q_of_nat (length r))).

(** [torch.std] of one row: the unbiased estimator (divisor [n - 1]). *)
Definition std_row (r : list A) : A :=
  let m := mean_row r in
  f_sqrt (f_div (f_sum (map (fun x => f_mul (f_sub x m) (f_sub x m)) r))
                (f_lit (inject_Z (Z.of_nat (length r) - 1)))).

(** ** [torchaudio.functional.compute_deltas] (win_length 5, replicate padding)

    [d_t = sum_{j=-2..2} j * c_{t+j} / 10], the row extended by two copies of
    its first and of its last element. The padding refuses a tensor without
    elements. *)
Definition replicate_pad (n : nat) (r : list A) : list A :=
  match r with
  | [] => []
  | x :: _ => repeat x n ++ r ++ repeat (last r x) n
  end.

Definition delta_kernel : list A :=
  map (fun z => f_lit (inject_Z z)) [-2; -1; 0; 1; 2]%Z.

Definition deltas_row (r : list A) : list A :=
  let padded := replicate_pad 2 r in
  map (fun t => f_div (f_sum (zip_with f_mul delta_kernel (firstn 5 (skipn t padded))))
                      (f_lit 10%Q))
      (seq 0 (length r)).

Definition compute_deltas (t : Tensor A) : res (Tensor A) :=
  match split_end 1 (shape t) with
  | Some (pre, [T]) =>
      if numel (shape t) =? 0 then raise RuntimeError
      else ret (mkTensor (shape t)
                  (flat_map deltas_row (rows (numel pre) T (data t))))
  | _ => raise IndexError
  end.

(** ** [torch.stft] with [center=True, pad_mode='reflect', normalized=False,
    onesided=True], on a one- or two-dimensional input *)
Definition reflect_pad (p : nat) (x : list A) : list A :=
  rev (firstn p (skipn 1 x)) ++ x ++ firstn p (skipn 1 (rev x)).

(** A window shorter than [n_fft] is centred in zeros. *)
Definition pad_window (n_fft : nat) (w : list A) : list A :=
  let left := (n_fft - length w) / 2 in
  repeat (f_lit 0%Q) left ++ w ++ repeat (f_lit 0%Q) (n_fft - length w - left).

Definition stft_frames (n_fft hop T : nat) : nat :=
  1 + (T + 2 * (n_fft / 2) - n_fft) / hop.

Definition stft_row (n_fft hop : nat) (w x : list A) : list A :=
  let padded := reflect_pad (n_fft / 2) x in
  flat_map (fun f =>
    flat_map (fun t =>
      let (re, im) := stft_bin w (firstn n_fft (skipn (t * hop) padded)) f in
      [re; im])
      (seq 0 (stft_frames n_fft hop (length x))))
    (seq 0 (n_fft / 2 + 1)).

Definition stft_valid (n_fft hop win : Z) (window : list A) (T : nat) : bool :=
  ((0 <? n_fft) && (0 <? hop) && (0 <? win) && (win <=? n_fft))%Z
  && (length window =? Z.to_nat win)
  && (Z.to_nat n_fft / 2 <? T).

Definition stft (n_fft hop win : Z) (window : list A) (x : Tensor A) : res (Tensor A) :=
  let nf := Z.to_nat n_fft in
  let hp := Z.to_nat hop in
  let w := pad_window nf window in
  match shape x with
  | [T] =>
      if stft_valid n_fft hop win window T
      then ret (mkTensor [nf / 2 + 1; stft_frames nf hp T; 2]
                  (stft_row nf hp w (data x)))
      else raise RuntimeError
  | [N; T] =>
      if stft_valid n_fft hop win window T
      then ret (mkTensor [N; nf / 2 + 1; stft_frames nf hp T; 2]
                  (flat_map (stft_row nf hp w) (rows N T (data x))))
      else raise RuntimeError
  | _ => raise RuntimeError
  end.

(** ** [torchaudio.functional.istft] with the same arguments, [length=None]

    The spectrogram is [(channel, n_fft/2+1, frames, 2)] or the same without
    the channel. The overlap-added signal has [n_fft + hop * (frames - 1)]
    samples and is cut by [n_fft/2] at both ends. *)
Definition istft_length (n_fft hop frames : nat) : nat :=
  if n_fft / 2 =? 0 then 0
  else n_fft + hop * (frames - 1) - 2 * (n_fft / 2).

Definition istft_rows (n_fft hop win : Z) (window : list A)
    (C F frames last : nat) (d : list A) : res (list A) :=
  let nf := Z.to_nat n_fft in
  let hp := Z.to_nat hop in
  let w := pad_window nf window in
  (_ <- py_assert ((n_fft / 2 + 1 =? Z.of_nat F)%Z) ;;
   _ <- py_assert ((0 <? hop) && (hop <=? win))%Z ;;
   _ <- py_assert ((0 <? win) && (win <=? n_fft))%Z ;;
   _ <- py_assert (length window =? Z.to_nat win) ;;
   if negb (last =? 2) || (frames =? 0) || (istft_length nf hp frames =? 0)
   then raise RuntimeError
   else
     _ <- py_assert (nola_ok w hp frames) ;;
     ret (flat_map (fun c =>
            map (istft_sample w nf hp (row (F * frames * 2) d c))
                (seq 0 (istft_length nf hp frames)))
            (seq 0 C)))%res.

Definition istft_lib (n_fft hop win : Z) (window : list A) (s : Tensor A) : res (Tensor A) :=
  match shape s with
  | [F; frames; last] =>
      (d <- istft_rows n_fft hop win window 1 F frames last (data s) ;;
       ret (mkTensor [istft_length (Z.to_nat n_fft) (Z.to_nat hop) frames] d))%res
  | [C; F; frames; last] =>
      (d <- istft_rows n_fft hop win window C F frames last (data s) ;;
       ret (mkTensor [C; istft_length (Z.to_nat n_fft) (Z.to_nat hop) frames] d))%res
  | _ => raise AssertionError
  end.

(** ** [torchaudio.functional.magphase]: the norm to the given power and the
    angle of every (real, imaginary) pair

    The last dimension holds the pair, as in every tensor [torch.stft]
    returns; other last sizes are not modelled beyond the failed index. *)
Fixpoint pairs (l : list A) : list (A * A) :=
  match l with
  | re :: im :: l' => (re, im) :: pairs l'
  | _ => []
  end.

Definition magphase (power : Q) (c : Tensor A) : res (Tensor A * Tensor A) :=
  match split_end 1 (shape c) with
  | Some (pre, [2]) =>
      ret (mkTensor pre (map (fun p => f_norm power (fst p) (snd p)) (pairs (data c))),
           mkTensor pre (map (fun p => f_atan2 (snd p) (fst p)) (pairs (data c))))
  | _ => raise IndexError
  end.

(** [torch.allclose(a, b, atol=eps)]: the operands are broadcast together;
    sizes that do not broadcast raise. *)
Definition allclose (eps : Q) (a b : Tensor A) : res bool :=
  match broadcast_shapes (shape a) (shape b) with
  | Some out =>
      ret (forallb (fun p => f_close eps (fst p) (snd p))
             (combine (broadcast_to out a) (broadcast_to out b)))
  | None => raise RuntimeError
  end.

(** [a * b] with broadcasting. *)
Definition tmul (a b : Tensor A) : res (Tensor A) :=
  match broadcast_shapes (shape a) (shape b) with
  | Some out =>
      ret (mkTensor out (zip_with f_mul (broadcast_to out a) (broadcast_to out b)))
  | None => raise RuntimeError
  end.

(** [torch.stack([a, b], dim=-1)]: the two tensors interleaved. *)
Definition stack_last (a b : Tensor A) : res (Tensor A) :=
  if shape_eqb (shape a) (shape b)
  then ret (mkTensor (shape a ++ [2])
              (flat_map (fun p => [fst p; snd p]) (combine (data a) (data b))))
  else raise RuntimeError.

(** [t.unsqueeze(-1)]. *)
Definition unsqueeze_last (t : Tensor A) : Tensor A :=
  mkTensor (shape t ++ [1]) (data t).

End Library.

(* ================================================================== *)
(** * Python names in [preprocess.py] *)
(* ================================================================== *)

(** What a name may be bound to, as far as the constructor looks at it. *)
Inductive pyval : Type :=
| VInt (z : Z)
| VObject.

(** The names [preprocess.py] binds at module level (lines 1-39). The
    [from torchaudio... import] statements bind the imported symbols only. *)
Definition module_globals : list string :=
  ["os"; "load"; "np"; "librosa"; "scipy";
   "Spectrogram"; "MelScale"; "MFCC"; "magphase"; "compute_deltas";
   "partial"; "torch"; "hann"; "read"; "adnoise"; "OnlinePreprocessor";
   "__name__"; "__doc__"; "__file__"; "__package__"; "__loader__";
   "__spec__"; "__builtins__"; "__cached__"]%string.

(** The functions and constants of Python's [builtins] module. *)
Definition builtins : list string :=
  ["abs"; "all"; "any"; "ascii"; "bin"; "bool"; "breakpoint"; "bytearray";
   "bytes"; "callable"; "chr"; "classmethod"; "compile"; "complex";
   "delattr"; "dict"; "dir"; "divmod"; "enumerate"; "eval"; "exec";
   "filter"; "float"; "format"; "frozenset"; "getattr"; "globals";
   "hasattr"; "hash"; "help"; "hex"; "id"; "input"; "int"; "isinstance";
   "issubclass"; "iter"; "len"; "list"; "locals"; "map"; "max";
   "memoryview"; "min"; "next"; "object"; "oct"; "open"; "ord"; "pow";
   "print"; "property"; "range"; "repr"; "reversed"; "round"; "set";
   "setattr"; "slice"; "sorted"; "staticmethod"; "str"; "sum"; "super";
   "tuple"; "type"; "vars"; "zip"; "__import__";
   "True"; "False"; "None"; "Ellipsis"; "NotImplemented"; "__debug__";
   "quit"; "exit"; "copyright"; "credits"; "license"]%string.

Definition local_scope : Type := list (string * pyval).

Fixpoint lookup_local (locals : local_scope) (name : string) : option pyval :=
  match locals with
  | [] => None
  | (n, v) :: rest => if String.eqb n name then Some v else lookup_local rest name
  end.

(** Loading a name in a function body: locals, then module globals, then
    builtins; otherwise [NameError]. *)
Definition load_name (locals : local_scope) (name : string) : res pyval :=
  match lookup_local locals name with
  | Some v => ret v
  | None =>
      if existsb (String.eqb name) (module_globals ++ builtins)
      then ret VObject
      else raise (NameError name)
  end.

Definition load_int (locals : local_scope) (name : string) : res Z :=
  (v <- load_name locals name ;;
   match v with
   | VInt z => ret z
   | VObject => raise TypeError
   end)%res.

(* ================================================================== *)
(** * [OnlinePreprocessor] *)
(* ================================================================== *)

(** One entry of a [feat_list]: a dict whose keys are among the parameters
    of [select_feat]; an absent key is [None]. *)
Record FeatArgs : Type := mkFeatArgs {
  a_feat_type : option string;
  a_channel : option Z;
  a_log : option bool;
  a_delta : option Z;
  a_cmvn : option bool
}.

(** A Python value passed as an argument, by its type: [str], [int],
    [bool], [float], [None], or an object of any other type. *)
Inductive pyarg : Type :=
| ArgStr (s : string)
| ArgInt (z : Z)
| ArgBool (b : bool)
| ArgFloat (q : Q)
| ArgNone
| ArgOther.

(** [{'feat_type': ft, 'channel': ch}], as [test_istft] writes its requests. *)
Definition feat_channel (ft : string) (ch : Z) : FeatArgs :=
  mkFeatArgs (Some ft) (Some ch) None None None.

Section Preprocessor.

Context {A : Type} {SO : ScalarOps A} {TO : TransformOps A}.

(** The attributes of an instance. [__init__] assigns [_win_args], [_window],
    [_stft_args], [_stft], [_istft], [_magphase], [feat_list] and
    [_pseudo_wav]; [forward] also reads [_melscale] and [_mfcc_trans], which
    no statement of the class assigns, so they are optional here. The
    partial applications [_stft], [_istft] and [_magphase] are determined by
    [_win_args] and the constant [_stft_args]. *)
Record OnlinePreprocessor : Type := mkPreprocessor {
  n_fft : Z;
  hop_length : Z;
  win_length : Z;
  _window : list A;
  feat_list : option (list FeatArgs);
  _pseudo_wav : Tensor A;
  _melscale : option (Tensor A -> res (Tensor A));
  _mfcc_trans : option (Tensor A -> res (Tensor A))
}.

Definition _stft (self : OnlinePreprocessor) : Tensor A -> res (Tensor A) :=
  stft (n_fft self) (hop_length self) (win_length self) (_window self).

Definition _istft (self : OnlinePreprocessor) : Tensor A -> res (Tensor A) :=
  istft_lib (n_fft self) (hop_length self) (win_length self) (_window self).

Definition _magphase : Tensor A -> res (Tensor A * Tensor A) := magphase 2%Q.

Definition getattr {X : Type} (name : string) (field : option X) : res X :=
  match field with
  | Some x => ret x
  | None => raise (AttributeError name)
  end.

(** ** [__init__] (lines 40-54) *)

Record InitArgs : Type := mkInitArgs {
  arg_sample_rate : Z;
  arg_win_len : Z;
  arg_hop_len : Z;
  arg_n_freq : Z;
  arg_n_mels : Z;
  arg_n_mfcc : Z;
  arg_feat_list : option (list FeatArgs);
  arg_kwargs : list (string * pyval)
}.

(** The defaults of the signature. *)
Definition default_args : InitArgs :=
  mkInitArgs 16000 512 256 257 40 13 None [].

(** The local names when the body starts: [self] and the parameters. The
    keyword dictionary is one local, [kwargs]; its keys are not names. *)
Definition init_locals (args : InitArgs) : local_scope :=
  [("self", VObject);
   ("sample_rate", VInt (arg_sample_rate args));
   ("win_len", VInt (arg_win_len args));
   ("hop_len", VInt (arg_hop_len args));
   ("n_freq", VInt (arg_n_freq args));
   ("n_mels", VInt (arg_n_mels args));
   ("n_mfcc", VInt (arg_n_mfcc args));
   ("feat_list", VObject);
   ("kwargs", VObject)]%string.

(** [torch.hann_window(n)] and [torch.randn(2, 2, n)]: a negative size raises. *)
Definition torch_hann_window (n : Z) : res (list A) :=
  if (n <? 0)%Z then raise RuntimeError else ret (hann_window (Z.to_nat n)).

Definition torch_randn_2_2 (n : Z) : res (Tensor A) :=
  if (n <? 0)%Z then raise RuntimeError
  else ret (mkTensor [2; 2; Z.to_nat n] (randn (2 * 2 * Z.to_nat n))).

(** The body, statement by statement, over the local names it starts with. *)
Definition init_body (locals : local_scope) (fl : option (list FeatArgs))
  : res OnlinePreprocessor :=
  ((* 41: super(OnlinePreprocessor, self).__init__() *)
   _ <- load_name locals "super" ;;
   _ <- load_name locals "OnlinePreprocessor" ;;
   _ <- load_name locals "self" ;;
   (* 42: n_fft = (n_freq - 1) * 2 *)
   n_freq <- load_int locals "n_freq" ;;
   let locals := ("n_fft"%string, VInt ((n_freq - 1) * 2)) :: locals in
   (* 43: self._win_args = {'n_fft': n_fft, 'hop_length': hop, 'win_length': win} *)
   nfft <- load_int locals "n_fft" ;;
   hop <- load_int locals "hop" ;;
   win <- load_int locals "win" ;;
   _ <- load_name locals "self" ;;
   (* 44: self.register_buffer('_window', torch.hann_window(win)) *)
   _ <- load_name locals "self" ;;
   _ <- load_name locals "torch" ;;
   win' <- load_int locals "win" ;;
   window <- torch_hann_window win' ;;
   (* 46: self._stft_args = {...} *)
   _ <- load_name locals "self" ;;
   (* 49: self._stft = partial(torch.stft, **self._win_args, **self._stft_args) *)
   _ <- load_name locals "partial" ;;
   _ <- load_name locals "torch" ;;
   _ <- load_name locals "self" ;;
   _ <- load_name locals "self" ;;
   _ <- load_name locals "self" ;;
   (* 50: self._istft = partial(torchaudio.functional.istft, ...) *)
   _ <- load_name locals "partial" ;;
   _ <- load_name locals "torchaudio" ;;
   _ <- load_name locals "self" ;;
   _ <- load_name locals "self" ;;
   _ <- load_name locals "self" ;;
   (* 51: self._magphase = partial(torchaudio.functional.magphase, power=2) *)
   _ <- load_name locals "partial" ;;
   _ <- load_name locals "torchaudio" ;;
   _ <- load_name locals "self" ;;
   (* 53: self.feat_list = feat_list *)
   _ <- load_name locals "feat_list" ;;
   _ <- load_name locals "self" ;;
   (* 54: self.register_buffer('_pseudo_wav', torch.randn(2, 2, sample_rate)) *)
   _ <- load_name locals "self" ;;
   _ <- load_name locals "torch" ;;
   sr <- load_int locals "sample_rate" ;;
   pseudo <- torch_randn_2_2 sr ;;
   ret (mkPreprocessor nfft hop win window fl pseudo None None))%res.

Definition __init__ (args : InitArgs) : res OnlinePreprocessor :=
  init_body (init_locals args) (arg_feat_list args).

(** ** [_check_list] (lines 56-60) and [_transpose_list] (lines 62-63) *)

Definition _check_list (self : OnlinePreprocessor) (fl : option (list FeatArgs))
  : res (list FeatArgs) :=
  let fl := match fl with None => feat_list self | Some _ => fl end in
  match fl with
  | Some l => ret l
  | None => raise AssertionError
  end.

Definition _transpose_list (feats : list (Tensor A)) : res (list (Tensor A)) :=
  map_res transpose_last2 feats.

(** ** [get_feat_config] (lines 65-78)

    The arguments are Python values of any type ([pyarg]). [feat_type in
    [...]] holds for the five strings only; [type(x) is int] holds for an
    [int] and not for a [bool]; [delta >= 0] is evaluated for an [int] only.
    The dictionary returned holds the five arguments. *)
Definition get_feat_config (feat_type channel log delta cmvn : pyarg) : res FeatArgs :=
  (_ <- py_assert (match feat_type with
                   | ArgStr s => existsb (String.eqb s)
                                   ["complx"; "linear"; "phase"; "mel"; "mfcc"]%string
                   | _ => false
                   end) ;;
   _ <- py_assert (match channel with ArgInt _ => true | _ => false end) ;;
   _ <- py_assert (match log with ArgBool _ => true | _ => false end) ;;
   _ <- py_assert (match delta with ArgInt d => (0 <=? d)%Z | _ => false end) ;;
   _ <- py_assert (match cmvn with ArgBool _ => true | _ => false end) ;;
   match feat_type, channel, log, delta, cmvn with
   | ArgStr ft, ArgInt ch, ArgBool lg, ArgInt d, ArgBool cm =>
       ret (mkFeatArgs (Some ft) (Some ch) (Some lg) (Some d) (Some cm))
   | _, _, _, _, _ => raise AssertionError
   end)%res.

(** ** [select_feat] (lines 99-113) *)

(** A value of the dictionary [locals()] of [forward]. *)
Inductive pyobj : Type :=
| PyTensor (t : Tensor A)
| PyOther.

Definition variables_t : Type := list (string * pyobj).

Fixpoint dict_get (d : variables_t) (key : string) : res pyobj :=
  match d with
  | [] => raise (KeyError key)
  | (k, v) :: rest => if String.eqb k key then ret v else dict_get rest key
  end.

(** The literal [1e-10]. *)
Definition eps_lit : Q := 1 # 10000000000.

(** Line 103: [(raw_feat + 1e-10).log()]. *)
Definition log_eps (x : A) : A := f_log (f_add x (f_lit eps_lit)).

(** Lines 106-107: [feats.append(compute_deltas(feats[-1]))], [n] times. *)
Fixpoint delta_loop (n : nat) (feats : list (Tensor A)) : res (list (Tensor A)) :=
  match n with
  | 0 => ret feats
  | S n' =>
      match rev feats with
      | [] => raise IndexError
      | newest :: _ =>
          (d <- compute_deltas newest ;;
           delta_loop n' (feats ++ [d]))%res
      end
  end.

(** Line 111: [(feats - feats.mean(-1, keepdim)) / (feats.std(-1, keepdim) + 1e-10)]. *)
Definition cmvn_normalize (feats : Tensor A) : res (Tensor A) :=
  (m <- reduce_last mean_row feats ;;
   centred <- broadcast_last f_sub feats m ;;
   s <- reduce_last std_row feats ;;
   broadcast_last f_div centred (tmap (fun x => f_add x (f_lit eps_lit)) s))%res.

Definition select_feat (variables : variables_t) (feat_type : string)
    (channel : Z) (log : bool) (delta : Z) (cmvn : bool) : res (Tensor A) :=
  (v <- dict_get variables feat_type ;;
   t <- match v with
        | PyTensor t => ret t
        | PyOther => raise (AttributeError "select")
        end ;;
   raw_feat <- select 2 channel t ;;
   let raw_feat := if log then tmap log_eps raw_feat else raw_feat in
   feats <- delta_loop (Z.to_nat delta) [raw_feat] ;;
   feats <- cat_feat feats ;;
   if cmvn then cmvn_normalize feats else ret feats)%res.

(** [select_feat(local_variables, **args)]: the defaults of the signature
    fill the absent keys; [feat_type] has no default. *)
Definition call_select_feat (variables : variables_t) (args : FeatArgs)
  : res (Tensor A) :=
  match a_feat_type args with
  | None => raise TypeError
  | Some ft =>
      select_feat variables ft
        (match a_channel args with Some c => c | None => 0%Z end)
        (match a_log args with Some b => b | None => false end)
        (match a_delta args with Some d => d | None => 0%Z end)
        (match a_cmvn args with Some b => b | None => false end)
  end.

(** ** [forward] (lines 80-117) *)

(** Line 85: [max([int(args['channel']) if 'channel' in args else 0 ...])]. *)
Definition max_channel (fl : list FeatArgs) : res Z :=
  match map (fun a => match a_channel a with Some c => c | None => 0%Z end) fl with
  | [] => raise ValueError
  | c :: cs => ret (fold_left Z.max cs c)
  end.

(** Line 86: [self._pseudo_wav.expand(-1, c, -1)]. *)
Definition expand_channels (t : Tensor A) (c : Z) : res (Tensor A) :=
  match shape t with
  | [a; b; n] =>
      if ((c =? -1) || (c =? Z.of_nat b))%Z then ret t
      else if (b =? 1) && (0 <=? c)%Z
           then ret (mkTensor [a; Z.to_nat c; n]
                       (flat_map (fun i => concat (repeat (row n (data t) i) (Z.to_nat c)))
                                 (seq 0 a)))
           else raise RuntimeError
  | _ => raise RuntimeError
  end.

(** Lines 89-91: the analysis transform of all rows, in the sizes of [wavs]. *)
Definition analyze (self : OnlinePreprocessor) (wavs : Tensor A) : res (Tensor A) :=
  let shape_ := shape wavs in
  (flat <- reshape wavs [(-1)%Z; Z.of_nat (last shape_ 0)] ;;
   complx <- _stft self flat ;;
   reshape complx (sizes (removelast shape_
                          ++ skipn (length (shape complx) - 3) (shape complx))))%res.

(** The dictionary [locals()] at line 115. *)
Definition forward_locals (wavs complx linear phase mel mfcc : Tensor A)
    (from_pseudo : bool) : variables_t :=
  [("self", PyOther); ("wavs", PyTensor wavs); ("feat_list", PyOther)]%string
  ++ (if from_pseudo then [("max_channel_id"%string, PyOther)] else [])
  ++ [("shape", PyOther); ("complx", PyTensor complx); ("linear", PyTensor linear);
      ("phase", PyTensor phase); ("mel", PyTensor mel); ("mfcc", PyTensor mfcc);
      ("select_feat", PyOther)]%string.

(** Lines 89-97: the five representations, each of the sizes [batch.., channel, feature, time]. *)
Record Features : Type := mkFeatures {
  complx : Tensor A;
  linear : Tensor A;
  phase : Tensor A;
  mel : Tensor A;
  mfcc : Tensor A
}.

Definition compute_features (self : OnlinePreprocessor) (wavs : Tensor A)
  : traced Features :=
  (complx <- run_transform EvStft (analyze self wavs) ;;
   ' (linear, phase) <- run_transform EvMagphase (_magphase complx) ;;
   melscale <- lift (getattr "_melscale" (_melscale self)) ;;
   mel <- run_transform EvMelScale (melscale linear) ;;
   mfcc_trans <- lift (getattr "_mfcc_trans" (_mfcc_trans self)) ;;
   mfcc <- run_transform EvMfcc (mfcc_trans wavs) ;;
   complx <- lift (c <- transpose_last2 complx ;;
                   match shape mfcc with
                   | [] => raise IndexError
                   | _ => reshape c (sizes (firstn 2 (shape mfcc))
                                     ++ [(-1)%Z; Z.of_nat (last (shape mfcc) 0)])
                   end)%res ;;
   tret (mkFeatures complx linear phase mel mfcc))%traced.

(** Lines 115-116: the requests, in order, then the transposition. *)
Definition select_all (variables : variables_t) (fl : list FeatArgs)
  : res (list (Tensor A)) :=
  (feats <- map_res (call_select_feat variables) fl ;;
   _transpose_list feats)%res.

Definition forward (self : OnlinePreprocessor) (wavs : option (Tensor A))
    (fl : option (list FeatArgs)) : traced (list (Tensor A)) :=
  (fl <- lift (_check_list self fl) ;;
   wavs' <- lift (match wavs with
                  | Some w => ret w
                  | None => (m <- max_channel fl ;;
                             expand_channels (_pseudo_wav self) (m + 1))%res
                  end) ;;
   _ <- lift (py_assert (3 <=? dim wavs')) ;;
   v <- compute_features self wavs' ;;
   let local_variables :=
     forward_locals wavs' (complx v) (linear v) (phase v) (mel v) (mfcc v)
       (match wavs with None => true | Some _ => false end) in
   lift (select_all local_variables fl))%traced.

(** ** [istft] (lines 119-134) *)

Definition istft (self : OnlinePreprocessor) (linears phases : option (Tensor A))
    (linear_power : Z) (complxs : option (Tensor A)) : res (Tensor A) :=
  (_ <- py_assert (match complxs, linears, phases with
                   | Some _, _, _ => true
                   | None, Some _, Some _ => true
                   | _, _, _ => false
                   end) ;;
   complxs <- match complxs, linears, phases with
              | Some c, _, _ => ret c
              | None, Some l, Some p =>
                  lp <- _transpose_list [l; p] ;;
                  match lp with
                  | [l'; p'] =>
                      if (linear_power =? 0)%Z then raise ZeroDivisionError
                      else
                        let mag := unsqueeze_last
                                     (tmap (fun x => f_pow x (Qinv (inject_Z linear_power))) l') in
                        unit_ <- stack_last (tmap f_cos p') (tmap f_sin p') ;;
                        tmul mag unit_
                  | _ => raise ValueError
                  end
              | _, _, _ => raise AssertionError
              end ;;
   complxs <- match rev (shape complxs) with
              | [] => raise IndexError
              | last_size :: _ =>
                  if negb (last_size =? 2)
                  then
                    viewed <- reshape complxs (sizes (removelast (shape complxs))
                                               ++ [(-1)%Z; 2%Z]) ;;
                    transpose_mid viewed
                  else ret complxs
              end ;;
   _istft self complxs)%res.

(** ** [test_istft] (lines 136-150) *)

Definition test_istft (self : OnlinePreprocessor) (wavs : option (Tensor A))
    (epsilon : Q) : traced unit :=
  let wavs := match wavs with Some w => w | None => _pseudo_wav self end in
  let fl := [feat_channel "complx" 0; feat_channel "linear" 1;
             feat_channel "phase" 1] in
  (outs <- forward self (Some wavs) (Some fl) ;;
   match outs with
   | [complxs; linears; phases] =>
       lift (w1 <- select 1 0 wavs ;;
             r1 <- istft self None None 2 (Some complxs) ;;
             ok1 <- allclose epsilon w1 r1 ;;
             _ <- py_assert ok1 ;;
             w2 <- select 1 1 wavs ;;
             r2 <- istft self (Some linears) (Some phases) 2 None ;;
             ok2 <- allclose epsilon w2 r2 ;;
             py_assert ok2)%res
   | _ => lift (raise ValueError)
   end)%traced.

End Preprocessor.

Arguments OnlinePreprocessor A : clear implicits.
Arguments Features A : clear implicits.

(* ================================================================== *)
(** * The filter-bank transforms *)
(* ================================================================== *)

Section FilterBank.

Context {A : Type} {SO : ScalarOps A} {TO : TransformOps A}.

(** Modelled from the spec: the transforms behind the attributes [_melscale]
    and [_mfcc_trans], which [preprocess.py] reads and never assigns. The mel
    projection is a fixed matrix [fb] (one row per band) applied to every
    frame: [mel = fb . magnitude]. For the sizes [pre ++ [F; T]] the result
    has the sizes [pre ++ [length fb; T]]. *)
Definition project_frames (fb : list (list A)) (F T : nat) (block : list A) : list A :=
  flat_map (fun band =>
    map (fun t => f_sum (zip_with f_mul band (map (fun f => nth (f * T + t) block (f_lit 0%Q))
                                                  (seq 0 F))))
        (seq 0 T))
    fb.

Definition mel_project (fb : list (list A)) (x : Tensor A) : res (Tensor A) :=
  match split_end 2 (shape x) with
  | Some (pre, [F; T]) =>
      ret (mkTensor (pre ++ [length fb; T])
             (flat_map (project_frames fb F T) (rows (numel pre) (F * T) (data x))))
  | _ => raise RuntimeError
  end.

(** Modelled from the spec: MFCC is computed from the raw waveform by an
    analysis of its own: power spectrum, mel projection, log-compression,
    then a fixed cepstral matrix [dct] whose rows are the retained
    coefficients. *)
Definition mfcc_project (self : OnlinePreprocessor A) (fb dct : list (list A))
    (wavs : Tensor A) : res (Tensor A) :=
  (complx <- analyze self wavs ;;
   ' (power, _) <- magphase 2%Q complx ;;
   mel <- mel_project fb power ;;
   mel_project dct (tmap f_log mel))%res.

End FilterBank.

(* ================================================================== *)
(** * Symbolic elements *)
(* ================================================================== *)

(** Floats as terms: every operation is a constructor, so a computation
    shows which operations reached which input, and nothing else. *)
#[warnings="-register-all"]
Inductive sym : Type :=
| SIn (name : string) (i : nat)
| SLit (q : Q)
| SAdd (a b : sym)
| SSub (a b : sym)
| SMul (a b : sym)
| SDiv (a b : sym)
| SSqrt (a : sym)
| SLog (a : sym)
| SHann (n i : nat)
| SRandn (i : nat)
| SStft (part : bool) (window frame : list sym) (bin : nat)
| SIstft (window : list sym) (n_fft hop : nat) (spec : list sym) (i : nat)
| SNorm (power : Q) (re im : sym)
| SAtan2 (y x : sym)
| SPow (a : sym) (q : Q)
| SCos (a : sym)
| SSin (a : sym).

#[export] Instance sym_scalar : ScalarOps sym := {
  f_lit := SLit;
  f_add := SAdd;
  f_sub := SSub;
  f_mul := SMul;
  f_div := SDiv;
  f_sqrt := SSqrt;
  f_log := SLog
}.

(** A term has no value: the overlap test of the inverse transform and the
    closeness test of [allclose] are taken to pass. *)
#[export] Instance sym_transform : TransformOps sym := {
  hann_window := fun n => map (SHann n) (seq 0 n);
  randn := fun n => map SRandn (seq 0 n);
  stft_bin := fun w fr k => (SStft true w fr k, SStft false w fr k);
  istft_sample := SIstft;
  nola_ok := fun _ _ _ => true;
  f_norm := SNorm;
  f_atan2 := SAtan2;
  f_pow := SPow;
  f_cos := SCos;
  f_sin := SSin;
  f_close := fun _ _ _ => true
}.

(** The samples of a named input, and a tensor of them. *)
Definition sym_input (name : string) (sh : list nat) : Tensor sym :=
  mkTensor sh (map (SIn name) (seq 0 (numel sh))).

Definition sym_matrix (name : string) (r c : nat) : list (list sym) :=
  map (fun i => map (fun j => SIn name (i * c + j)) (seq 0 c)) (seq 0 r).

(** An instance as [__init__] is written to build it, for [n_freq] bins,
    with or without the two filter-bank attributes. *)
Definition sym_bare (n_freq hop win sr : nat) : OnlinePreprocessor sym :=
  mkPreprocessor (Z.of_nat ((n_freq - 1) * 2)) (Z.of_nat hop) (Z.of_nat win)
    (hann_window win) None (sym_input "pseudo" [2; 2; sr]) None None.

Definition sym_instance (n_freq hop win sr n_mels n_mfcc : nat)
  : OnlinePreprocessor sym :=
  let bare := sym_bare n_freq hop win sr in
  mkPreprocessor (n_fft bare) (hop_length bare) (win_length bare)
    (_window bare) None (_pseudo_wav bare)
    (Some (mel_project (sym_matrix "fb" n_mels n_freq)))
    (Some (mfcc_project bare (sym_matrix "fb" n_mels n_freq)
                             (sym_matrix "dct" n_mfcc n_mels))).

(* ================================================================== *)
(** * Reals with the IEEE special values *)
(* ================================================================== *)

(** Floats as reals with the IEEE special values. The finite results are
    not rounded and do not overflow, and zero has no sign; the special cases
    are IEEE's (a positive divisor zero is taken for [x / 0]). These elements
    serve for what does not depend on rounding: which results are finite,
    infinite or NaN, and their signs. What depends on rounding is stated
    over binary32 numbers ([b32_scalar]). *)
Inductive fval : Type :=
| Fin (r : R)
| PInf
| NInf
| NaN.

Definition is_finite (x : fval) : Prop :=
  match x with
  | Fin _ => True
  | _ => False
  end.

Definition all_finite (l : list fval) : Prop := forall y, In y l -> is_finite y.

Definition fval_neg (x : fval) : fval :=
  match x with
  | Fin r => Fin (- r)
  | PInf => NInf
  | NInf => PInf
  | NaN => NaN
  end.

Definition fval_add (x y : fval) : fval :=
  match x, y with
  | NaN, _ | _, NaN => NaN
  | Fin a, Fin b => Fin (a + b)
  | PInf, NInf | NInf, PInf => NaN
  | PInf, _ | _, PInf => PInf
  | NInf, _ | _, NInf => NInf
  end.

Definition fval_sub (x y : fval) : fval := fval_add x (fval_neg y).

(** An infinity scaled by a finite factor. *)
Definition inf_times (pos : bool) (r : R) : fval :=
  if Rlt_dec 0 r then (if pos then PInf else NInf)
  else if Rlt_dec r 0 then (if pos then NInf else PInf)
  else NaN.

Definition fval_mul (x y : fval) : fval :=
  match x, y with
  | NaN, _ | _, NaN => NaN
  | Fin a, Fin b => Fin (a * b)
  | PInf, Fin r | Fin r, PInf => inf_times true r
  | NInf, Fin r | Fin r, NInf => inf_times false r
  | PInf, PInf | NInf, NInf => PInf
  | PInf, NInf | NInf, PInf => NInf
  end.

Definition fval_div (x y : fval) : fval :=
  match x, y with
  | NaN, _ | _, NaN => NaN
  | Fin a, Fin b =>
      if Req_dec_T b 0
      then (if Rlt_dec 0 a then PInf else if Rlt_dec a 0 then NInf else NaN)
      else Fin (a / b)
  | Fin _, PInf | Fin _, NInf => Fin 0
  | PInf, Fin r => if Rlt_dec r 0 then NInf else PInf
  | NInf, Fin r => if Rlt_dec r 0 then PInf else NInf
  | _, _ => NaN
  end.

Definition fval_sqrt (x : fval) : fval :=
  match x with
  | Fin r => if Rlt_dec r 0 then NaN else Fin (sqrt r)
  | PInf => PInf
  | _ => NaN
  end.

Definition fval_log (x : fval) : fval :=
  match x with
  | Fin r => if Rlt_dec 0 r then Fin (ln r)
             else if Rlt_dec r 0 then NaN else NInf
  | PInf => PInf
  | _ => NaN
  end.

#[export] Instance fval_scalar : ScalarOps fval := {
  f_lit := fun q => Fin (Q2R q);
  f_add := fval_add;
  f_sub := fval_sub;
  f_mul := fval_mul;
  f_div := fval_div;
  f_sqrt := fval_sqrt;
  f_log := fval_log
}.

(** The time-mean and the unbiased time-deviation of reals, as mathematics
    writes them. *)
Definition Rsum (l : list R) : R := fold_right Rplus 0%R l.

Definition Rmean (l : list R) : R := (Rsum l / INR (length l))%R.

Definition Rstd (l : list R) : R :=
  sqrt (Rsum (map (fun x => (x - Rmean l) * (x - Rmean l))%R l)
        / (INR (length l) - 1))%R.

(* ================================================================== *)
(** * The two layouts of a complex spectrogram *)
(* ================================================================== *)

Section Layouts.
Context {A : Type}.

(** From the words of the spec: the interleaved form of a paired
    spectrogram lists, for every frame [t], the (real, imaginary) pairs of
    the bins [f = 0 .. F-1] of that frame. *)
Definition interleave_block (F T : nat) (block : list A) : list A :=
  flat_map (fun t =>
    flat_map (fun f => firstn 2 (skipn ((f * T + t) * 2) block)) (seq 0 F))
    (seq 0 T).

Definition interleaved_of (pre : list nat) (F T : nat) (paired : Tensor A) : Tensor A :=
  mkTensor (pre ++ [T; F * 2])
    (flat_map (interleave_block F T) (rows (numel pre) (F * T * 2) (data paired))).
End Layouts.

Unset Implicit Arguments.

(* ================================================================== *)
(** * Configurations the transforms accept *)
(* ================================================================== *)

Section Configurations.

Context {A : Type}.

(** The transform sizes as the constructor derives them from [n_freq]
    ([n_fft = (n_freq - 1) * 2]), in the ranges [torch.stft] accepts, with a
    window of [win_length] samples. *)
Definition valid_config (self : OnlinePreprocessor A) (n_freq : nat) : Prop :=
  2 <= n_freq
  /\ n_fft self = Z.of_nat ((n_freq - 1) * 2)
  /\ (0 < hop_length self)%Z
  /\ (0 < win_length self <= n_fft self)%Z
  /\ length (_window self) = Z.to_nat (win_length self).

End Configurations.

(* ================================================================== *)
(** * What the claims observe of a feature tensor *)
(* ================================================================== *)

Section Observations.

Context {A : Type} {SO : ScalarOps A} {TO : TransformOps A}.

(** From the words of the spec: the [k]-th derivative is the delta operator
    applied [k] times, each time to the derivative before it. *)
Fixpoint nth_delta (k : nat) (raw : Tensor A) : res (Tensor A) :=
  match k with
  | 0 => ret raw
  | S k' => (d <- nth_delta k' raw ;; compute_deltas d)%res
  end.

(** The derivatives the loop of [select_feat] appends after [x]. *)
Fixpoint delta_chain (n : nat) (x : Tensor A) : res (list (Tensor A)) :=
  match n with
  | 0 => ret []
  | S n' =>
      (d <- compute_deltas x ;;
       ds <- delta_chain n' d ;;
       ret (d :: ds))%res
  end.

(** The block of [len] features from feature [start] on, as
    [t.narrow(-2, start, len)] reads it. *)
Definition narrow_feat (start len : nat) (t : Tensor A) : res (Tensor A) :=
  match split_end 2 (shape t) with
  | Some (pre, [D; T]) =>
      if start + len <=? D
      then ret (mkTensor (pre ++ [len; T])
                  (flat_map (fun b => firstn (len * T)
                                        (skipn (start * T) (row (D * T) (data t) b)))
                            (seq 0 (numel pre))))
      else raise RuntimeError
  | _ => raise IndexError
  end.

(** From the words of the spec: one feature channel of one batch item,
    normalised over time, [(x - mean_t(x)) / (std_t(x) + 1e-10)]. *)
Definition cmvn_row (r : list A) : list A :=
  map (fun x => f_div (f_sub x (mean_row r)) (f_add (std_row r) (f_lit eps_lit))) r.

(** The rows (one per batch item and feature channel) of a tensor whose
    last dimension is time. *)
Definition time_rows (t : Tensor A) : list (list A) :=
  match split_end 1 (shape t) with
  | Some (pre, [T]) => rows (numel pre) T (data t)
  | _ => []
  end.

End Observations.

(* ================================================================== *)
(** * Requests and the filter-bank attributes *)
(* ================================================================== *)

Section Requests.

Context {A : Type} {SO : ScalarOps A} {TO : TransformOps A}.

(** Modelled from the spec: what the attribute [_melscale], which the source
    reads and never assigns, has to do with sizes: a magnitude spectrogram
    of sizes [pre ++ [F; T]] becomes a mel spectrogram [pre ++ [n_mels; T]]. *)
Definition melscale_contract (self : OnlinePreprocessor A) (n_mels : nat) : Prop :=
  exists f, _melscale self = Some f
    /\ forall x pre F T, shape x = pre ++ [F; T] -> wf x ->
         exists y, f x = ret y /\ shape y = pre ++ [n_mels; T] /\ wf y.

(** Modelled from the spec: the attribute [_mfcc_trans], also never
    assigned, takes the waveform [pre ++ [C; T]] to [n_mfcc] coefficients
    per frame of an analysis of its own with the same sizes. *)
Definition mfcc_contract (self : OnlinePreprocessor A) (n_freq n_mfcc : nat) : Prop :=
  exists f, _mfcc_trans self = Some f
    /\ forall w pre C T, shape w = pre ++ [C; T] -> wf w -> n_freq - 1 < T ->
         exists y, f w = ret y
           /\ shape y = pre ++ [C; n_mfcc; T / Z.to_nat (hop_length self) + 1]
           /\ wf y.

(** The five representations a request may name. *)
Definition feature_names : list string :=
  ["complx"; "linear"; "phase"; "mel"; "mfcc"]%string.

Definition request_channel (a : FeatArgs) : Z :=
  match a_channel a with Some c => c | None => 0%Z end.

(** A request for one of the five representations and a channel of a
    waveform with [C] channels (Python's index range). *)
Definition valid_request (C : nat) (a : FeatArgs) : Prop :=
  (exists ft, a_feat_type a = Some ft /\ In ft feature_names)
  /\ (- Z.of_nat C <= request_channel a < Z.of_nat C)%Z.

(** From the words of the spec: the steps of the selector in their fixed
    order, on the chosen representation: channel, log, deltas, CMVN. *)
Definition feature_steps (t : Tensor A) (channel : Z) (log : bool) (delta : Z)
    (cmvn : bool) : res (Tensor A) :=
  (selected <- select 2 channel t ;;
   let scaled := if log then tmap log_eps selected else selected in
   derivatives <- delta_chain (Z.to_nat delta) scaled ;;
   stacked <- cat_feat (scaled :: derivatives) ;;
   if cmvn then cmvn_normalize stacked else ret stacked)%res.

Definition request_steps (t : Tensor A) (a : FeatArgs) : res (Tensor A) :=
  feature_steps t (request_channel a)
    (match a_log a with Some b => b | None => false end)
    (match a_delta a with Some d => d | None => 0%Z end)
    (match a_cmvn a with Some b => b | None => false end).

(** The representation a request names, among the five of [forward]. *)
Definition representation (v : Features A) (ft : string) : option (Tensor A) :=
  if String.eqb ft "complx" then Some (complx v)
  else if String.eqb ft "linear" then Some (linear v)
  else if String.eqb ft "phase" then Some (phase v)
  else if String.eqb ft "mel" then Some (mel v)
  else if String.eqb ft "mfcc" then Some (mfcc v)
  else None.

(** The number of features of each representation, for the sizes of the
    constructor: real and imaginary part of [n_freq] bins, [n_freq] bins,
    [n_mels] bands, [n_mfcc] coefficients. *)
Definition feature_size (n_freq n_mels n_mfcc : nat) (ft : string) : nat :=
  if String.eqb ft "complx" then n_freq * 2
  else if String.eqb ft "linear" then n_freq
  else if String.eqb ft "phase" then n_freq
  else if String.eqb ft "mel" then n_mels
  else if String.eqb ft "mfcc" then n_mfcc
  else 0.

(** What [forward] returns for one request: the steps, then the transposition. *)
Definition request_output (variables : variables_t) (a : FeatArgs) : res (Tensor A) :=
  (f <- call_select_feat variables a ;; transpose_last2 f)%res.

(** The five representations of a waveform [(B, C, T)] in their sizes:
    [fr] frames, and [n_freq * 2], [n_freq], [n_freq], [n_mels] and
    [n_mfcc] features. *)
Definition features_sized (v : Features A) (B C fr n_freq n_mels n_mfcc : nat) : Prop :=
  (shape (complx v) = [B; C; n_freq * 2; fr] /\ wf (complx v))
  /\ (shape (linear v) = [B; C; n_freq; fr] /\ wf (linear v))
  /\ (shape (phase v) = [B; C; n_freq; fr] /\ wf (phase v))
  /\ (shape (mel v) = [B; C; n_mels; fr] /\ wf (mel v))
  /\ (shape (mfcc v) = [B; C; n_mfcc; fr] /\ wf (mfcc v)).

(** The transforms of lines 89-95, in the order [forward] starts them. *)
Definition all_transforms : list event := [EvStft; EvMagphase; EvMelScale; EvMfcc].

End Requests.

(* ================================================================== *)
(** * Concrete inputs *)
(* ================================================================== *)

(** The configuration of the signature's defaults ([n_freq] 257, hop 256,
    window 512, 40 mel bands, 13 coefficients) and the waveform sizes of
    its [_pseudo_wav], (2, 2, 16000). *)
Definition default_instance : OnlinePreprocessor sym :=
  sym_instance 257 256 512 16000 40 13.

Definition default_wav : Tensor sym := sym_input "wav" [2; 2; 16000].

(** A small configuration ([n_freq] 3, hop 2, window 4) and a waveform of
    one batch item with two channels of eight samples. *)
Definition small_instance : OnlinePreprocessor sym := sym_instance 3 2 4 8 2 2.

Definition small_wav : Tensor sym := sym_input "x" [1; 2; 8].

(** A paired spectrogram of three bins and five frames. *)
Definition small_paired : Tensor sym := sym_input "spec" [1; 3; 5; 2].

(** A dictionary with one representation: two channels, three features,
    four frames. *)
Definition small_variables : variables_t (A:=sym) :=
  [("mel"%string, PyTensor (sym_input "mel" [1; 2; 3; 4]))].


(* ================================================================== *)
(** * Binary32 elements *)
(* ================================================================== *)

(** The tensors of [forward] hold IEEE binary32 numbers ([torch.float32]):
    24 bits of precision, exponents below 128. Sums, differences, products,
    quotients and square roots are those of the standard, rounded to
    nearest, ties to even, as [SpecFloat] computes them; the reductions of
    [mean_row] and [std_row] accumulate from left to right in binary32. The
    standard does not fix the logarithm: it is an argument. *)
Definition b32_prec : Z := 24.

Definition b32_emax : Z := 128.

(** The binary32 number nearest to an integer, and to a literal: the
    rounded quotient of numerator and denominator. It is the number nearest
    to the literal when both are binary32 numbers themselves, as for every
    literal of [select_feat] (0, the lengths, 10, the kernel of the deltas,
    and [1e-10], whose denominator is [2^10 * 5^10] with [5^10 < 2^24]). *)
Definition b32_of_Z (z : Z) : spec_float :=
  binary_normalize b32_prec b32_emax z 0 false.

Definition b32_lit (q : Q) : spec_float :=
  SFdiv b32_prec b32_emax (b32_of_Z (Qnum q)) (b32_of_Z (Zpos (Qden q))).

Definition b32_scalar (log : spec_float -> spec_float) : ScalarOps spec_float := {|
  f_lit := b32_lit;
  f_add := SFadd b32_prec b32_emax;
  f_sub := SFsub b32_prec b32_emax;
  f_mul := SFmul b32_prec b32_emax;
  f_div := SFdiv b32_prec b32_emax;
  f_sqrt := SFsqrt b32_prec b32_emax;
  f_log := log
|}.

(** The rational that a finite binary32 number is; infinities and NaN are
    none. *)
Definition b32_value (x : spec_float) : option Q :=
  match x with
  | S754_zero _ => Some 0%Q
  | S754_finite s m e =>
      let v := if (0 <=? e)%Z then inject_Z (Zpos m * 2 ^ e)
               else (Zpos m # Pos.pow 2 (Z.to_pos (- e)))%Q in
      Some (if s then Qopp v else v)
  | S754_infinity _ | S754_nan => None
  end.

Fixpoint b32_values (l : list spec_float) : option (list Q) :=
  match l with
  | [] => Some []
  | x :: l' =>
      match b32_value x, b32_values l' with
      | Some q, Some qs => Some (q :: qs)
      | _, _ => None
      end
  end.

(** The time-mean and the unbiased time-variance of rationals, as
    mathematics writes them. The time-deviation is the square root of the
    variance: it is within [tol] of 1 exactly when the variance is between
    [(1 - tol)^2] and [(1 + tol)^2]. *)
Definition Qsum (l : list Q) : Q := fold_right Qplus 0%Q l.

Definition Qmean (l : list Q) : Q := (Qsum l / inject_Z (Z.of_nat (length l)))%Q.

Definition Qvar (l : list Q) : Q :=
  (Qsum (map (fun x => (x - Qmean l) * (x - Qmean l)) l)
   / inject_Z (Z.of_nat (length l) - 1))%Q.

(** The tolerance [1e-5]. *)
Definition tol_lit : Q := 1 # 100000.

(** A dictionary with one representation of one batch item and one channel,
    whose single feature has the binary32 numbers nearest to [qs] as its
    frames. *)
Definition b32_variables (qs : list Q) : variables_t (A:=spec_float) :=
  [("linear"%string, PyTensor (mkTensor [1; 1; 1; length qs] (map b32_lit qs)))].

(** One feature over time: a plain one; a quiet one, whose values are of
    the size of the stabiliser; and one whose values are close to each
    other, far from zero. *)
Definition plain_row : list Q := [0; 1; 2]%Q.

Definition quiet_row : list Q := [0; 1 # 10000000000; 2 # 10000000000]%Q.

Definition close_row : list Q := [100; 100001 # 1000; 100002 # 1000; 100003 # 1000]%Q.

(** Four binary32 numbers: about -1.158932, -0.384340, 0.390253 and
    1.164845. *)
Definition close_normalised : list spec_float :=
  [S754_finite true 9721823 (-23); S754_finite true 12896296 (-25);
   S754_finite false 13094701 (-25); S754_finite false 9771424 (-23)].

(* ================================================================== *)
(** * Concrete inputs over reals with special values *)
(* ================================================================== *)

(** The literal [1e-10] as a real. *)
Definition eps_R : R := Q2R eps_lit.

(** A phase of minus one radian. *)
Definition negative_phase : variables_t (A:=fval) :=
  [("phase"%string, PyTensor (mkTensor [1; 1; 1; 1] [Fin (-1)]))].

(** The power spectrum of the all-zero waveform, two frames of one bin. *)
Definition zero_linear : variables_t (A:=fval) :=
  [("linear"%string, PyTensor (mkTensor [1; 1; 1; 2] [Fin 0; Fin 0]))].

(** The power spectrum of one frame of the all-zero waveform. *)
Definition zero_frame : variables_t (A:=fval) :=
  [("linear"%string, PyTensor (mkTensor [1; 1; 1; 1] [Fin 0]))].

(** A representation without features: two frames of no bin. *)
Definition no_bins : variables_t (A:=fval) :=
  [("linear"%string, PyTensor (mkTensor [1; 1; 0; 2] []))].

(** The normalised row, as mathematics writes it. *)
Definition Rcmvn (xs : list R) : list R :=
  map (fun x => (x - Rmean xs) / (Rstd xs + eps_R))%R xs.

(* ================================================================== *)
(** * The magnitude and phase entry of [istft] *)
(* ================================================================== *)

Section Polar.

Context {A : Type} {SO : ScalarOps A} {TO : TransformOps A}.

(** Line 126 on one element each of [linears] and [phases]: the pair
    [m ** (1 / linear_power) * (cos p, sin p)]; and on all of them, in order. *)
Definition polar_pair (q : Q) (m p : A) : list A :=
  [f_mul (f_pow m q) (f_cos p); f_mul (f_pow m q) (f_sin p)].

Definition polar_pairs (q : Q) (mags phases : list A) : list A :=
  flat_map (fun mp => polar_pair q (fst mp) (snd mp)) (combine mags phases).

End Polar.

(* ================================================================== *)
(** * The waveform helpers [read] and [adnoise] (lines 13-36) *)
(* ================================================================== *)

(** The float operations of the two helpers beyond [ScalarOps]: [np.abs],
    the maximum of two values as [ndarray.max] folds it, and [10.0 ** x] on
    Python floats, which raises when the power overflows. *)
Class WaveOps (A : Type) : Type := {
  f_abs : A -> A;
  f_max : A -> A -> A;
  f_pow10 : A -> res A
}.

Section Waveforms.

Context {A : Type} {SO : ScalarOps A} {WO : WaveOps A}.

(** One-dimensional arrays, as the loader returns them for one channel,
    are lists. [a.max()]: an array without elements has no maximum. *)
Definition np_max (a : list A) : res A :=
  match a with
  | [] => raise ValueError
  | x :: xs => ret (fold_left f_max xs x)
  end.

(** ** [read] (lines 13-15)

    [load] is the loader of librosa: what it returns for a path and a
    sampling rate (the samples and the rate, or an error) is an argument. *)
Definition read (load : string -> Z -> res (list A * Z)) (data : string) (sr : Z)
  : res (list A * Z) :=
  (' (data, sr) <- load data sr ;;
   peak <- np_max (map f_abs data) ;;
   ret (map (fun x => f_div x peak) data, sr))%res.

(** ** [adnoise] (lines 18-36) *)

(** [np.ceil(a / b).astype(int)] for two Python integers [a >= 0], [b >= 0]:
    the division raises on zero. (The quotient of two array lengths is exact
    in double precision.) *)
Definition ceil_div (a b : Z) : res Z :=
  if (b =? 0)%Z then raise ZeroDivisionError else ret (- (- a / b))%Z.

(** [np.tile(a, reps)]. *)
Definition np_tile (a : list A) (reps : Z) : list A :=
  concat (repeat a (Z.to_nat reps)).

(** [np.random.randint(low, high, 1)[0]]: an empty range raises; otherwise
    the result is in [low, high), chosen by what the generator draws, [u]. *)
Definition np_random_randint (u low high : Z) : res Z :=
  if (high <=? low)%Z then raise ValueError
  else ret (low + u mod (high - low))%Z.

(** [a[start:stop]] for bounds that are not negative. *)
Definition py_slice (a : list A) (start stop : Z) : list A :=
  firstn (Z.to_nat stop - Z.to_nat start) (skipn (Z.to_nat start) a).

(** [np.dot] of two one-dimensional arrays. *)
Definition np_dot (a b : list A) : res A :=
  if length a =? length b then ret (f_sum (zip_with f_mul a b))
  else raise ValueError.

(** [a + b] for one-dimensional arrays: equal lengths, or one of length 1. *)
Definition np_add (a b : list A) : res (list A) :=
  if length a =? length b then ret (zip_with f_add a b)
  else match a, b with
       | _, [y] => ret (map (fun x => f_add x y) a)
       | [x], _ => ret (map (fun y => f_add x y) b)
       | _, _ => raise ValueError
       end.

(** Lines 19-29: the noise, repeated when it is not longer than the speech,
    then cut to the length of the speech from a random start. *)
Definition crop_noise (u : Z) (speech_data noise_data : list A) : res (list A) :=
  let noise_length := Z.of_nat (length noise_data) in
  let speech_length := Z.of_nat (length speech_data) in
  (' (noise_data, noise_length) <-
     (if (noise_length - speech_length <=? 0)%Z
      then
        dup_num <- ceil_div speech_length noise_length ;;
        let noise_data := np_tile noise_data dup_num in
        ret (noise_data, Z.of_nat (length noise_data))
      else ret (noise_data, noise_length)) ;;
   start <- np_random_randint u 0 (noise_length - speech_length) ;;
   let end_ := (start + speech_length)%Z in
   ret (py_slice noise_data start end_))%res.

(** Lines 31-34: the factor on the noise, for [SNR] a Python float. *)
Definition noise_scaler (speech_data noise_data : list A) (SNR : A) : res A :=
  (SNR_exp <- f_pow10 (f_div SNR (f_lit 10%Q)) ;;
   speech_var <- np_dot speech_data speech_data ;;
   noise_var <- np_dot noise_data noise_data ;;
   ret (f_sqrt (f_div speech_var (f_mul SNR_exp noise_var))))%res.

Definition adnoise (u : Z) (speech_data noise_data : list A) (SNR : A)
  : res (list A) :=
  (noise_data <- crop_noise u speech_data noise_data ;;
   scaler <- noise_scaler speech_data noise_data SNR ;;
   np_add speech_data (map (f_mul scaler) noise_data))%res.

End Waveforms.

(** ** The helpers over reals with special values *)

Definition fval_abs (x : fval) : fval :=
  match x with
  | Fin r => Fin (Rabs r)
  | PInf | NInf => PInf
  | NaN => NaN
  end.

(** The maximum propagates NaN, as [ndarray.max] does. *)
Definition fval_max (x y : fval) : fval :=
  match x, y with
  | NaN, _ | _, NaN => NaN
  | PInf, _ | _, PInf => PInf
  | NInf, z | z, NInf => z
  | Fin a, Fin b => Fin (Rmax a b)
  end.

(** The largest double, [(2 - 2^-52) * 2^1023]. *)
Definition max_double : R := IZR ((2 ^ 53 - 1) * 2 ^ 971).

(** [10.0 ** x]: Python raises [OverflowError] when the power of a finite
    exponent is beyond the doubles (from [x] of about 308.25 on); the power
    of an infinite exponent is [inf] or [0.0]. *)
Definition fval_pow10 (x : fval) : res fval :=
  match x with
  | Fin r => if Rlt_dec max_double (Rpower 10 r) then raise OverflowError
             else ret (Fin (Rpower 10 r))
  | PInf => ret PInf
  | NInf => ret (Fin 0)
  | NaN => ret NaN
  end.

#[export] Instance fval_wave : WaveOps fval := {
  f_abs := fval_abs;
  f_max := fval_max;
  f_pow10 := fval_pow10
}.

(** The peak and the energy of a signal of reals, as mathematics writes them. *)
Definition Rpeak (xs : list R) : R := fold_right (fun x m => Rmax (Rabs x) m) 0%R xs.

Definition Renergy (xs : list R) : R := Rsum (map (fun x => (x * x)%R) xs).

(* ================================================================== *)
(** * More concrete inputs *)
(* ================================================================== *)

(** Waveforms for the small configuration: one too short for the reflect
    padding, one whose length is not a multiple of the hop, and one with a
    second leading dimension. *)
Definition short_wav : Tensor sym := sym_input "x" [1; 2; 2].

Definition odd_wav : Tensor sym := sym_input "x" [1; 2; 9].

Definition stacked_wav : Tensor sym := sym_input "x" [1; 3; 1; 8].

(** A magnitude and a phase feature of five frames and three bins. *)
Definition small_linears : Tensor sym := sym_input "lin" [1; 5; 3].

Definition small_phases : Tensor sym := sym_input "ph" [1; 5; 3].

(** A loader that returns the same samples for every path, at the rate it
    is asked for. *)
Definition constant_load (samples : list fval) : string -> Z -> res (list fval * Z) :=
  fun _ sr => ret (samples, sr).

(** A recording of two samples; two samples of speech and three of noise. *)
Definition two_samples : list R := [1; -2]%R.

Definition short_speech : list R := [1; 1]%R.

Definition short_noise : list R := [1; 0; 2]%R.

(* ================================================================== *)
(** * The constructor *)
(* ================================================================== *)

Section ConstructorFacts.

Context {A : Type} {SO : ScalarOps A} {TO : TransformOps A}.


(** C2. For every argument combination [__init__] raises [NameError] and
    returns no instance: line 43 loads [hop], which no scope binds. The same
    holds for the two other names the claim lists: with [hop] bound the body
    stops at [win], and with both bound (to a size a window can have) it
    stops at [torchaudio] on line 50. *)
Theorem init_always_raises_NameError (args : InitArgs) :
  __init__ (A:=A) args = raise (NameError "hop")
  /\ (forall h : Z,
        init_body (A:=A) (("hop"%string, VInt h) :: init_locals args)
                  (arg_feat_list args)
        = raise (NameError "win"))
  /\ (forall h w : Z, (0 <= w)%Z ->
        init_body (A:=A)
                  (("win"%string, VInt w) :: ("hop"%string, VInt h) :: init_locals args)
                  (arg_feat_list args)
        = raise (NameError "torchaudio")).
Proof.
  split; [reflexivity | split].
  - intros h. reflexivity.
  - intros h w Hw. unfold init_body. cbn.
    unfold torch_hann_window.
    destruct (Z.ltb_spec w 0) as [Hneg | _]; [lia | reflexivity].
Qed.

End ConstructorFacts.

(* ================================================================== *)
(** * The rank check of [forward] *)
(* ================================================================== *)

Section RankCheck.

Context {A : Type} {SO : ScalarOps A} {TO : TransformOps A}.

Lemma tbind_lift_ret {X Y : Type} (x : X) (k : X -> traced Y) :
  tbind (lift (ret x)) k = k x.
Proof.
  unfold tbind, lift, ret. destruct (k x) as [tr r]. reflexivity.
Qed.

Lemma tbind_lift_raise {X Y : Type} (e : exn) (k : X -> traced Y) :
  tbind (lift (raise e)) k = ([], inl e).
Proof. reflexivity. Qed.

Lemma tbind_transform_head {X Y : Type} (ev : event) (m : res X) (k : X -> traced Y) :
  exists tr r, tbind (run_transform ev m) k = (ev :: tr, r).
Proof.
  unfold tbind, run_transform. destruct m as [e | x].
  - now exists [], (inl e).
  - destruct (k x) as [tr r]. now exists tr, r.
Qed.

Lemma tbind_assoc {X Y W : Type} (m : traced X) (k : X -> traced Y) (h : Y -> traced W) :
  tbind (tbind m k) h = tbind m (fun x => tbind (k x) h).
Proof.
  destruct m as [tr [e | x]]; [reflexivity |].
  unfold tbind at 2 3. destruct (k x) as [tr1 [e1 | y]]; cbn; [reflexivity |].
  destruct (h y) as [tr2 r2]. now rewrite app_assoc.
Qed.

Lemma compute_features_starts_stft (self : OnlinePreprocessor A) (wavs : Tensor A)
    {Y : Type} (k : Features A -> traced Y) :
  exists tr r, tbind (compute_features self wavs) k = (EvStft :: tr, r).
Proof.
  unfold compute_features. rewrite tbind_assoc. apply tbind_transform_head.
Qed.

(** C7. A waveform with fewer than three dimensions makes [forward] fail at
    the assertion of line 87 (Python's [AssertionError], the spec's
    ShapeError), before any transform is started and with no output. With
    three or more dimensions, and a request list that [_check_list] accepts,
    the check is passed: [forward] is the rest of its body, and the analysis
    transform is started. *)
Theorem forward_rank_check (self : OnlinePreprocessor A) (wavs : Tensor A)
    (fl : option (list FeatArgs)) :
  (dim wavs < 3 -> forward self (Some wavs) fl = ([], raise AssertionError))
  /\ (3 <= dim wavs -> forall l, _check_list self fl = ret l ->
        forward self (Some wavs) fl
        = (v <- compute_features self wavs ;;
           lift (select_all
                   (forward_locals wavs (complx v) (linear v) (phase v) (mel v) (mfcc v) false)
                   l))%traced
        /\ exists tr r, forward self (Some wavs) fl = (EvStft :: tr, r)).
Proof.
  split.
  - intros Hd. unfold forward.
    destruct (_check_list self fl) as [e | l] eqn:Hc.
    + unfold _check_list in Hc.
      destruct (match fl with Some _ => fl | None => feat_list self end);
        inversion Hc; reflexivity.
    + change (inr l) with (ret (X:=list FeatArgs) l).
      rewrite !tbind_lift_ret.
      destruct (Nat.leb_spec 3 (dim wavs)) as [Hge | _]; [lia | reflexivity].
  - intros Hd l Hc. unfold forward. rewrite Hc, !tbind_lift_ret.
    destruct (Nat.leb_spec 3 (dim wavs)) as [_ | Hlt]; [| lia].
    cbn [py_assert]. rewrite tbind_lift_ret. split; [reflexivity |].
    apply compute_features_starts_stft.
Qed.

End RankCheck.

(* ================================================================== *)
(** * Facts about lists read as rows *)
(* ================================================================== *)

Section ListFacts.

Context {X : Type}.

Lemma div_block (i c j : nat) : j < c -> (i * c + j) / c = i.
Proof.
  intros Hj. rewrite Nat.div_add_l by lia. rewrite Nat.div_small by lia. lia.
Qed.

Lemma mod_block (i c j : nat) : j < c -> (i * c + j) mod c = j.
Proof.
  intros Hj. rewrite Nat.add_comm, Nat.Div0.mod_add. now apply Nat.mod_small.
Qed.

Lemma block_bound (i n c j : nat) : i < n -> j < c -> i * c + j < n * c.
Proof.
  intros Hi Hj. assert (H : (i + 1) * c <= n * c) by (apply Nat.mul_le_mono_r; lia). lia.
Qed.

(** A position below [n * c] is a block number below [n] and an offset. *)
Lemma block_decompose (k n c : nat) :
  k < n * c -> k / c < n /\ k mod c < c /\ k = (k / c) * c + k mod c.
Proof.
  intros Hk. assert (c <> 0) by (intro; subst; lia).
  repeat split.
  - apply Nat.Div0.div_lt_upper_bound. lia.
  - now apply Nat.mod_upper_bound.
  - pose proof (Nat.div_mod_eq k c). lia.
Qed.

Lemma numel_app (a b : list nat) : numel (a ++ b) = numel a * numel b.
Proof.
  unfold numel. induction a as [| n a IH]; simpl.
  - now rewrite Nat.add_0_r.
  - rewrite IH. now rewrite Nat.mul_assoc.
Qed.

Lemma split_end_app (k : nat) (pre post : list nat) :
  length post = k -> split_end k (pre ++ post) = Some (pre, post).
Proof.
  intros Hk. unfold split_end. rewrite length_app.
  destruct (Nat.leb_spec k (length pre + length post)) as [_ | Hlt]; [| lia].
  replace (length pre + length post - k) with (length pre + 0) by lia.
  rewrite firstn_app_2, skipn_app, Nat.add_0_r, skipn_all.
  replace (length pre - length pre) with 0 by lia. cbn. now rewrite app_nil_r.
Qed.

Lemma nth_error_flat_map_block {Y : Type} (f : Y -> list X) (l : list Y) (c i j : nat) (y : Y) :
  (forall x, In x l -> length (f x) = c) ->
  nth_error l i = Some y -> j < c ->
  nth_error (flat_map f l) (i * c + j) = nth_error (f y) j.
Proof.
  revert i. induction l as [| x l IH]; intros i Hc Hi Hj.
  - destruct i; discriminate.
  - cbn [flat_map]. destruct i as [| i].
    + cbn in Hi. inversion Hi; subst. cbn.
      apply nth_error_app1. rewrite Hc by now left. exact Hj.
    + cbn in Hi. rewrite nth_error_app2; rewrite (Hc x) by now left.
      * replace (S i * c + j - c) with (i * c + j) by lia.
        apply IH; auto. intros x' Hx'. apply Hc. now right.
      * lia.
Qed.

Lemma nth_error_row (n : nat) (l : list X) (i j : nat) :
  j < n -> nth_error (row n l i) j = nth_error l (i * n + j).
Proof.
  intros Hj. unfold row. rewrite nth_error_firstn.
  destruct (Nat.ltb_spec j n) as [_ | Hge]; [| lia].
  apply nth_error_skipn.
Qed.

Lemma length_row (n : nat) (l : list X) (i : nat) :
  (i + 1) * n <= length l -> length (row n l i) = n.
Proof.
  intros Hl. unfold row. rewrite length_firstn, length_skipn. lia.
Qed.

Lemma length_rows (count n : nat) (l : list X) : length (rows count n l) = count.
Proof. unfold rows. now rewrite length_map, length_seq. Qed.

Lemma rows_all_length (count n : nat) (l : list X) :
  count * n <= length l -> forall r, In r (rows count n l) -> length r = n.
Proof.
  intros Hl r Hr. unfold rows in Hr. apply in_map_iff in Hr as [i [<- Hi]].
  apply in_seq in Hi. apply length_row. nia.
Qed.

Lemma nth_error_rows (count n : nat) (l : list X) (i : nat) :
  i < count -> nth_error (rows count n l) i = Some (row n l i).
Proof.
  intros Hi. unfold rows. rewrite nth_error_map, nth_error_seq.
  destruct (Nat.ltb_spec i count) as [_ | Hge]; [reflexivity | lia].
Qed.

(** ** [gather] *)

Lemma length_gather (idx : list nat) (l : list X) :
  (forall k, In k idx -> k < length l) -> length (gather idx l) = length idx.
Proof.
  intros Hin. unfold gather. rewrite (flat_map_constant_length (c:=1)).
  - lia.
  - intros k Hk. destruct (nth_error l k) eqn:E; [reflexivity |].
    apply nth_error_None in E. specialize (Hin k Hk). lia.
Qed.

Lemma nth_error_gather (g : nat -> nat) (n : nat) (l : list X) (k : nat) :
  (forall j, j < n -> g j < length l) -> k < n ->
  nth_error (gather (map g (seq 0 n)) l) k = nth_error l (g k).
Proof.
  intros Hg Hk. unfold gather.
  assert (Hlen : forall x, In x (map g (seq 0 n)) ->
            length (match nth_error l x with Some y => [y] | None => [] end) = 1).
  { intros x Hx. apply in_map_iff in Hx as [j [<- Hj]]. apply in_seq in Hj.
    destruct (nth_error l (g j)) eqn:E; [reflexivity |].
    apply nth_error_None in E. specialize (Hg j). lia. }
  replace k with (k * 1 + 0) at 1 by lia.
  rewrite (nth_error_flat_map_block _ _ 1 k 0 (g k) Hlen).
  - destruct (nth_error l (g k)) eqn:E; [reflexivity |].
    apply nth_error_None in E. specialize (Hg k Hk). lia.
  - rewrite nth_error_map, nth_error_seq.
    destruct (Nat.ltb_spec k n) as [_ | Hge]; [reflexivity | lia].
  - lia.
Qed.

Lemma length_gather_seq (g : nat -> nat) (n : nat) (l : list X) :
  (forall j, j < n -> g j < length l) ->
  length (gather (map g (seq 0 n)) l) = n.
Proof.
  intros Hg. rewrite length_gather.
  - now rewrite length_map, length_seq.
  - intros k Hk. apply in_map_iff in Hk as [j [<- Hj]]. apply in_seq in Hj.
    apply Hg. lia.
Qed.

Lemma in_gather (idx : list nat) (l : list X) (x : X) :
  In x (gather idx l) -> In x l.
Proof.
  unfold gather. intros Hx. apply in_flat_map in Hx as [k [_ Hk]].
  destruct (nth_error l k) eqn:E; [| contradiction].
  destruct Hk as [<- | []]. eapply nth_error_In; eauto.
Qed.

(** Two lists of one length that agree below it are equal. *)
Lemma list_eq_by_nth (l1 l2 : list X) :
  length l1 = length l2 ->
  (forall k, k < length l1 -> nth_error l1 k = nth_error l2 k) ->
  l1 = l2.
Proof.
  intros Hlen Hnth. apply nth_error_ext. intros k.
  destruct (Nat.lt_ge_cases k (length l1)) as [Hk | Hk]; [now apply Hnth |].
  transitivity (@None X); [| symmetry]; apply nth_error_None; lia.
Qed.

End ListFacts.

Lemma numel_cons (n : nat) (sh : list nat) : numel (n :: sh) = n * numel sh.
Proof. reflexivity. Qed.

Lemma numel_nil : numel [] = 1.
Proof. reflexivity. Qed.

Ltac numel_norm :=
  repeat (rewrite numel_app || rewrite numel_cons || rewrite numel_nil).

Ltac numel_norm_in H :=
  repeat (rewrite numel_app in H || rewrite numel_cons in H || rewrite numel_nil in H).

(* ================================================================== *)
(** * Reshaping *)
(* ================================================================== *)

Section ReshapeFacts.

Context {A : Type}.

Lemma sizes_no_hole (sh : list nat) :
  filter (fun z => (z =? -1)%Z) (sizes sh) = [].
Proof.
  induction sh as [| n sh IH]; [reflexivity |]. cbn.
  destruct (Z.eqb_spec (Z.of_nat n) (-1)) as [E | _]; [lia | exact IH].
Qed.

Lemma sizes_all_known (sh : list nat) : known_sizes (sizes sh) = sh.
Proof.
  unfold known_sizes. induction sh as [| n sh IH]; [reflexivity |]. cbn.
  destruct (Z.eqb_spec (Z.of_nat n) (-1)) as [E | _]; [lia |]. cbn.
  rewrite Nat2Z.id. f_equal. exact IH.
Qed.

Lemma sizes_not_below (sh : list nat) :
  existsb (fun z => (z <? -1)%Z) (sizes sh) = false.
Proof.
  induction sh as [| n sh IH]; [reflexivity |]. cbn.
  destruct (Z.ltb_spec (Z.of_nat n) (-1)) as [E | _]; [lia | exact IH].
Qed.

Lemma sizes_fill (sh : list nat) (x : nat) :
  map (fun z => if (z =? -1)%Z then x else Z.to_nat z) (sizes sh) = sh.
Proof.
  induction sh as [| n sh IH]; [reflexivity |]. cbn.
  destruct (Z.eqb_spec (Z.of_nat n) (-1)) as [E | _]; [lia |].
  rewrite Nat2Z.id. f_equal. exact IH.
Qed.

Lemma sizes_to_nat (sh : list nat) : map Z.to_nat (sizes sh) = sh.
Proof.
  induction sh as [| n sh IH]; [reflexivity |]. cbn. rewrite Nat2Z.id. now f_equal.
Qed.

Lemma sizes_app (a b : list nat) : sizes (a ++ b) = sizes a ++ sizes b.
Proof. apply map_app. Qed.

(** A request without [-1] succeeds exactly on the same number of elements. *)
Lemma reshape_exact (t : Tensor A) (sh : list nat) :
  numel sh = numel (shape t) ->
  reshape t (sizes sh) = ret (mkTensor sh (data t)).
Proof.
  intros Hn. unfold reshape.
  rewrite sizes_not_below, sizes_no_hole, sizes_all_known. cbn [length].
  rewrite Hn, Nat.eqb_refl, sizes_to_nat. reflexivity.
Qed.

(** [reshape] with one [-1] between known sizes: the missing size is the quotient. *)
Lemma reshape_infer (t : Tensor A) (front back : list nat) (m : nat) :
  numel (shape t) = numel front * m * numel back ->
  numel front * numel back <> 0 ->
  reshape t (sizes front ++ (-1)%Z :: sizes back)
  = ret (mkTensor (front ++ m :: back) (data t)).
Proof.
  intros Hn Hk. unfold reshape.
  rewrite existsb_app. cbn [existsb]. rewrite !sizes_not_below. cbn [orb].
  replace ((-1 <? -1)%Z) with false by reflexivity. cbn [orb].
  rewrite filter_app. cbn [filter]. rewrite Z.eqb_refl, !sizes_no_hole. cbn [app length].
  assert (Hknown : known_sizes (sizes front ++ (-1)%Z :: sizes back) = front ++ back).
  { unfold known_sizes. rewrite filter_app. cbn [filter]. rewrite Z.eqb_refl. cbn [negb].
    rewrite map_app. fold (known_sizes (sizes front)). fold (known_sizes (sizes back)).
    now rewrite !sizes_all_known. }
  rewrite Hknown, numel_app.
  assert (Hq : numel (shape t) = m * (numel front * numel back)) by lia.
  destruct (Nat.eqb_spec (numel front * numel back) 0) as [E | _]; [contradiction |].
  cbn [orb]. rewrite Hq, Nat.Div0.mod_mul. cbn [Nat.eqb negb].
  rewrite Nat.div_mul by exact Hk.
  rewrite map_app. cbn [map]. rewrite Z.eqb_refl, !sizes_fill. reflexivity.
Qed.

End ReshapeFacts.

(* ================================================================== *)
(** * The synthesis transform takes both layouts *)
(* ================================================================== *)

Section InterleavedForm.

Context {A : Type} {SO : ScalarOps A} {TO : TransformOps A}.

Lemma length_interleave_block (F T : nat) (block : list A) :
  length block = F * T * 2 -> length (interleave_block F T block) = T * (F * 2).
Proof.
  intros Hb. unfold interleave_block.
  rewrite (flat_map_constant_length (c := F * 2)); [now rewrite length_seq |].
  intros t Ht. apply in_seq in Ht.
  rewrite (flat_map_constant_length (c := 2)); [now rewrite length_seq |].
  intros f Hf. apply in_seq in Hf.
  rewrite length_firstn, length_skipn. nia.
Qed.

Lemma nth_error_interleave_block (F T : nat) (block : list A) (t f c : nat) :
  length block = F * T * 2 -> t < T -> f < F -> c < 2 ->
  nth_error (interleave_block F T block) (t * (F * 2) + (f * 2 + c))
  = nth_error block ((f * T + t) * 2 + c).
Proof.
  intros Hb Ht Hf Hc. unfold interleave_block.
  rewrite (nth_error_flat_map_block _ _ (F * 2) t (f * 2 + c) t).
  - rewrite (nth_error_flat_map_block _ _ 2 f c f).
    + rewrite nth_error_firstn.
      destruct (Nat.ltb_spec c 2) as [_ | Hge]; [| lia].
      apply nth_error_skipn.
    + intros f' Hf'. apply in_seq in Hf'.
      rewrite length_firstn, length_skipn. nia.
    + rewrite nth_error_seq. destruct (Nat.ltb_spec f F); [reflexivity | lia].
    + exact Hc.
  - intros t' Ht'. apply in_seq in Ht'.
    rewrite (flat_map_constant_length (c := 2)); [now rewrite length_seq |].
    intros f' Hf'. apply in_seq in Hf'.
    rewrite length_firstn, length_skipn. nia.
  - rewrite nth_error_seq. destruct (Nat.ltb_spec t T); [reflexivity | lia].
  - nia.
Qed.

(** The six digits of a position in a tensor of sizes [B; F; T; 2]. *)
Lemma paired_digits (B F T k : nat) :
  k < B * (F * T * 2) ->
  let c := k mod 2 in
  let t := (k / 2) mod T in
  let f := (k / 2 / T) mod F in
  let b := k / 2 / T / F in
  c < 2 /\ t < T /\ f < F /\ b < B /\ k = ((b * F + f) * T + t) * 2 + c.
Proof.
  intros Hk. cbv zeta.
  assert (HT : T <> 0) by (intro; subst; lia).
  assert (HF : F <> 0) by (intro; subst; lia).
  pose proof (Nat.div_mod_eq k 2) as E1.
  pose proof (Nat.div_mod_eq (k / 2) T) as E2.
  pose proof (Nat.div_mod_eq (k / 2 / T) F) as E3.
  pose proof (Nat.mod_upper_bound k 2 ltac:(lia)) as B1.
  pose proof (Nat.mod_upper_bound (k / 2) T HT) as B2.
  pose proof (Nat.mod_upper_bound (k / 2 / T) F HF) as B3.
  assert (B4 : k / 2 / T / F < B).
  { apply Nat.Div0.div_lt_upper_bound, Nat.Div0.div_lt_upper_bound,
      Nat.Div0.div_lt_upper_bound. nia. }
  repeat split; try assumption. nia.
Qed.

Lemma interleave_then_swap (B F T : nat) (d : list A) :
  length d = B * (F * T * 2) ->
  gather (map (swap_index T F 2) (seq 0 (B * (F * T * 2))))
         (flat_map (interleave_block F T) (rows B (F * T * 2) d))
  = d.
Proof.
  intros Hd.
  set (I := flat_map (interleave_block F T) (rows B (F * T * 2) d)).
  assert (Hrows : forall r, In r (rows B (F * T * 2) d) -> length r = F * T * 2).
  { apply rows_all_length. lia. }
  assert (Hblk : forall r, In r (rows B (F * T * 2) d) ->
                   length (interleave_block F T r) = T * (F * 2)).
  { intros r Hr. apply length_interleave_block. now apply Hrows. }
  assert (HI : length I = B * (T * (F * 2))).
  { unfold I. rewrite (flat_map_constant_length (c := T * (F * 2)) _ _ Hblk).
    now rewrite length_rows. }
  assert (Hidx : forall k, k < B * (F * T * 2) ->
            swap_index T F 2 k
            = (k / 2 / T / F) * (T * (F * 2))
              + (((k / 2) mod T) * (F * 2) + (((k / 2 / T) mod F) * 2 + k mod 2))).
  { intros k Hk. unfold swap_index. cbv zeta. ring. }
  assert (Hin : forall j, j < B * (F * T * 2) -> swap_index T F 2 j < length I).
  { intros j Hj. rewrite (Hidx j Hj), HI.
    destruct (paired_digits B F T j Hj) as (Hc & Ht & Hf & Hb & _). cbv zeta in *.
    apply block_bound; [exact Hb |]. apply block_bound; [exact Ht |].
    apply block_bound; assumption. }
  apply list_eq_by_nth.
  - rewrite length_gather_seq by exact Hin. now rewrite Hd.
  - intros k Hk. rewrite length_gather_seq in Hk by exact Hin.
    rewrite nth_error_gather by assumption.
    rewrite (Hidx k Hk).
    destruct (paired_digits B F T k Hk) as (Hc & Ht & Hf & Hb & Ek). cbv zeta in *.
    set (c := k mod 2) in *. set (t := (k / 2) mod T) in *.
    set (f := (k / 2 / T) mod F) in *. set (b := k / 2 / T / F) in *.
    unfold I.
    rewrite (nth_error_flat_map_block _ _ (T * (F * 2)) b _ (row (F * T * 2) d b) Hblk).
    + rewrite nth_error_interleave_block; try assumption.
      * rewrite nth_error_row by nia. f_equal.
        transitivity (((b * F + f) * T + t) * 2 + c); [ring | symmetry; exact Ek].
      * apply length_row. nia.
    + now apply nth_error_rows.
    + nia.
Qed.

(** C10. [istft] takes the spectrogram in either layout. For a non-empty
    paired spectrogram with [F] bins ([F] is [n_fft/2+1], at least 2 for any
    transform size the library accepts), feeding its interleaved form
    [(.., frames, F*2)] gives what feeding the paired form
    [(.., F, frames, 2)] gives: both are the library inverse of the paired
    tensor, because the interleaved input is viewed as pairs and transposed
    back first. *)
Theorem istft_interleaved_equals_paired (self : OnlinePreprocessor A)
    (paired : Tensor A) (pre : list nat) (F T : nat) (linear_power : Z) :
  shape paired = pre ++ [F; T; 2] ->
  wf paired ->
  0 < numel (shape paired) ->
  F <> 1 ->
  istft self None None linear_power (Some paired) = _istft self paired
  /\ istft self None None linear_power (Some (interleaved_of pre F T paired))
     = _istft self paired
  /\ istft self None None linear_power (Some (interleaved_of pre F T paired))
     = istft self None None linear_power (Some paired).
Proof.
  intros Hsh Hwf Hpos HF.
  assert (Hp : istft self None None linear_power (Some paired) = _istft self paired).
  { unfold istft. cbn [py_assert bind ret]. rewrite Hsh, rev_app_distr. cbn [rev app].
    cbn [Nat.eqb negb]. reflexivity. }
  assert (Hi : istft self None None linear_power (Some (interleaved_of pre F T paired))
               = _istft self paired).
  { unfold istft. cbn [py_assert bind ret interleaved_of shape data].
    rewrite rev_app_distr. cbn [rev app].
    destruct (Nat.eqb_spec (F * 2) 2) as [E | _]; [lia |]. cbn [negb].
    rewrite removelast_app by discriminate. cbn [removelast].
    rewrite Hsh, numel_app in Hpos. unfold wf in Hwf. rewrite Hsh, numel_app in Hwf.
    cbn [numel fold_right] in Hpos, Hwf.
    replace (sizes (pre ++ [T]) ++ [(-1)%Z; 2%Z])
      with (sizes (pre ++ [T]) ++ (-1)%Z :: sizes [2]) by reflexivity.
    rewrite (reshape_infer _ (pre ++ [T]) [2] F).
    - unfold transpose_mid, transpose_adjacent. cbn [bind ret].
      cbn [shape data interleaved_of].
      replace ((pre ++ [T]) ++ [F; 2]) with (pre ++ [T; F; 2])
        by (now rewrite <- app_assoc).
      rewrite (split_end_app (1 + 2) pre [T; F; 2]) by reflexivity.
      rewrite numel_app. cbn [numel fold_right].
      replace (numel pre * (T * (F * (2 * 1)))) with (numel pre * (F * T * 2)) by lia.
      replace (2 * 1) with 2 by reflexivity.
      rewrite interleave_then_swap by lia.
      unfold _istft. f_equal. destruct paired as [sh d]. cbn in *. now subst sh.
    - cbn [shape interleaved_of]. rewrite !numel_app. cbn [numel fold_right]. lia.
    - rewrite numel_app. cbn [numel fold_right]. nia.
  }
  split; [exact Hp | split; [exact Hi |]]. now rewrite Hi, Hp.
Qed.

End InterleavedForm.

(* ================================================================== *)
(** * The sizes of the analysis transform *)
(* ================================================================== *)

Section AnalysisShape.

Context {A : Type} {SO : ScalarOps A} {TO : TransformOps A}.

Lemma length_stft_row (nf hp : nat) (w x : list A) :
  length (stft_row nf hp w x)
  = (nf / 2 + 1) * (stft_frames nf hp (length x) * 2).
Proof.
  unfold stft_row.
  rewrite (flat_map_constant_length (c := stft_frames nf hp (length x) * 2));
    [now rewrite length_seq |].
  intros f _.
  rewrite (flat_map_constant_length (c := 2)); [now rewrite length_seq |].
  intros t _. now destruct (stft_bin _ _ _).
Qed.

Lemma stft_frames_even (n hp T : nat) :
  stft_frames (n * 2) hp T = T / hp + 1.
Proof.
  unfold stft_frames. rewrite Nat.div_mul by lia.
  replace (T + 2 * n - n * 2) with T by lia. lia.
Qed.

Lemma valid_config_stft (self : OnlinePreprocessor A) (n_freq T : nat) :
  valid_config self n_freq -> n_freq - 1 < T ->
  stft_valid (n_fft self) (hop_length self) (win_length self) (_window self) T = true.
Proof.
  intros (Hf & Hn & Hh & Hw & Hl) HT. unfold stft_valid.
  rewrite Hl, Nat.eqb_refl, Hn, Nat2Z.id, Nat.div_mul by lia.
  rewrite Hn in Hw.
  repeat rewrite andb_true_iff. repeat split.
  - apply Z.ltb_lt. lia.
  - apply Z.ltb_lt. lia.
  - apply Z.ltb_lt. lia.
  - apply Z.leb_le. lia.
  - apply Nat.ltb_lt. lia.
Qed.

(** The analysis of lines 89-91 on a well-formed waveform. *)
Lemma analyze_ok (self : OnlinePreprocessor A) (wavs : Tensor A)
    (pre : list nat) (C T n_freq : nat) :
  shape wavs = pre ++ [C; T] -> wf wavs ->
  valid_config self n_freq -> n_freq - 1 < T ->
  analyze self wavs
  = ret (mkTensor (pre ++ [C; n_freq; T / Z.to_nat (hop_length self) + 1; 2])
           (flat_map (stft_row (Z.to_nat (n_fft self)) (Z.to_nat (hop_length self))
                               (pad_window (Z.to_nat (n_fft self)) (_window self)))
                     (rows (numel (pre ++ [C])) T (data wavs)))).
Proof.
  intros Hsh Hwf Hcfg HT.
  pose proof (valid_config_stft self n_freq T Hcfg HT) as Hvalid.
  destruct Hcfg as (Hf & Hn & Hh & Hw & Hl).
  unfold analyze. rewrite Hsh.
  replace (pre ++ [C; T]) with ((pre ++ [C]) ++ [T]) by (now rewrite <- app_assoc).
  rewrite last_last, removelast_last.
  change [(-1)%Z; Z.of_nat T] with (sizes [] ++ (-1)%Z :: sizes [T]).
  rewrite (reshape_infer wavs [] [T] (numel (pre ++ [C]))).
  - cbn [bind ret app]. unfold _stft, stft. cbn [shape data].
    rewrite Hvalid. cbn [bind ret shape length Nat.sub skipn].
    rewrite Hn, Nat2Z.id, Nat.div_mul, stft_frames_even by lia.
    replace (n_freq - 1 + 1) with n_freq by lia.
    rewrite reshape_exact.
    + cbn [data]. rewrite <- app_assoc. reflexivity.
    + cbn [shape]. rewrite numel_app. cbn [numel fold_right]. lia.
  - rewrite Hsh. replace (pre ++ [C; T]) with ((pre ++ [C]) ++ [T])
      by (now rewrite <- app_assoc).
    rewrite numel_app. cbn [numel fold_right]. lia.
  - cbn [numel fold_right]. lia.
Qed.

Lemma analyze_wf (self : OnlinePreprocessor A) (wavs : Tensor A)
    (pre : list nat) (C T n_freq : nat) (complx : Tensor A) :
  shape wavs = pre ++ [C; T] -> wf wavs ->
  valid_config self n_freq -> n_freq - 1 < T ->
  analyze self wavs = ret complx -> wf complx.
Proof.
  intros Hsh Hwf Hcfg HT Ha.
  rewrite (analyze_ok self wavs pre C T n_freq Hsh Hwf Hcfg HT) in Ha.
  inversion Ha; subst complx; clear Ha.
  destruct Hcfg as (Hf & Hn & Hh & Hw & Hl).
  unfold wf in *. cbn [shape data].
  rewrite Hsh in Hwf.
  replace (pre ++ [C; T]) with ((pre ++ [C]) ++ [T]) in Hwf
    by (now rewrite <- app_assoc).
  numel_norm_in Hwf.
  rewrite (flat_map_constant_length
             (c := n_freq * ((T / Z.to_nat (hop_length self) + 1) * 2))).
  - rewrite length_rows.
    replace (pre ++ [C; n_freq; T / Z.to_nat (hop_length self) + 1; 2])
      with ((pre ++ [C]) ++ [n_freq; T / Z.to_nat (hop_length self) + 1; 2])
      by (now rewrite <- app_assoc).
    numel_norm. lia.
  - intros r Hr. rewrite length_stft_row.
    rewrite (rows_all_length (numel (pre ++ [C])) T (data wavs)) with (r := r);
      [| numel_norm; lia | exact Hr].
    rewrite Hn, Nat2Z.id, Nat.div_mul, stft_frames_even by lia.
    replace (n_freq - 1 + 1) with n_freq by lia. reflexivity.
Qed.

(** C3. On a waveform of sizes [pre ++ [C; T]] and a configuration the
    transform accepts (with [T] above [n_fft/2], as reflect padding needs),
    the analysis returns a spectrogram of sizes
    [pre ++ [C; n_fft/2 + 1; T / hop + 1; 2]]: one-sided bins and
    [floor(T / hop) + 1] frames. For the sizes (2, 2, 16000) with
    [n_fft = 512] and [hop = 256] these are 257 bins and 63 frames. *)
Theorem analysis_shape (self : OnlinePreprocessor A) (wavs : Tensor A)
    (pre : list nat) (C T n_freq : nat) :
  shape wavs = pre ++ [C; T] -> wf wavs ->
  valid_config self n_freq -> n_freq - 1 < T ->
  exists complx,
    analyze self wavs = ret complx
    /\ wf complx
    /\ n_freq = Z.to_nat (n_fft self) / 2 + 1
    /\ shape complx
       = pre ++ [C; Z.to_nat (n_fft self) / 2 + 1;
                 T / Z.to_nat (hop_length self) + 1; 2]
    /\ (shape wavs = [2; 2; 16000] -> n_fft self = 512%Z -> hop_length self = 256%Z ->
        shape complx = [2; 2; 257; 63; 2]).
Proof.
  intros Hsh Hwf Hcfg HT.
  pose proof (analyze_ok self wavs pre C T n_freq Hsh Hwf Hcfg HT) as Ha.
  eexists. split; [exact Ha |].
  split; [exact (analyze_wf self wavs pre C T n_freq _ Hsh Hwf Hcfg HT Ha) |].
  destruct Hcfg as (Hf & Hn & Hh & Hw & Hl).
  assert (Hbins : n_freq = Z.to_nat (n_fft self) / 2 + 1).
  { rewrite Hn, Nat2Z.id, Nat.div_mul by lia. lia. }
  split; [exact Hbins |]. cbn [shape]. split; [now rewrite <- Hbins |].
  intros Hs16 Hn512 Hh256.
  rewrite Hs16 in Hsh.
  assert (Hlen : length (pre ++ [C; T]) = 3) by (now rewrite <- Hsh).
  rewrite length_app in Hlen. cbn in Hlen.
  destruct pre as [| b [| ? ?]]; cbn in Hlen; try lia.
  cbn in Hsh. inversion Hsh; subst b C T.
  rewrite Hbins, Hn512, Hh256. cbn [app]. repeat f_equal.
Qed.

End AnalysisShape.

(* ================================================================== *)
(** * The tensor operations keep tensors well formed *)
(* ================================================================== *)

Section TensorOpFacts.

Context {A : Type}.

Lemma swap_index_bound (B X Y Z k : nat) :
  k < B * (X * (Y * Z)) -> swap_index X Y Z k < B * (X * (Y * Z)).
Proof.
  intros Hk. unfold swap_index. cbv zeta.
  assert (HZ : Z <> 0) by (intro; subst; lia).
  assert (HX : X <> 0) by (intro; subst; lia).
  assert (HY : Y <> 0) by (intro; subst; lia).
  assert (Hb : k / Z / X / Y < B).
  { do 3 apply Nat.Div0.div_lt_upper_bound. nia. }
  replace (B * (X * (Y * Z))) with (((B * X) * Y) * Z) by ring.
  apply block_bound; [| now apply Nat.mod_upper_bound].
  apply block_bound; [| now apply Nat.mod_upper_bound].
  apply block_bound; [exact Hb | now apply Nat.mod_upper_bound].
Qed.

Lemma transpose_adjacent_ok (t : Tensor A) (pre : list nat) (X Y : nat) (post : list nat) :
  shape t = pre ++ X :: Y :: post -> wf t ->
  exists t', transpose_adjacent (length post) t = ret t'
             /\ shape t' = pre ++ Y :: X :: post /\ wf t'.
Proof.
  intros Hsh Hwf. unfold transpose_adjacent. rewrite Hsh.
  rewrite (split_end_app (length post + 2) pre (X :: Y :: post)) by (cbn; lia).
  eexists. split; [reflexivity |]. split; [reflexivity |].
  unfold wf in *. cbn [shape data]. rewrite Hsh in Hwf.
  rewrite length_gather_seq.
  - numel_norm. ring.
  - intros j Hj. rewrite Hwf. revert Hj. numel_norm. apply swap_index_bound.
Qed.

Lemma transpose_last2_ok (t : Tensor A) (pre : list nat) (X Y : nat) :
  shape t = pre ++ [X; Y] -> wf t ->
  exists t', transpose_last2 t = ret t' /\ shape t' = pre ++ [Y; X] /\ wf t'.
Proof. apply (transpose_adjacent_ok t pre X Y []). Qed.

Lemma norm_index_ok (n : nat) (index : Z) :
  (- Z.of_nat n <= index < Z.of_nat n)%Z ->
  exists i, norm_index n index = ret i /\ i < n.
Proof.
  intros Hi. unfold norm_index.
  destruct (Z.leb_spec 0 index) as [Hpos | Hneg]; cbn [andb].
  - destruct (Z.ltb_spec index (Z.of_nat n)) as [_ | Hge]; [| lia].
    exists (Z.to_nat index). split; [reflexivity | lia].
  - destruct (Z.leb_spec (- Z.of_nat n) index) as [_ | Hlt]; [| lia].
    destruct (Z.ltb_spec index 0) as [_ | Hge]; [| lia]. cbn [andb].
    exists (Z.to_nat (index + Z.of_nat n)). split; [reflexivity | lia].
Qed.

Lemma norm_index_out_of_range (n : nat) (index : Z) :
  (index < - Z.of_nat n \/ Z.of_nat n <= index)%Z ->
  norm_index n index = raise IndexError.
Proof.
  intros Hi. unfold norm_index.
  destruct (Z.leb_spec 0 index) as [Hpos | Hneg]; cbn [andb].
  - destruct (Z.ltb_spec index (Z.of_nat n)) as [Hlt | _]; [lia |].
    destruct (Z.leb_spec (- Z.of_nat n) index); cbn [andb];
      [destruct (Z.ltb_spec index 0); [lia | reflexivity] | reflexivity].
  - destruct (Z.leb_spec (- Z.of_nat n) index) as [Hge | _]; [lia | reflexivity].
Qed.

Lemma select_index_bound (B n Z i k : nat) :
  i < n -> k < B * Z -> select_index n Z i k < B * (n * Z).
Proof.
  intros Hi Hk. unfold select_index.
  assert (HZ : Z <> 0) by (intro; subst; lia).
  replace (B * (n * Z)) with ((B * n) * Z) by ring.
  apply block_bound; [| now apply Nat.mod_upper_bound].
  apply block_bound; [| exact Hi].
  apply Nat.Div0.div_lt_upper_bound. lia.
Qed.

Lemma select_ok (t : Tensor A) (pre : list nat) (n : nat) (post : list nat) (index : Z) :
  shape t = pre ++ n :: post -> wf t ->
  (- Z.of_nat n <= index < Z.of_nat n)%Z ->
  exists t', select (length post) index t = ret t'
             /\ shape t' = pre ++ post /\ wf t'.
Proof.
  intros Hsh Hwf Hi. unfold select. rewrite Hsh.
  rewrite (split_end_app (length post + 1) pre (n :: post)) by (cbn; lia).
  destruct (norm_index_ok n index Hi) as [i [Hn Hlt]]. rewrite Hn. cbn [bind ret].
  eexists. split; [reflexivity |]. split; [reflexivity |].
  unfold wf in *. cbn [shape data]. rewrite Hsh in Hwf.
  rewrite length_gather_seq.
  - now numel_norm.
  - intros j Hj. rewrite Hwf. numel_norm. now apply select_index_bound.
Qed.

Lemma select_out_of_range (t : Tensor A) (pre : list nat) (n : nat) (post : list nat)
    (index : Z) :
  shape t = pre ++ n :: post ->
  (index < - Z.of_nat n \/ Z.of_nat n <= index)%Z ->
  select (length post) index t = raise IndexError.
Proof.
  intros Hsh Hi. unfold select. rewrite Hsh.
  rewrite (split_end_app (length post + 1) pre (n :: post)) by (cbn; lia).
  now rewrite (norm_index_out_of_range n index Hi).
Qed.

Lemma tmap_wf (f : A -> A) (t : Tensor A) : wf t -> wf (tmap f t).
Proof. unfold wf, tmap. cbn. now rewrite length_map. Qed.

Lemma length_pairs (n : nat) (l : list A) :
  length l = n * 2 -> length (pairs l) = n.
Proof.
  revert l. induction n as [| n IH]; intros l Hl.
  - destruct l; [reflexivity | discriminate].
  - destruct l as [| re [| im l]]; try discriminate. cbn.
    f_equal. apply IH. cbn in Hl. lia.
Qed.

End TensorOpFacts.

Section LibraryFacts.

Context {A : Type} {SO : ScalarOps A} {TO : TransformOps A}.

Lemma magphase_ok (power : Q) (c : Tensor A) (pre : list nat) :
  shape c = pre ++ [2] -> wf c ->
  exists lin ph, magphase power c = ret (lin, ph)
                 /\ shape lin = pre /\ wf lin /\ shape ph = pre /\ wf ph.
Proof.
  intros Hsh Hwf. unfold magphase. rewrite Hsh.
  rewrite (split_end_app 1 pre [2]) by reflexivity.
  do 2 eexists. split; [reflexivity |].
  unfold wf in *. cbn [shape data]. rewrite !length_map.
  rewrite Hsh in Hwf. revert Hwf. numel_norm. intros Hwf.
  rewrite (length_pairs (numel pre)) by lia. auto.
Qed.

End LibraryFacts.

(* ================================================================== *)
(** * Rows and blocks of flat data *)
(* ================================================================== *)

Section BlockFacts.

Context {X : Type}.

(** The [i]-th block of a concatenation of blocks of one length. *)
Lemma row_flat_map_block {Y : Type} (f : Y -> list X) (l : list Y) (c i : nat) (y : Y) :
  (forall x, In x l -> length (f x) = c) ->
  nth_error l i = Some y ->
  row c (flat_map f l) i = f y.
Proof.
  intros Hc Hi.
  assert (Hil : i < length l) by (apply nth_error_Some; congruence).
  assert (Hfy : length (f y) = c) by (apply Hc; eapply nth_error_In; eauto).
  assert (Hlen : length (flat_map f l) = length l * c)
    by now apply flat_map_constant_length.
  apply list_eq_by_nth.
  - rewrite length_row, Hfy; [reflexivity |]. rewrite Hlen. nia.
  - intros k Hk. rewrite length_row in Hk by (rewrite Hlen; nia).
    rewrite nth_error_row by exact Hk.
    now apply nth_error_flat_map_block.
Qed.

Lemma rows_flat_map {Y : Type} (f : Y -> list X) (l : list Y) (c : nat) :
  (forall x, In x l -> length (f x) = c) ->
  rows (length l) c (flat_map f l) = map f l.
Proof.
  intros Hc. apply list_eq_by_nth.
  - now rewrite length_rows, length_map.
  - intros k Hk. rewrite length_rows in Hk.
    rewrite nth_error_rows by exact Hk. rewrite nth_error_map.
    destruct (nth_error l k) as [y |] eqn:E.
    + cbn. f_equal. now apply row_flat_map_block.
    + apply nth_error_None in E. lia.
Qed.

(** Cutting a list into rows and joining them gives the list back. *)
Lemma flat_map_rows (B n : nat) (l : list X) :
  length l = B * n -> flat_map (row n l) (seq 0 B) = l.
Proof.
  intros Hl. destruct (Nat.eq_dec n 0) as [-> | Hn].
  - rewrite Nat.mul_0_r in Hl. apply length_zero_iff_nil in Hl. subst l.
    induction (seq 0 B) as [| i s IH]; [reflexivity |]. cbn. exact IH.
  - assert (Hrow : forall i, In i (seq 0 B) -> length (row n l i) = n).
    { intros i Hi. apply in_seq in Hi. apply length_row. nia. }
    apply list_eq_by_nth.
    + rewrite (flat_map_constant_length (c := n) _ _ Hrow), length_seq. lia.
    + intros k Hk.
      rewrite (flat_map_constant_length (c := n) _ _ Hrow), length_seq in Hk.
      destruct (block_decompose k B n Hk) as (Hq & Hr & Ek).
      rewrite Ek at 1.
      rewrite (nth_error_flat_map_block _ _ n (k / n) (k mod n) (k / n) Hrow).
      * rewrite nth_error_row by exact Hr. now rewrite <- Ek.
      * rewrite nth_error_seq. destruct (Nat.ltb_spec (k / n) B); [reflexivity | lia].
      * exact Hr.
Qed.


End BlockFacts.

(* ================================================================== *)
(** * [select_feat], step by step *)
(* ================================================================== *)

Section SelectFeatFacts.

Context {A : Type} {SO : ScalarOps A} {TO : TransformOps A}.

Lemma length_deltas_row (r : list A) : length (deltas_row r) = length r.
Proof. unfold deltas_row. now rewrite length_map, length_seq. Qed.

Lemma compute_deltas_ok (t : Tensor A) (pre : list nat) (T : nat) :
  shape t = pre ++ [T] -> wf t -> 0 < numel (shape t) ->
  exists d, compute_deltas t = ret d /\ shape d = shape t /\ wf d.
Proof.
  intros Hsh Hwf Hpos. destruct t as [sh d]. cbn [shape data] in *. subst sh.
  unfold compute_deltas. cbn [shape data].
  rewrite (split_end_app 1 pre [T]) by reflexivity.
  destruct (Nat.eqb_spec (numel (pre ++ [T])) 0) as [E | _]; [lia |].
  eexists. split; [reflexivity |]. split; [reflexivity |].
  unfold wf in *. cbn [shape data] in *.
  revert Hwf. numel_norm. intros Hwf.
  rewrite (flat_map_constant_length (c := T)).
  - rewrite length_rows. lia.
  - intros r Hr. rewrite length_deltas_row.
    apply (rows_all_length (numel pre) T d); [lia | exact Hr].
Qed.

Lemma delta_loop_chain (n : nat) (init : list (Tensor A)) (x : Tensor A) :
  delta_loop n (init ++ [x])
  = (ds <- delta_chain n x ;; ret (init ++ x :: ds))%res.
Proof.
  revert init x. induction n as [| n IH]; intros init x.
  - reflexivity.
  - cbn [delta_loop delta_chain]. rewrite rev_app_distr. cbn [rev app].
    destruct (compute_deltas x) as [e | d]; [reflexivity |]. cbn [bind].
    rewrite (IH (init ++ [x]) d).
    destruct (delta_chain n d) as [e | ds]; [reflexivity |]. cbn [bind ret].
    now rewrite <- app_assoc.
Qed.

Lemma nth_delta_succ (k : nat) (x d : Tensor A) :
  compute_deltas x = ret d -> nth_delta (S k) x = nth_delta k d.
Proof.
  intros Hd. induction k as [| k IH].
  - cbn. exact Hd.
  - change (nth_delta (S (S k)) x) with (bind (nth_delta (S k) x) compute_deltas).
    rewrite IH. reflexivity.
Qed.

Lemma delta_chain_ok (n : nat) (x : Tensor A) (pre : list nat) (T : nat) :
  shape x = pre ++ [T] -> wf x -> 0 < numel (shape x) ->
  exists ds, delta_chain n x = ret ds
    /\ length ds = n
    /\ Forall (fun d => shape d = shape x /\ wf d) ds
    /\ forall k, k < n -> exists dk,
         nth_error ds k = Some dk /\ nth_delta (S k) x = ret dk.
Proof.
  revert x. induction n as [| n IH]; intros x Hsh Hwf Hpos.
  - exists []. repeat split; [constructor | intros k Hk; lia].
  - cbn [delta_chain].
    destruct (compute_deltas_ok x pre T Hsh Hwf Hpos) as (d & Hd & Hds & Hdw).
    rewrite Hd. cbn [bind ret].
    destruct (IH d) as (ds & Hc & Hl & Hall & Hnth); [congruence | exact Hdw | congruence |].
    rewrite Hc. cbn [bind ret]. exists (d :: ds). repeat split.
    + cbn. now rewrite Hl.
    + constructor; [now split |].
      eapply Forall_impl; [| exact Hall]. cbn. intros a [Ha Hw]. split; congruence.
    + intros [| k] Hk.
      * exists d. split; [reflexivity | exact Hd].
      * destruct (Hnth k) as (dk & Hk1 & Hk2); [lia |].
        exists dk. split; [exact Hk1 |]. now rewrite (nth_delta_succ (S k) x d Hd).
Qed.

(** ** Concatenation along the feature dimension *)

Lemma cat_compatible_true (pre : list nat) (D T : nat) (t : Tensor A) :
  shape t = pre ++ [D; T] -> cat_compatible pre T t = true.
Proof.
  intros Hsh. unfold cat_compatible. rewrite Hsh.
  rewrite (split_end_app 2 pre [D; T]) by reflexivity.
  rewrite Nat.eqb_refl. now destruct (list_eq_dec Nat.eq_dec pre pre).
Qed.

Lemma feat_size_eq (pre : list nat) (D T : nat) (t : Tensor A) :
  shape t = pre ++ [D; T] -> feat_size t = D.
Proof.
  intros Hsh. unfold feat_size. rewrite Hsh.
  now rewrite (split_end_app 2 pre [D; T]) by reflexivity.
Qed.

Lemma cat_feat_ok (ts : list (Tensor A)) (pre : list nat) (D T : nat) :
  ts <> [] ->
  Forall (fun t => shape t = pre ++ [D; T] /\ wf t) ts ->
  exists out, cat_feat ts = ret out
    /\ shape out = pre ++ [length ts * D; T]
    /\ wf out
    /\ data out
       = flat_map (fun b => flat_map (fun t => row (D * T) (data t) b) ts)
                  (seq 0 (numel pre)).
Proof.
  intros Hne Hall. destruct ts as [| t0 ts']; [contradiction |].
  assert (H0 : shape t0 = pre ++ [D; T]) by (inversion Hall; tauto).
  unfold cat_feat. rewrite H0.
  rewrite (split_end_app 2 pre [D; T]) by reflexivity.
  assert (Hcompat : forallb (cat_compatible pre T) (t0 :: ts') = true).
  { apply forallb_forall. intros t Ht. rewrite Forall_forall in Hall.
    apply (cat_compatible_true pre D T). now apply Hall. }
  rewrite Hcompat.
  assert (Hsizes : fold_right Nat.add 0 (map feat_size (t0 :: ts'))
                   = length (t0 :: ts') * D).
  { clear Hcompat H0 Hne. induction Hall as [| t l [Ht _] _ IH]; [reflexivity |].
    cbn [map fold_right length]. rewrite IH, (feat_size_eq pre D T t Ht). lia. }
  assert (Hdata : forall b,
            flat_map (fun t => row (feat_size t * T) (data t) b) (t0 :: ts')
            = flat_map (fun t => row (D * T) (data t) b) (t0 :: ts')).
  { intros b. rewrite !flat_map_concat_map. f_equal. apply map_ext_in.
    intros t Ht. rewrite Forall_forall in Hall.
    now rewrite (feat_size_eq pre D T t (proj1 (Hall t Ht))). }
  eexists. split; [reflexivity |]. rewrite Hsizes. split; [reflexivity |].
  cbn [data shape]. split.
  - unfold wf. cbn [shape data].
    rewrite (flat_map_constant_length (c := length (t0 :: ts') * (D * T))).
    + rewrite length_seq. numel_norm. lia.
    + intros b Hb. apply in_seq in Hb. rewrite Hdata.
      apply flat_map_constant_length. intros t Ht.
      rewrite Forall_forall in Hall. destruct (Hall t Ht) as [Hs Hw].
      apply length_row. unfold wf in Hw. rewrite Hw, Hs. numel_norm. nia.
  - rewrite !flat_map_concat_map. f_equal. apply map_ext. exact Hdata.
Qed.

Lemma narrow_cat (ts : list (Tensor A)) (pre : list nat) (D T : nat)
    (out tk : Tensor A) (k : nat) :
  Forall (fun t => shape t = pre ++ [D; T] /\ wf t) ts ->
  shape out = pre ++ [length ts * D; T] ->
  data out = flat_map (fun b => flat_map (fun t => row (D * T) (data t) b) ts)
                      (seq 0 (numel pre)) ->
  nth_error ts k = Some tk ->
  narrow_feat (k * D) D out = ret tk.
Proof.
  intros Hall Hsh Hdata Hk.
  assert (Hkl : k < length ts) by (apply nth_error_Some; congruence).
  rewrite Forall_forall in Hall.
  destruct (Hall tk (nth_error_In _ _ Hk)) as [Hks Hkw].
  unfold narrow_feat. rewrite Hsh.
  rewrite (split_end_app 2 pre [length ts * D; T]) by reflexivity.
  destruct (Nat.leb_spec (k * D + D) (length ts * D)) as [_ | Hgt]; [| nia].
  assert (Hpiece : forall b t, In b (seq 0 (numel pre)) -> In t ts ->
            length (row (D * T) (data t) b) = D * T).
  { intros b t Hb Ht. apply in_seq in Hb. destruct (Hall t Ht) as [Hs Hw].
    apply length_row. unfold wf in Hw. rewrite Hw, Hs. numel_norm. nia. }
  assert (Hblocks : forall b, In b (seq 0 (numel pre)) ->
            firstn (D * T) (skipn (k * D * T) (row (length ts * D * T) (data out) b))
            = row (D * T) (data tk) b).
  { intros b Hb. rewrite Hdata.
    rewrite (row_flat_map_block _ _ (length ts * D * T) b b).
    - replace (k * D * T) with (k * (D * T)) by ring.
      change (firstn (D * T) (skipn (k * (D * T)) ?l)) with (row (D * T) l k).
      apply (row_flat_map_block (fun t => row (D * T) (data t) b) ts (D * T) k tk); [| exact Hk].
      intros t Ht. now apply Hpiece.
    - intros b' Hb'.
      rewrite (flat_map_constant_length (c := D * T)); [ring |].
      intros t Ht. now apply Hpiece.
    - apply in_seq in Hb. rewrite nth_error_seq.
      destruct (Nat.ltb_spec b (numel pre)); [reflexivity | lia]. }
  f_equal. destruct tk as [sk dk]. cbn [shape data] in *. subst sk. f_equal.
  rewrite flat_map_concat_map.
  rewrite (map_ext_in _ (fun b => row (D * T) dk b) _ Hblocks).
  rewrite <- flat_map_concat_map. apply flat_map_rows.
  unfold wf in Hkw. cbn [shape data] in Hkw. rewrite Hkw. numel_norm. lia.
Qed.

End SelectFeatFacts.

Section DeltaStacking.

Context {A : Type} {SO : ScalarOps A} {TO : TransformOps A}.

(** The steps of [select_feat] up to the concatenation, on a representation
    of sizes [pre ++ [C; D; T]]. *)
Lemma select_feat_stack (variables : variables_t) (ft : string) (t : Tensor A)
    (pre : list nat) (C D T : nat) (channel : Z) (log : bool) (delta : Z) :
  dict_get variables ft = ret (PyTensor t) ->
  shape t = pre ++ [C; D; T] -> wf t ->
  (- Z.of_nat C <= channel < Z.of_nat C)%Z ->
  0 < numel (pre ++ [D; T]) ->
  exists sel ds out,
    select 2 channel t = ret sel
    /\ shape sel = pre ++ [D; T] /\ wf sel
    /\ delta_chain (Z.to_nat delta) (if log then tmap log_eps sel else sel) = ret ds
    /\ length ds = Z.to_nat delta
    /\ Forall (fun d => shape d = pre ++ [D; T] /\ wf d)
              ((if log then tmap log_eps sel else sel) :: ds)
    /\ (forall k, k < Z.to_nat delta -> exists dk,
          nth_error ds k = Some dk
          /\ nth_delta (S k) (if log then tmap log_eps sel else sel) = ret dk)
    /\ cat_feat ((if log then tmap log_eps sel else sel) :: ds) = ret out
    /\ shape out = pre ++ [(Z.to_nat delta + 1) * D; T]
    /\ wf out
    /\ data out
       = flat_map (fun b => flat_map (fun x => row (D * T) (data x) b)
                                     ((if log then tmap log_eps sel else sel) :: ds))
                  (seq 0 (numel pre))
    /\ forall cmvn,
         select_feat variables ft channel log delta cmvn
         = if cmvn then cmvn_normalize out else ret out.
Proof.
  intros Hget Hsh Hwf Hch Hpos.
  destruct (select_ok t pre C [D; T] channel Hsh Hwf Hch) as (sel & Hsel & Hss & Hsw).
  cbn [length] in Hsel.
  set (raw := if log then tmap log_eps sel else sel).
  assert (Hrs : shape raw = pre ++ [D; T]) by (unfold raw; now destruct log).
  assert (Hrw : wf raw) by (unfold raw; destruct log; [now apply tmap_wf | exact Hsw]).
  assert (Hrs' : shape raw = (pre ++ [D]) ++ [T]) by (now rewrite <- app_assoc).
  destruct (delta_chain_ok (Z.to_nat delta) raw (pre ++ [D]) T Hrs' Hrw)
    as (ds & Hc & Hl & Hall & Hnth); [now rewrite Hrs |].
  assert (Hall' : Forall (fun d => shape d = pre ++ [D; T] /\ wf d) (raw :: ds)).
  { constructor; [now split |]. eapply Forall_impl; [| exact Hall].
    cbn. intros d [Hd Hw]. split; congruence. }
  destruct (cat_feat_ok (raw :: ds) pre D T ltac:(discriminate) Hall')
    as (out & Hcat & Hos & How & Hod).
  exists sel, ds, out. repeat split; try assumption.
  - rewrite Hos. cbn [length]. rewrite Hl. do 3 f_equal. lia.
  - intros cmvn. unfold select_feat. rewrite Hget. cbn [bind ret]. rewrite Hsel.
    cbn [bind ret]. fold raw.
    change [raw] with ([] ++ [raw]). rewrite delta_loop_chain, Hc.
    cbn [bind ret app]. rewrite Hcat. reflexivity.
Qed.

(** C4. A request with [delta = d] on a representation with [D] features
    gives, before CMVN, a tensor with [(d + 1) * D] features: block 0 is the
    selected (and, if asked, log-scaled) feature, and every block [k + 1] is
    the delta operator applied to block [k], the derivative produced just
    before it. With [cmvn] the same tensor is then normalised. *)
Theorem delta_stacking (variables : variables_t) (ft : string) (t : Tensor A)
    (pre : list nat) (C D T : nat) (channel : Z) (log : bool) (delta : Z) :
  dict_get variables ft = ret (PyTensor t) ->
  shape t = pre ++ [C; D; T] -> wf t ->
  (- Z.of_nat C <= channel < Z.of_nat C)%Z ->
  0 < numel (pre ++ [D; T]) ->
  exists sel out,
    select 2 channel t = ret sel
    /\ select_feat variables ft channel log delta false = ret out
    /\ select_feat variables ft channel log delta true = cmvn_normalize out
    /\ shape out = pre ++ [(Z.to_nat delta + 1) * D; T]
    /\ wf out
    /\ narrow_feat 0 D out = ret (if log then tmap log_eps sel else sel)
    /\ forall k, k < Z.to_nat delta ->
         exists dk dk',
           narrow_feat (k * D) D out = ret dk
           /\ narrow_feat ((k + 1) * D) D out = ret dk'
           /\ compute_deltas dk = ret dk'.
Proof.
  intros Hget Hsh Hwf Hch Hpos.
  destruct (select_feat_stack variables ft t pre C D T channel log delta
              Hget Hsh Hwf Hch Hpos)
    as (sel & ds & out & Hsel & Hss & Hsw & Hc & Hl & Hall & Hnth & Hcat & Hos & How
        & Hod & Hsf).
  set (raw := if log then tmap log_eps sel else sel) in *.
  assert (Hos' : shape out = pre ++ [length (raw :: ds) * D; T]).
  { rewrite Hos. cbn [length]. rewrite Hl. do 3 f_equal. lia. }
  assert (Hblock : forall k tk, nth_error (raw :: ds) k = Some tk ->
                     narrow_feat (k * D) D out = ret tk).
  { intros k tk Hk. exact (narrow_cat (raw :: ds) pre D T out tk k Hall Hos' Hod Hk). }
  exists sel, out. repeat split; try assumption.
  - exact (Hsf false).
  - exact (Hsf true).
  - exact (Hblock 0 raw eq_refl).
  - intros k Hk. destruct (Hnth k Hk) as (dk' & Hk1 & Hk2).
    assert (Hprev : exists dk, nth_error (raw :: ds) k = Some dk
                               /\ nth_delta k raw = ret dk).
    { destruct k as [| k'].
      - exists raw. now split.
      - destruct (Hnth k') as (dk & H1 & H2); [lia |]. exists dk. now split. }
    destruct Hprev as (dk & Hp1 & Hp2).
    exists dk, dk'. split; [now apply Hblock |]. split.
    + apply Hblock. replace (k + 1) with (S k) by lia. exact Hk1.
    + cbn [nth_delta] in Hk2. rewrite Hp2 in Hk2. exact Hk2.
Qed.

End DeltaStacking.

(* ================================================================== *)
(** * Normalisation over time *)
(* ================================================================== *)

Section CmvnFacts.

Context {A : Type} {SO : ScalarOps A} {TO : TransformOps A}.

Lemma shape_eqb_refl (sh : list nat) : shape_eqb sh sh = true.
Proof. unfold shape_eqb. now destruct (list_eq_dec Nat.eq_dec sh sh). Qed.

Lemma concat_zip_rows {Y : Type} (f : A -> A -> A) (h : Y -> list A) (g : Y -> A)
    (l : list Y) :
  concat (zip_rows f (map h l) (map g l))
  = flat_map (fun y => map (fun x => f x (g y)) (h y)) l.
Proof.
  induction l as [| y l IH]; [reflexivity |]. cbn. now rewrite IH.
Qed.

Lemma reduce_last_ok (f : list A -> A) (t : Tensor A) (pre : list nat) (T : nat) :
  shape t = pre ++ [T] ->
  reduce_last f t = ret (mkTensor (pre ++ [1]) (map f (rows (numel pre) T (data t)))).
Proof.
  intros Hsh. unfold reduce_last. rewrite Hsh.
  now rewrite (split_end_app 1 pre [T]) by reflexivity.
Qed.

Lemma broadcast_last_rows (f : A -> A -> A) (a b : Tensor A) (pre : list nat) (T : nat) :
  shape a = pre ++ [T] -> shape b = pre ++ [1] ->
  broadcast_last f a b
  = ret (mkTensor (shape a)
           (concat (zip_rows f (rows (numel pre) T (data a)) (data b)))).
Proof.
  intros Ha Hb. unfold broadcast_last. rewrite Ha, Hb.
  rewrite (split_end_app 1 pre [T]) by reflexivity.
  now rewrite shape_eqb_refl.
Qed.

(** Line 111 normalises every time row on its own. *)
Lemma cmvn_normalize_rows (feats : Tensor A) (pre : list nat) (T : nat) :
  shape feats = pre ++ [T] -> wf feats ->
  cmvn_normalize feats
  = ret (mkTensor (shape feats)
           (flat_map cmvn_row (rows (numel pre) T (data feats)))).
Proof.
  intros Hsh Hwf. unfold cmvn_normalize.
  rewrite (reduce_last_ok mean_row feats pre T Hsh). cbn [bind ret].
  rewrite (broadcast_last_rows f_sub feats _ pre T); [| exact Hsh | reflexivity].
  cbn [bind ret data].
  rewrite (reduce_last_ok std_row feats pre T Hsh). cbn [bind ret].
  rewrite (broadcast_last_rows f_div _ _ pre T); [| exact Hsh | reflexivity].
  cbn [shape data tmap]. f_equal. f_equal.
  set (rs := rows (numel pre) T (data feats)).
  assert (Hrs : forall r, In r rs -> length r = T).
  { apply rows_all_length. unfold wf in Hwf. rewrite Hwf, Hsh. numel_norm. lia. }
  rewrite <- (map_id rs) at 1. rewrite concat_zip_rows.
  replace (numel pre) with (length rs) by apply length_rows.
  rewrite (rows_flat_map _ rs T).
  - rewrite map_map, concat_zip_rows. rewrite !flat_map_concat_map. f_equal.
    apply map_ext. intros r. unfold cmvn_row. now rewrite map_map.
  - intros r Hr. rewrite length_map. now apply Hrs.
Qed.

Lemma length_cmvn_row (r : list A) : length (cmvn_row r) = length r.
Proof. unfold cmvn_row. apply length_map. Qed.

Lemma cmvn_normalize_ok (feats : Tensor A) (pre : list nat) (T : nat) :
  shape feats = pre ++ [T] -> wf feats ->
  exists out, cmvn_normalize feats = ret out
    /\ shape out = shape feats /\ wf out
    /\ time_rows out = map cmvn_row (time_rows feats).
Proof.
  intros Hsh Hwf. rewrite (cmvn_normalize_rows feats pre T Hsh Hwf).
  eexists. split; [reflexivity |]. split; [reflexivity |].
  assert (Hrs : forall r, In r (rows (numel pre) T (data feats)) -> length (cmvn_row r) = T).
  { intros r Hr. rewrite length_cmvn_row.
    apply (rows_all_length (numel pre) T (data feats)); [| exact Hr].
    unfold wf in Hwf. rewrite Hwf, Hsh. numel_norm. lia. }
  split.
  - unfold wf. cbn [shape data].
    rewrite (flat_map_constant_length (c := T) _ _ Hrs), length_rows, Hsh.
    numel_norm. lia.
  - unfold time_rows. cbn [shape data]. rewrite Hsh.
    rewrite (split_end_app 1 pre [T]) by reflexivity.
    rewrite <- (length_rows (numel pre) T (data feats)) at 1.
    now apply rows_flat_map.
Qed.

(** [select_feat] is the steps of the spec, in their order, on the
    representation the request names. *)
Lemma select_feat_steps (variables : variables_t) (ft : string)
    (channel : Z) (log : bool) (delta : Z) (cmvn : bool) :
  select_feat variables ft channel log delta cmvn
  = (v <- dict_get variables ft ;;
     match v with
     | PyTensor t => feature_steps t channel log delta cmvn
     | PyOther => raise (AttributeError "select")
     end)%res.
Proof.
  unfold select_feat, feature_steps.
  destruct (dict_get variables ft) as [e | [t |]]; try reflexivity.
  cbn [bind ret]. destruct (select 2 channel t) as [e | sel]; [reflexivity |].
  cbn [bind ret]. set (raw := if log then tmap log_eps sel else sel).
  change [raw] with ([] ++ [raw]). rewrite delta_loop_chain.
  destruct (delta_chain (Z.to_nat delta) raw) as [e | ds]; reflexivity.
Qed.

(** The steps succeed on a well-formed representation and a channel in
    range, and say what the result's sizes are. *)
Lemma feature_steps_ok (t : Tensor A) (pre : list nat) (C D T : nat)
    (channel : Z) (log : bool) (delta : Z) (cmvn : bool) :
  shape t = pre ++ [C; D; T] -> wf t ->
  (- Z.of_nat C <= channel < Z.of_nat C)%Z ->
  0 < numel (pre ++ [D; T]) ->
  exists f, feature_steps t channel log delta cmvn = ret f
    /\ shape f = pre ++ [(Z.to_nat delta + 1) * D; T] /\ wf f.
Proof.
  intros Hsh Hwf Hch Hpos.
  destruct (select_feat_stack [("x"%string, PyTensor t)] "x" t pre C D T channel log delta
              eq_refl Hsh Hwf Hch Hpos)
    as (sel & ds & out & Hsel & Hss & Hsw & Hc & Hl & Hall & Hnth & Hcat & Hos & How
        & Hod & Hsf).
  unfold feature_steps. rewrite Hsel. cbn [bind ret]. rewrite Hc. cbn [bind ret].
  rewrite Hcat. cbn [bind ret]. destruct cmvn.
  - assert (Hos' : shape out = (pre ++ [(Z.to_nat delta + 1) * D]) ++ [T])
      by (now rewrite <- app_assoc).
    destruct (cmvn_normalize_ok out _ T Hos' How) as (f & Hf & Hfs & Hfw & _).
    exists f. repeat split; [exact Hf | congruence | exact Hfw].
  - exists out. now repeat split.
Qed.

End CmvnFacts.

(* ================================================================== *)
(** * [forward] on a batched waveform *)
(* ================================================================== *)

Section ForwardFacts.

Context {A : Type} {SO : ScalarOps A} {TO : TransformOps A}.

Lemma tbind_transform_ret {X Y : Type} (ev : event) (x : X) (k : X -> traced Y)
    (tr : list event) (r : res Y) :
  k x = (tr, r) -> tbind (run_transform ev (ret x)) k = (ev :: tr, r).
Proof. intros Hk. unfold tbind, run_transform, ret. now rewrite Hk. Qed.

Lemma tbind_ret_lift {X Y : Type} (tr : list event) (x : X) (m : X -> res Y) :
  tbind (tr, inr x) (fun x => lift (m x)) = (tr, m x).
Proof. unfold tbind, lift. now rewrite app_nil_r. Qed.

Lemma forward_after_check (self : OnlinePreprocessor A) (wavs : Tensor A)
    (fl : list FeatArgs) :
  3 <= dim wavs ->
  forward self (Some wavs) (Some fl)
  = (v <- compute_features self wavs ;;
     lift (select_all
             (forward_locals wavs (complx v) (linear v) (phase v) (mel v) (mfcc v) false)
             fl))%traced.
Proof.
  intros Hd. unfold forward. cbn [_check_list]. rewrite !tbind_lift_ret.
  destruct (Nat.leb_spec 3 (dim wavs)) as [_ | Hlt]; [| lia].
  cbn [py_assert]. now rewrite tbind_lift_ret.
Qed.

(** The five representations of a batched waveform, their sizes, and the
    four transforms that were run for them. *)
Lemma compute_features_ok (self : OnlinePreprocessor A) (wavs : Tensor A)
    (B C T n_freq n_mels n_mfcc : nat) :
  shape wavs = [B; C; T] -> wf wavs -> 0 < B -> 0 < C ->
  valid_config self n_freq -> n_freq - 1 < T ->
  melscale_contract self n_mels -> mfcc_contract self n_freq n_mfcc ->
  exists v,
    compute_features self wavs = (all_transforms, ret v)
    /\ features_sized v B C (T / Z.to_nat (hop_length self) + 1) n_freq n_mels n_mfcc.
Proof.
  intros Hsh Hwf HB HC Hcfg HT (fmel & Hmel & Cmel) (fmfcc & Hmfcc & Cmfcc).
  set (fr := T / Z.to_nat (hop_length self) + 1).
  pose proof (analyze_ok self wavs [B] C T n_freq Hsh Hwf Hcfg HT) as Ha.
  cbn [app] in Ha. fold fr in Ha.
  pose proof (analyze_wf self wavs [B] C T n_freq _ Hsh Hwf Hcfg HT Ha) as Hcw.
  set (cx := mkTensor [B; C; n_freq; fr; 2] _) in *.
  destruct (magphase_ok 2%Q cx [B; C; n_freq; fr] eq_refl Hcw)
    as (lin & ph & Hmp & Hls & Hlw & Hps & Hpw).
  destruct (Cmel lin [B; C] n_freq fr Hls Hlw) as (ml & Hml & Hmls & Hmlw).
  destruct (Cmfcc wavs [B] C T Hsh Hwf HT) as (mf & Hmf & Hmfs & Hmfw).
  cbn [app] in Hmls, Hmfs. fold fr in Hmfs.
  destruct (transpose_last2_ok cx [B; C; n_freq] fr 2 eq_refl Hcw)
    as (ct & Hct & Hcts & Hctw).
  cbn [app] in Hcts.
  assert (Hre : reshape ct (sizes (firstn 2 (shape mf))
                            ++ [(-1)%Z; Z.of_nat (last (shape mf) 0)])
                = ret (mkTensor [B; C; n_freq * 2; fr] (data ct))).
  { rewrite Hmfs. cbn [firstn last].
    change (sizes [B; C] ++ [(-1)%Z; Z.of_nat fr])
      with (sizes [B; C] ++ (-1)%Z :: sizes [fr]).
    rewrite (reshape_infer ct [B; C] [fr] (n_freq * 2)); [reflexivity | |].
    - rewrite Hcts. numel_norm. ring.
    - numel_norm. unfold fr. nia. }
  exists (mkFeatures (mkTensor [B; C; n_freq * 2; fr] (data ct)) lin ph ml mf).
  split.
  - unfold compute_features, all_transforms. rewrite Ha.
    apply tbind_transform_ret. unfold _magphase. rewrite Hmp.
    apply tbind_transform_ret. rewrite Hmel. cbn [getattr]. rewrite tbind_lift_ret.
    rewrite Hml. apply tbind_transform_ret.
    rewrite Hmfcc. cbn [getattr]. rewrite tbind_lift_ret.
    rewrite Hmf. apply tbind_transform_ret.
    rewrite Hct. cbn [bind ret]. rewrite Hmfs at 1. rewrite Hre.
    rewrite tbind_lift_ret. reflexivity.
  - unfold features_sized. cbn [complx linear phase mel mfcc]. repeat split; try assumption.
    unfold wf in *. cbn [shape data]. rewrite Hctw, Hcts. numel_norm. ring.
Qed.


Lemma forward_locals_get (wavs : Tensor A) (v : Features A) (ft : string) (t : Tensor A) :
  representation v ft = Some t ->
  dict_get (forward_locals wavs (complx v) (linear v) (phase v) (mel v) (mfcc v) false) ft
  = ret (PyTensor t).
Proof.
  unfold representation. intros Hr.
  destruct (String.eqb_spec ft "complx") as [-> | N1];
    [inversion Hr; reflexivity |].
  destruct (String.eqb_spec ft "linear") as [-> | N2];
    [inversion Hr; reflexivity |].
  destruct (String.eqb_spec ft "phase") as [-> | N3];
    [inversion Hr; reflexivity |].
  destruct (String.eqb_spec ft "mel") as [-> | N4];
    [inversion Hr; reflexivity |].
  destruct (String.eqb_spec ft "mfcc") as [-> | N5];
    [inversion Hr; reflexivity | discriminate].
Qed.

(** A request on the dictionary of [forward] is the steps of the spec on
    the representation it names. *)
Lemma call_select_feat_steps (wavs : Tensor A) (v : Features A) (a : FeatArgs)
    (ft : string) (t : Tensor A) :
  a_feat_type a = Some ft -> representation v ft = Some t ->
  call_select_feat
    (forward_locals wavs (complx v) (linear v) (phase v) (mel v) (mfcc v) false) a
  = request_steps t a.
Proof.
  intros Hft Hr. unfold call_select_feat. rewrite Hft.
  rewrite select_feat_steps, (forward_locals_get wavs v ft t Hr). reflexivity.
Qed.

Lemma select_all_each (variables : variables_t) (fl : list FeatArgs) :
  (forall a, In a fl -> exists o, request_output variables a = ret o) ->
  exists outs, select_all variables fl = ret outs
    /\ Forall2 (fun a o => request_output variables a = ret o) fl outs.
Proof.
  unfold select_all, _transpose_list, request_output.
  induction fl as [| a fl IH]; intros Hall.
  - exists []. split; [reflexivity | constructor].
  - destruct (Hall a (or_introl eq_refl)) as [o Ho].
    destruct IH as (outs & Hs & Hf); [intros a' Ha'; apply Hall; now right |].
    cbn [map_res].
    destruct (call_select_feat variables a) as [e | f] eqn:Ecall; [discriminate |].
    cbn [bind] in Ho.
    destruct (map_res (call_select_feat variables) fl) as [e | fs]; [discriminate |].
    cbn [bind] in Hs |- *. cbn [map_res]. rewrite Ho, Hs.
    exists (o :: outs). split; [reflexivity |]. constructor; [| exact Hf].
    rewrite Ecall. exact Ho.
Qed.

Lemma select_all_single (variables : variables_t) (a : FeatArgs) (o : Tensor A) :
  request_output variables a = ret o -> select_all variables [a] = ret [o].
Proof.
  unfold request_output, select_all, _transpose_list. unfold map_res at 1.
  destruct (call_select_feat variables a) as [e | f]; [discriminate |].
  unfold bind, ret. intros Ho. unfold map_res. now rewrite Ho.
Qed.

End ForwardFacts.

Section ForwardOutputs.

Context {A : Type} {SO : ScalarOps A} {TO : TransformOps A}.



(** The representation a request names, with its sizes. *)
Lemma representation_sizes (v : Features A) (B C fr n_freq n_mels n_mfcc : nat)
    (ft : string) :
  features_sized v B C fr n_freq n_mels n_mfcc ->
  0 < n_freq -> 0 < n_mels -> 0 < n_mfcc ->
  In ft feature_names ->
  exists t D, representation v ft = Some t
              /\ shape t = [B; C; D; fr] /\ wf t /\ 0 < D.
Proof.
  intros ((Hc & Hcw) & (Hl & Hlw) & (Hp & Hpw) & (Hm & Hmw) & (Hf & Hfw))
         Hnf Hnm Hnc Hin.
  unfold feature_names in Hin. cbn in Hin.
  destruct Hin as [<- | [<- | [<- | [<- | [<- | []]]]]].
  - exists (complx v), (n_freq * 2). repeat split; auto. lia.
  - exists (linear v), n_freq. repeat split; auto.
  - exists (phase v), n_freq. repeat split; auto.
  - exists (mel v), n_mels. repeat split; auto.
  - exists (mfcc v), n_mfcc. repeat split; auto.
Qed.

(** One valid request on sized representations: the steps succeed, and
    their result is transposed. *)
Lemma request_output_ok (wavs : Tensor A) (v : Features A)
    (B C fr n_freq n_mels n_mfcc : nat) (a : FeatArgs) :
  features_sized v B C fr n_freq n_mels n_mfcc ->
  0 < B -> 0 < fr -> 0 < n_freq -> 0 < n_mels -> 0 < n_mfcc ->
  valid_request C a ->
  exists ft t f D o,
    a_feat_type a = Some ft /\ representation v ft = Some t
    /\ request_steps t a = ret f /\ transpose_last2 f = ret o
    /\ shape f = [B; D; fr] /\ shape o = [B; fr; D] /\ wf o
    /\ request_output
         (forward_locals wavs (complx v) (linear v) (phase v) (mel v) (mfcc v) false) a
       = ret o.
Proof.
  intros Hv HB Hfr Hnf Hnm Hnc [(ft & Hft & Hin) Hch].
  destruct (representation_sizes v B C fr n_freq n_mels n_mfcc ft Hv Hnf Hnm Hnc Hin)
    as (t & D & Hr & Hts & Htw & HD).
  destruct (feature_steps_ok t [B] C D fr (request_channel a)
              (match a_log a with Some b => b | None => false end)
              (match a_delta a with Some d => d | None => 0%Z end)
              (match a_cmvn a with Some b => b | None => false end)
              Hts Htw Hch)
    as (f & Hfs & Hfsh & Hfwf).
  { numel_norm. nia. }
  cbn [app] in Hfsh.
  destruct (transpose_last2_ok f [B]
              ((Z.to_nat match a_delta a with Some d => d | None => 0%Z end + 1) * D)
              fr Hfsh Hfwf) as (o & Ho & Hos & How).
  cbn [app] in Hos.
  exists ft, t, f,
    ((Z.to_nat match a_delta a with Some d => d | None => 0%Z end + 1) * D), o.
  repeat split; try eassumption.
  unfold request_output.
  rewrite (call_select_feat_steps wavs v a ft t Hft Hr).
  unfold request_steps. rewrite Hfs. exact Ho.
Qed.

(** After the transforms, [forward] is the selection on its dictionary. *)
Lemma forward_selects (self : OnlinePreprocessor A) (wavs : Tensor A)
    (v : Features A) (l : list FeatArgs) :
  3 <= dim wavs ->
  compute_features self wavs = (all_transforms, ret v) ->
  forward self (Some wavs) (Some l)
  = (all_transforms,
     select_all (forward_locals wavs (complx v) (linear v) (phase v) (mel v) (mfcc v) false)
                l).
Proof.
  intros Hdim Hv. rewrite (forward_after_check self wavs l Hdim), Hv.
  apply (tbind_ret_lift all_transforms v
           (fun v => select_all
                       (forward_locals wavs (complx v) (linear v) (phase v)
                                       (mel v) (mfcc v) false) l)).
Qed.


Lemma map_res_stops {X Y : Type} (f : X -> res Y) (good : list X) (bad : X)
    (rest : list X) (e : exn) :
  (forall a, In a good -> exists y, f a = ret y) ->
  f bad = raise e ->
  map_res f (good ++ bad :: rest) = raise e.
Proof.
  intros Hgood Hbad. induction good as [| a good IH].
  - cbn. now rewrite Hbad.
  - cbn [app map_res]. destruct (Hgood a (or_introl eq_refl)) as [y Hy].
    rewrite Hy. unfold ret. rewrite IH; [reflexivity |].
    intros a' Ha'. apply Hgood. now right.
Qed.

(** C8 (as the code has it). A request for one of the five representations
    whose channel index is outside the channels of a batched waveform makes
    [forward] raise Python's [IndexError] (the spec's ChannelRangeError),
    but at selection time, not at validation: the four transforms have all
    been run by then, and the requests listed before it have been served. *)
Theorem channel_error_after_transforms (self : OnlinePreprocessor A)
    (wavs : Tensor A) (good : list FeatArgs) (bad : FeatArgs) (rest : list FeatArgs)
    (B C T n_freq n_mels n_mfcc : nat) :
  shape wavs = [B; C; T] -> wf wavs -> 0 < B -> 0 < C ->
  valid_config self n_freq -> n_freq - 1 < T ->
  0 < n_mels -> 0 < n_mfcc ->
  melscale_contract self n_mels -> mfcc_contract self n_freq n_mfcc ->
  Forall (valid_request C) good ->
  (exists ft, a_feat_type bad = Some ft /\ In ft feature_names) ->
  (request_channel bad < - Z.of_nat C \/ Z.of_nat C <= request_channel bad)%Z ->
  forward self (Some wavs) (Some (good ++ bad :: rest))
  = (all_transforms, raise IndexError).
Proof.
  intros Hsh Hwf HB HC Hcfg HT Hnm Hnc Cmel Cmfcc Hgood (ft & Hft & Hin) Hch.
  destruct (compute_features_ok self wavs B C T n_freq n_mels n_mfcc
              Hsh Hwf HB HC Hcfg HT Cmel Cmfcc) as (v & Hv & Hsized).
  set (fr := T / Z.to_nat (hop_length self) + 1) in *.
  assert (Hnf : 0 < n_freq) by (destruct Hcfg; lia).
  assert (Hfr : 0 < fr) by (unfold fr; lia).
  assert (Hdim : 3 <= dim wavs) by (unfold dim; rewrite Hsh; cbn; lia).
  rewrite (forward_selects self wavs v _ Hdim Hv). f_equal.
  unfold select_all.
  rewrite (map_res_stops _ good bad rest IndexError); [reflexivity | |].
  - intros a Ha. rewrite Forall_forall in Hgood.
    destruct (request_output_ok wavs v B C fr n_freq n_mels n_mfcc a
                Hsized HB Hfr Hnf Hnm Hnc (Hgood a Ha))
      as (ft' & t & f & D & o & H1 & H2 & H3 & _).
    exists f. now rewrite (call_select_feat_steps wavs v a ft' t H1 H2).
  - destruct (representation_sizes v B C fr n_freq n_mels n_mfcc ft Hsized Hnf Hnm Hnc Hin)
      as (t & D & Hr & Hts & _).
    rewrite (call_select_feat_steps wavs v bad ft t Hft Hr).
    unfold request_steps, feature_steps.
    pose proof (select_out_of_range t [B] C [D; fr] _ Hts Hch) as Hsel.
    cbn [length] in Hsel. now rewrite Hsel.
Qed.

End ForwardOutputs.

(* ================================================================== *)
(** * The round trip that [test_istft] asserts *)
(* ================================================================== *)

Section RoundTripLength.

Context {A : Type} {SO : ScalarOps A} {TO : TransformOps A}.

(** The inverse of an analysis of [T] samples has [hop * floor(T / hop)]
    samples: the library is given no [length]. *)
Lemma istft_length_roundtrip (n_freq hp T : nat) :
  2 <= n_freq ->
  istft_length ((n_freq - 1) * 2) hp (T / hp + 1) = hp * (T / hp).
Proof.
  intros Hf. unfold istft_length. rewrite Nat.div_mul by lia.
  destruct (Nat.eqb_spec (n_freq - 1) 0) as [E | _]; [lia |].
  replace (T / hp + 1 - 1) with (T / hp) by lia. lia.
Qed.

(** [istft] on the interleaved spectrogram that [forward] returns. *)
Lemma istft_complx_ok (self : OnlinePreprocessor A) (x : Tensor A)
    (B fr n_freq : nat) (linear_power : Z) :
  shape x = [B; fr; n_freq * 2] -> wf x -> 0 < B -> 0 < fr ->
  valid_config self n_freq ->
  (hop_length self <= win_length self)%Z ->
  nola_ok (pad_window (Z.to_nat (n_fft self)) (_window self))
          (Z.to_nat (hop_length self)) fr = true ->
  istft_length (Z.to_nat (n_fft self)) (Z.to_nat (hop_length self)) fr <> 0 ->
  exists r, istft self None None linear_power (Some x) = ret r
    /\ shape r = [B; istft_length (Z.to_nat (n_fft self)) (Z.to_nat (hop_length self)) fr].
Proof.
  intros Hsh Hwf HB Hfr Hcfg Hhop Hnola Hlen.
  destruct Hcfg as (Hf & Hn & Hh & Hw & Hl).
  unfold istft. cbn [py_assert bind ret]. rewrite Hsh. cbn [rev app removelast].
  destruct (Nat.eqb_spec (n_freq * 2) 2) as [E | _]; [lia |]. cbn [negb].
  change (sizes [B; fr] ++ [(-1)%Z; 2%Z]) with (sizes [B; fr] ++ (-1)%Z :: sizes [2]).
  rewrite (reshape_infer x [B; fr] [2] n_freq);
    [| rewrite Hsh; numel_norm; ring | numel_norm; nia].
  cbn [bind ret app].
  destruct (transpose_adjacent_ok (mkTensor [B; fr; n_freq; 2] (data x))
              [B] fr n_freq [2] eq_refl) as (p & Hp & Hps & Hpw).
  { unfold wf in *. cbn [shape data]. rewrite Hwf, Hsh. numel_norm. ring. }
  cbn [length] in Hp. unfold transpose_mid. rewrite Hp. cbn [bind ret app] in *.
  unfold _istft, istft_lib. rewrite Hps. unfold istft_rows.
  assert (Hbins : ((n_fft self / 2 + 1 =? Z.of_nat n_freq) = true)%Z).
  { apply Z.eqb_eq. rewrite Hn, Nat2Z.inj_mul, Z.div_mul by lia. lia. }
  rewrite Hbins. cbn [py_assert bind ret].
  assert (Hhop' : ((0 <? hop_length self) && (hop_length self <=? win_length self) = true)%Z).
  { apply andb_true_iff. split; [apply Z.ltb_lt | apply Z.leb_le]; lia. }
  rewrite Hhop'. cbn [py_assert bind ret].
  assert (Hwin' : ((0 <? win_length self) && (win_length self <=? n_fft self) = true)%Z).
  { apply andb_true_iff. split; [apply Z.ltb_lt | apply Z.leb_le]; lia. }
  rewrite Hwin'. cbn [py_assert bind ret].
  rewrite Hl, Nat.eqb_refl. cbn [py_assert bind ret Nat.eqb negb orb].
  destruct (Nat.eqb_spec fr 0) as [E | _]; [lia |]. cbn [orb].
  destruct (Nat.eqb_spec
              (istft_length (Z.to_nat (n_fft self)) (Z.to_nat (hop_length self)) fr) 0)
    as [E | _]; [contradiction |].
  rewrite Hnola. cbn [py_assert bind ret].
  eexists. split; reflexivity.
Qed.

Lemma broadcast_ragged (B T L : nat) :
  T <> L -> T <> 1 -> L <> 1 -> broadcast_shapes [B; T] [B; L] = None.
Proof.
  intros H1 H2 H3. unfold broadcast_shapes. cbn [rev app broadcast_rev].
  rewrite Nat.eqb_refl.
  destruct (Nat.eqb_spec T L); [contradiction |].
  destruct (Nat.eqb_spec T 1); [contradiction |].
  destruct (Nat.eqb_spec L 1); [contradiction | reflexivity].
Qed.

(** A request with only a representation and a channel. *)
Lemma plain_request_output (wavs : Tensor A) (v : Features A)
    (B C D fr : nat) (ft : string) (ch : Z) (t : Tensor A) :
  representation v ft = Some t ->
  shape t = [B; C; D; fr] -> wf t ->
  (- Z.of_nat C <= ch < Z.of_nat C)%Z -> 0 < B * (D * fr) ->
  exists o,
    request_output
      (forward_locals wavs (complx v) (linear v) (phase v) (mel v) (mfcc v) false)
      (feat_channel ft ch) = ret o
    /\ shape o = [B; fr; D] /\ wf o.
Proof.
  intros Hr Hts Htw Hch Hpos.
  destruct (feature_steps_ok t [B] C D fr ch false 0%Z false Hts Htw Hch)
    as (f & Hfs & Hfsh & Hfwf).
  { numel_norm. lia. }
  cbn [app Z.to_nat Nat.add] in Hfsh. rewrite Nat.mul_1_l in Hfsh.
  destruct (transpose_last2_ok f [B] D fr Hfsh Hfwf) as (o & Ho & Hos & How).
  exists o. split; [| now split].
  unfold request_output.
  rewrite (call_select_feat_steps wavs v (feat_channel ft ch) ft t eq_refl Hr).
  unfold request_steps, feat_channel, request_channel. cbn [a_channel a_log a_delta a_cmvn].
  rewrite Hfs. exact Ho.
Qed.

(** C1 (what the code does). For a batched waveform whose length [T] is not
    a multiple of the hop, the self-test of the round trip cannot pass: the
    four transforms run, the three features are extracted, the inverse of
    the complex spectrogram returns [hop * floor(T / hop)] samples, fewer
    than [T], and [allclose] raises on the two sizes. The default waveform
    (2, 2, 16000) with hop 256 is such an input. *)
Theorem test_istft_ragged_length (self : OnlinePreprocessor A) (wavs : Tensor A)
    (B C T n_freq n_mels n_mfcc : nat) (epsilon : Q) :
  shape wavs = [B; C; T] -> wf wavs -> 0 < B -> 2 <= C ->
  valid_config self n_freq -> n_freq - 1 < T ->
  0 < n_mels -> 0 < n_mfcc ->
  melscale_contract self n_mels -> mfcc_contract self n_freq n_mfcc ->
  (hop_length self <= win_length self)%Z ->
  nola_ok (pad_window (Z.to_nat (n_fft self)) (_window self))
          (Z.to_nat (hop_length self)) (T / Z.to_nat (hop_length self) + 1) = true ->
  Z.to_nat (hop_length self) <= T ->
  T mod Z.to_nat (hop_length self) <> 0 ->
  (exists complxs r,
     result_of (forward self (Some wavs) (Some [feat_channel "complx" 0])) = ret [complxs]
     /\ istft self None None 2 (Some complxs) = ret r
     /\ shape r = [B; Z.to_nat (hop_length self) * (T / Z.to_nat (hop_length self))]
     /\ Z.to_nat (hop_length self) * (T / Z.to_nat (hop_length self)) < T)
  /\ test_istft self (Some wavs) epsilon = (all_transforms, raise RuntimeError).
Proof.
  intros Hsh Hwf HB HC Hcfg HT Hnm Hnc Cmel Cmfcc Hhop Hnola HhT Hmod.
  destruct (compute_features_ok self wavs B C T n_freq n_mels n_mfcc
              Hsh Hwf HB ltac:(lia) Hcfg HT Cmel Cmfcc) as (v & Hv & Hsized).
  set (hp := Z.to_nat (hop_length self)) in *.
  set (fr := T / hp + 1) in *.
  set (vars := forward_locals wavs (complx v) (linear v) (phase v) (mel v) (mfcc v) false).
  assert (Hnf : 2 <= n_freq) by (destruct Hcfg; lia).
  assert (Hhp : 0 < hp) by (unfold hp; destruct Hcfg as (_ & _ & ? & _); lia).
  assert (Hfr : 0 < fr) by (unfold fr; lia).
  assert (Hdim : 3 <= dim wavs) by (unfold dim; rewrite Hsh; cbn; lia).
  destruct Hsized as ((Hc & Hcw) & (Hl & Hlw) & (Hp & Hpw) & _).
  destruct (plain_request_output wavs v B C (n_freq * 2) fr "complx" 0 (complx v)
              eq_refl Hc Hcw ltac:(lia) ltac:(nia)) as (o1 & Ho1 & Hs1 & Hw1).
  destruct (plain_request_output wavs v B C n_freq fr "linear" 1 (linear v)
              eq_refl Hl Hlw ltac:(lia) ltac:(nia)) as (o2 & Ho2 & Hs2 & Hw2).
  destruct (plain_request_output wavs v B C n_freq fr "phase" 1 (phase v)
              eq_refl Hp Hpw ltac:(lia) ltac:(nia)) as (o3 & Ho3 & Hs3 & Hw3).
  fold vars in Ho1, Ho2, Ho3.
  assert (Hlen : istft_length (Z.to_nat (n_fft self)) hp fr = hp * (T / hp)).
  { destruct Hcfg as (_ & Hn & _). rewrite Hn, Nat2Z.id.
    now apply istft_length_roundtrip. }
  assert (Hq : 0 < T / hp) by (apply Nat.div_str_pos; lia).
  pose proof (Nat.div_mod_eq T hp) as Hdm.
  destruct (istft_complx_ok self o1 B fr n_freq 2 Hs1 Hw1 HB Hfr Hcfg Hhop Hnola)
    as (r1 & Hr1 & Hrs1).
  { fold hp. rewrite Hlen. nia. }
  fold hp in Hrs1. rewrite Hlen in Hrs1.
  split.
  - exists o1, r1. repeat split; try assumption.
    + rewrite (forward_selects self wavs v _ Hdim Hv). unfold result_of. cbn [snd].
      fold vars. now apply select_all_single.
    + lia.
  - destruct (select_all_each vars
                [feat_channel "complx" 0; feat_channel "linear" 1; feat_channel "phase" 1])
      as (outs & Hs & Hall).
    { intros a [<- | [<- | [<- | []]]]; eauto. }
    inversion Hall as [| a1 o1' l1 l1' H1 Hall1]; subst.
    inversion Hall1 as [| a2 o2' l2 l2' H2 Hall2]; subst.
    inversion Hall2 as [| a3 o3' l3 l3' H3 Hall3]; subst.
    inversion Hall3; subst.
    assert (o1' = o1) by (unfold ret in *; congruence). subst o1'.
    destruct (select_ok wavs [B] C [T] 0 Hsh Hwf ltac:(lia)) as (w1 & Hw1' & Hws1 & _).
    cbn [length app] in Hw1', Hws1.
    unfold test_istft.
    rewrite (forward_selects self wavs v _ Hdim Hv). fold vars. rewrite Hs.
    unfold tbind, lift, ret. rewrite app_nil_r. f_equal.
    unfold ret in Hw1', Hr1. rewrite Hw1'. cbn [bind]. rewrite Hr1. cbn [bind].
    unfold allclose. rewrite Hws1, Hrs1.
    rewrite broadcast_ragged; [reflexivity | | |].
    + lia.
    + lia.
    + intros E. assert (hp = 1) by nia. subst hp.
      apply Hmod. rewrite H. apply Nat.mod_1_r.
Qed.

End RoundTripLength.

(* ================================================================== *)
(** * The filter-bank transforms keep the contracts *)
(* ================================================================== *)

Section FilterBankFacts.

Context {A : Type} {SO : ScalarOps A} {TO : TransformOps A}.

Lemma length_project_frames (fb : list (list A)) (F T : nat) (block : list A) :
  length (project_frames fb F T block) = length fb * T.
Proof.
  unfold project_frames. apply flat_map_constant_length.
  intros band _. now rewrite length_map, length_seq.
Qed.

Lemma mel_project_ok (fb : list (list A)) (x : Tensor A) (pre : list nat) (F T : nat) :
  shape x = pre ++ [F; T] -> wf x ->
  exists y, mel_project fb x = ret y
            /\ shape y = pre ++ [length fb; T] /\ wf y.
Proof.
  intros Hsh Hwf. unfold mel_project. rewrite Hsh.
  rewrite (split_end_app 2 pre [F; T]) by reflexivity.
  eexists. split; [reflexivity |]. split; [reflexivity |].
  unfold wf. cbn [shape data].
  rewrite (flat_map_constant_length (c := length fb * T)).
  - rewrite length_rows. numel_norm. ring.
  - intros r _. apply length_project_frames.
Qed.

Lemma mfcc_project_ok (bare : OnlinePreprocessor A) (fb dct : list (list A))
    (w : Tensor A) (pre : list nat) (C T n_freq : nat) :
  valid_config bare n_freq ->
  shape w = pre ++ [C; T] -> wf w -> n_freq - 1 < T ->
  exists y, mfcc_project bare fb dct w = ret y
    /\ shape y = pre ++ [C; length dct; T / Z.to_nat (hop_length bare) + 1]
    /\ wf y.
Proof.
  intros Hcfg Hsh Hwf HT. unfold mfcc_project.
  pose proof (analyze_ok bare w pre C T n_freq Hsh Hwf Hcfg HT) as Ha.
  pose proof (analyze_wf bare w pre C T n_freq _ Hsh Hwf Hcfg HT Ha) as Hcw.
  rewrite Ha. cbn [bind ret].
  set (fr := T / Z.to_nat (hop_length bare) + 1) in *.
  set (cx := mkTensor _ _) in *.
  assert (Hcs : shape cx = (pre ++ [C; n_freq; fr]) ++ [2])
    by (unfold cx; cbn [shape]; now rewrite <- app_assoc).
  destruct (magphase_ok 2%Q cx _ Hcs Hcw) as (pw & ph & Hmp & Hps & Hpw & _).
  rewrite Hmp. cbn [bind ret].
  assert (Hps' : shape pw = (pre ++ [C]) ++ [n_freq; fr])
    by (rewrite Hps; now rewrite <- app_assoc).
  destruct (mel_project_ok fb pw _ n_freq fr Hps' Hpw) as (ml & Hml & Hmls & Hmlw).
  rewrite Hml. cbn [bind ret].
  destruct (mel_project_ok dct (tmap f_log ml) _ (length fb) fr Hmls (tmap_wf _ _ Hmlw))
    as (y & Hy & Hys & Hyw).
  exists y. split; [exact Hy |]. split; [| exact Hyw].
  rewrite Hys. now rewrite <- app_assoc.
Qed.

End FilterBankFacts.

(* ================================================================== *)
(** * The concrete inputs satisfy the hypotheses *)
(* ================================================================== *)

Lemma length_sym_matrix (name : string) (r c : nat) : length (sym_matrix name r c) = r.
Proof. unfold sym_matrix. now rewrite length_map, length_seq. Qed.

Lemma sym_input_wf (name : string) (sh : list nat) : wf (sym_input name sh).
Proof. unfold wf, sym_input. cbn [shape data]. now rewrite length_map, length_seq. Qed.

Lemma sym_bare_valid (n_freq hop win sr : nat) :
  2 <= n_freq -> 0 < hop -> 0 < win <= (n_freq - 1) * 2 ->
  valid_config (sym_bare n_freq hop win sr) n_freq.
Proof.
  intros Hf Hh Hw. unfold valid_config, sym_bare.
  cbn [n_fft hop_length win_length _window hann_window sym_transform].
  rewrite length_map, length_seq, Nat2Z.id. repeat split; lia.
Qed.

Lemma sym_instance_valid (n_freq hop win sr n_mels n_mfcc : nat) :
  2 <= n_freq -> 0 < hop -> 0 < win <= (n_freq - 1) * 2 ->
  valid_config (sym_instance n_freq hop win sr n_mels n_mfcc) n_freq.
Proof. apply sym_bare_valid. Qed.

Lemma sym_instance_melscale (n_freq hop win sr n_mels n_mfcc : nat) :
  melscale_contract (sym_instance n_freq hop win sr n_mels n_mfcc) n_mels.
Proof.
  unfold melscale_contract, sym_instance. cbn [_melscale].
  eexists. split; [reflexivity |]. intros x pre F T Hsh Hwf.
  destruct (mel_project_ok (sym_matrix "fb" n_mels n_freq) x pre F T Hsh Hwf)
    as (y & Hy & Hys & Hyw).
  exists y. rewrite length_sym_matrix in Hys. now repeat split.
Qed.

Lemma sym_instance_mfcc (n_freq hop win sr n_mels n_mfcc : nat) :
  2 <= n_freq -> 0 < hop -> 0 < win <= (n_freq - 1) * 2 ->
  mfcc_contract (sym_instance n_freq hop win sr n_mels n_mfcc) n_freq n_mfcc.
Proof.
  intros Hf Hh Hw. unfold mfcc_contract, sym_instance. cbn [_mfcc_trans hop_length].
  eexists. split; [reflexivity |]. intros w pre C T Hsh Hwf HT.
  destruct (mfcc_project_ok (sym_bare n_freq hop win sr)
              (sym_matrix "fb" n_mels n_freq) (sym_matrix "dct" n_mfcc n_mels)
              w pre C T n_freq (sym_bare_valid n_freq hop win sr Hf Hh Hw) Hsh Hwf HT)
    as (y & Hy & Hys & Hyw).
  exists y. rewrite length_sym_matrix in Hys. now repeat split.
Qed.

(* ================================================================== *)
(** * The theorems at concrete inputs *)
(* ================================================================== *)

(** The analysis of the default waveform sizes: 257 bins, 63 frames. *)
Lemma analysis_shape_default :
  exists complx,
    analyze default_instance default_wav = ret complx
    /\ shape complx = [2; 2; 257; 63; 2].
Proof.
  destruct (analysis_shape default_instance default_wav [2] 2 16000 257)
    as (complx & Ha & _ & _ & _ & Hs).
  - reflexivity.
  - apply sym_input_wf.
  - apply sym_instance_valid; lia.
  - apply Nat.ltb_lt. vm_compute. reflexivity.
  - exists complx. split; [exact Ha |]. apply Hs; reflexivity.
Defined.

(** Two deltas on the second channel of a three-feature representation. *)
Lemma delta_stacking_small :
  exists out,
    select_feat small_variables "mel" 1 true 2 false = ret out
    /\ shape out = [1; 9; 4].
Proof.
  destruct (delta_stacking small_variables "mel" (sym_input "mel" [1; 2; 3; 4])
              [1] 2 3 4 1 true 2)
    as (sel & out & _ & Hout & _ & Hs & _).
  - reflexivity.
  - reflexivity.
  - apply sym_input_wf.
  - lia.
  - cbn. lia.
  - exists out. split; [exact Hout | exact Hs].
Defined.



(** A third channel of a two-channel waveform, asked after a valid request. *)
Lemma channel_error_small :
  forward small_instance (Some small_wav)
    (Some ([feat_channel "mel" 0] ++ feat_channel "linear" 2 :: [feat_channel "phase" 0]))
  = (all_transforms, raise IndexError).
Proof.
  apply (channel_error_after_transforms small_instance small_wav
           [feat_channel "mel" 0] (feat_channel "linear" 2) [feat_channel "phase" 0]
           1 2 8 3 2 2).
  - reflexivity.
  - apply sym_input_wf.
  - lia.
  - lia.
  - apply sym_instance_valid; lia.
  - lia.
  - lia.
  - lia.
  - apply sym_instance_melscale.
  - apply sym_instance_mfcc; lia.
  - repeat constructor; cbn; try (eexists; split; [reflexivity | cbn; tauto]); lia.
  - eexists. split; [reflexivity | cbn; tauto].
  - right. cbn. lia.
Defined.

(** C8 as stated fails: the request names channel 2 of a waveform with two
    channels, [forward] raises, and by then all four transforms have run. *)
Lemma channel_error_is_not_eager :
  shape small_wav = [1; 2; 8]
  /\ (Z.of_nat 2 <= request_channel (feat_channel "linear" 2))%Z
  /\ forward small_instance (Some small_wav) (Some [feat_channel "linear" 2])
     = ([EvStft; EvMagphase; EvMelScale; EvMfcc], raise IndexError)
  /\ trace_of (forward small_instance (Some small_wav) (Some [feat_channel "linear" 2]))
     <> [].
Proof.
  assert (H : forward small_instance (Some small_wav) (Some [feat_channel "linear" 2])
              = ([EvStft; EvMagphase; EvMelScale; EvMfcc], raise IndexError))
    by (vm_compute; reflexivity).
  split; [reflexivity |]. split; [cbn; lia |]. split; [exact H |].
  rewrite H. discriminate.
Qed.

(** Both layouts of a small spectrogram. *)
Lemma istft_layouts_small :
  istft small_instance None None 2 (Some (interleaved_of [1] 3 5 small_paired))
  = istft small_instance None None 2 (Some small_paired).
Proof.
  destruct (istft_interleaved_equals_paired small_instance small_paired [1] 3 5 2)
    as (_ & _ & H).
  - reflexivity.
  - apply sym_input_wf.
  - cbn. lia.
  - discriminate.
  - exact H.
Defined.

(** The self-test on the default sizes: 15872 samples come back for 16000. *)
Lemma test_istft_default :
  test_istft default_instance (Some default_wav) (1 # 1000000)
  = (all_transforms, raise RuntimeError).
Proof.
  destruct (test_istft_ragged_length default_instance default_wav
              2 2 16000 257 40 13 (1 # 1000000)) as (_ & H).
  - reflexivity.
  - apply sym_input_wf.
  - lia.
  - lia.
  - apply sym_instance_valid; lia.
  - apply Nat.ltb_lt. vm_compute. reflexivity.
  - lia.
  - lia.
  - apply sym_instance_melscale.
  - apply sym_instance_mfcc; lia.
  - cbn. lia.
  - reflexivity.
  - apply Nat.leb_le. vm_compute. reflexivity.
  - vm_compute. discriminate.
  - exact H.
Defined.

(* ================================================================== *)
(** * The log step *)
(* ================================================================== *)

Section LogStep.

Context {A : Type} {SO : ScalarOps A} {TO : TransformOps A}.

Lemma select_data_in (p : nat) (index : Z) (t sel : Tensor A) :
  select p index t = ret sel -> forall x, In x (data sel) -> In x (data t).
Proof.
  unfold select. destruct (split_end (p + 1) (shape t)) as [[pre [| n post]] |];
    try discriminate.
  destruct (norm_index n index) as [e | i]; [discriminate |].
  cbn [bind ret]. intros H x Hx. inversion H; subst sel; clear H.
  cbn [data] in Hx. eapply in_gather; eauto.
Qed.

(** A request with [log] and neither deltas nor CMVN: every element of the
    selected channel goes through [log(x + 1e-10)], and nothing else. *)
Lemma select_feat_log_only (variables : variables_t) (ft : string) (t : Tensor A)
    (pre : list nat) (C D T : nat) (channel : Z) :
  dict_get variables ft = ret (PyTensor t) ->
  shape t = pre ++ [C; D; T] -> wf t ->
  (- Z.of_nat C <= channel < Z.of_nat C)%Z ->
  exists sel out,
    select 2 channel t = ret sel
    /\ select_feat variables ft channel true 0 false = ret out
    /\ shape out = pre ++ [D; T]
    /\ data out = map log_eps (data sel).
Proof.
  intros Hget Hsh Hwf Hch.
  destruct (select_ok t pre C [D; T] channel Hsh Hwf Hch) as (sel & Hsel & Hss & Hsw).
  cbn [length] in Hsel.
  assert (Hall : Forall (fun d => shape d = pre ++ [D; T] /\ wf d) [tmap log_eps sel]).
  { constructor; [| constructor]. split; [exact Hss | now apply tmap_wf]. }
  destruct (cat_feat_ok [tmap log_eps sel] pre D T ltac:(discriminate) Hall)
    as (out & Hcat & Hos & How & Hod).
  exists sel, out. split; [exact Hsel |]. split; [| split].
  - rewrite select_feat_steps, Hget. cbn [bind ret]. unfold feature_steps.
    rewrite Hsel. cbn [bind ret Z.to_nat delta_chain]. now rewrite Hcat.
  - rewrite Hos. cbn [length]. now rewrite Nat.mul_1_l.
  - rewrite Hod. cbn [flat_map].
    rewrite (flat_map_ext _ (row (D * T) (data (tmap log_eps sel))));
      [| intros b; apply app_nil_r].
    rewrite flat_map_rows; [reflexivity |].
    cbn [tmap data]. rewrite length_map. unfold wf in Hsw. rewrite Hsw, Hss.
    numel_norm. lia.
Qed.

(** A row of three elements, selected and stacked without any step. *)
Lemma single_row_feature (name : string) (a b c : A) :
  select_feat [(name, PyTensor (mkTensor [1; 1; 1; 3] [a; b; c]))] name 0 false 0 false
  = ret (mkTensor [1; 1; 3] [a; b; c]).
Proof.
  unfold select_feat. cbn [dict_get]. rewrite String.eqb_refl. reflexivity.
Qed.

(** One element through the log step. *)
Lemma single_element_log (name : string) (a : A) :
  select_feat [(name, PyTensor (mkTensor [1; 1; 1; 1] [a]))] name 0 true 0 false
  = ret (mkTensor [1; 1; 1] [log_eps a]).
Proof.
  unfold select_feat. cbn [dict_get]. rewrite String.eqb_refl. reflexivity.
Qed.

(** CMVN is the last step: it is applied to what the request gives without it. *)
Lemma select_feat_cmvn (variables : variables_t) (ft : string) (channel : Z)
    (log : bool) (delta : Z) :
  select_feat variables ft channel log delta true
  = (feats <- select_feat variables ft channel log delta false ;;
     cmvn_normalize feats)%res.
Proof.
  unfold select_feat.
  destruct (dict_get variables ft) as [e | [t |]]; try reflexivity. cbn [bind ret].
  destruct (select 2 channel t) as [e | sel]; [reflexivity |]. cbn [bind ret].
  destruct (delta_loop _ _) as [e | feats]; [reflexivity |]. cbn [bind ret].
  destruct (cat_feat feats) as [e | out]; reflexivity.
Qed.

End LogStep.

(* ================================================================== *)
(** * Reals with special values: sums, means and deviations *)
(* ================================================================== *)

Section ExactFacts.

Local Open Scope R_scope.

Lemma eps_R_value : eps_R = / 10000000000.
Proof. unfold eps_R, eps_lit, Q2R. cbn [Qnum Qden]. lra. Qed.

Lemma eps_R_pos : 0 < eps_R.
Proof. rewrite eps_R_value. lra. Qed.

Lemma lit_zero : f_lit (A:=fval) 0%Q = Fin 0.
Proof. cbn. f_equal. unfold Q2R. cbn. lra. Qed.

Lemma lit_Z (z : Z) : f_lit (A:=fval) (inject_Z z) = Fin (IZR z).
Proof. cbn. f_equal. unfold Q2R, inject_Z. cbn [Qnum Qden]. lra. Qed.

Lemma lit_nat (n : nat) : f_lit (A:=fval) (q_of_nat n) = Fin (INR n).
Proof. unfold q_of_nat. rewrite lit_Z. now rewrite INR_IZR_INZ. Qed.

Lemma lit_nat_pred (n : nat) :
  f_lit (A:=fval) (inject_Z (Z.of_nat n - 1)) = Fin (INR n - 1).
Proof. rewrite lit_Z, minus_IZR. now rewrite INR_IZR_INZ. Qed.

Lemma fval_div_fin (a b : R) : b <> 0 -> fval_div (Fin a) (Fin b) = Fin (a / b).
Proof. intros Hb. cbn. destruct (Req_dec_T b 0); [contradiction | reflexivity]. Qed.

Lemma fval_sqrt_fin (v : R) : 0 <= v -> fval_sqrt (Fin v) = Fin (sqrt v).
Proof. intros Hv. cbn. destruct (Rlt_dec v 0); [lra | reflexivity]. Qed.

Lemma fold_add_fin (xs : list R) (a : R) :
  fold_left fval_add (map Fin xs) (Fin a) = Fin (a + Rsum xs).
Proof.
  unfold Rsum. revert a.
  induction xs as [| x xs IH]; intros a; cbn [map fold_left fold_right fval_add].
  - f_equal. lra.
  - rewrite IH. f_equal. lra.
Qed.

Lemma f_sum_fin (xs : list R) : f_sum (map Fin xs) = Fin (Rsum xs).
Proof.
  unfold f_sum. rewrite lit_zero. cbn [f_add fval_scalar].
  rewrite fold_add_fin. f_equal. lra.
Qed.

Lemma INR_length_pos {X : Type} (l : list X) : (1 <= length l)%nat -> 0 < INR (length l).
Proof. intros H. apply lt_0_INR. lia. Qed.

Lemma mean_row_fin (xs : list R) :
  (1 <= length xs)%nat -> mean_row (map Fin xs) = Fin (Rmean xs).
Proof.
  intros Hn. unfold mean_row. rewrite f_sum_fin, length_map, lit_nat.
  cbn [f_div fval_scalar]. rewrite fval_div_fin; [reflexivity |].
  pose proof (INR_length_pos xs Hn). lra.
Qed.

Lemma Rsum_squares_nonneg (m : R) (xs : list R) :
  0 <= Rsum (map (fun x => (x - m) * (x - m)) xs).
Proof.
  unfold Rsum. induction xs as [| x xs IH]; cbn [map fold_right]; [lra |].
  pose proof (Rle_0_sqr (x - m)) as Hsq. unfold Rsqr in Hsq. lra.
Qed.

Lemma variance_nonneg (xs : list R) :
  (2 <= length xs)%nat ->
  0 <= Rsum (map (fun x => (x - Rmean xs) * (x - Rmean xs)) xs) / (INR (length xs) - 1).
Proof.
  intros Hn. apply Rmult_le_pos; [apply Rsum_squares_nonneg |].
  apply Rlt_le, Rinv_0_lt_compat.
  assert (2 <= INR (length xs)) by (change 2 with (INR 2); now apply le_INR). lra.
Qed.

Lemma std_row_fin (xs : list R) :
  (2 <= length xs)%nat -> std_row (map Fin xs) = Fin (Rstd xs).
Proof.
  intros Hn. unfold std_row. rewrite mean_row_fin by lia.
  rewrite map_map.
  rewrite (map_ext _ (fun x => Fin ((x - Rmean xs) * (x - Rmean xs))))
    by (intros x; reflexivity).
  rewrite <- (map_map (fun x => (x - Rmean xs) * (x - Rmean xs)) Fin).
  rewrite f_sum_fin, length_map, lit_nat_pred. cbn [f_div f_sqrt fval_scalar].
  assert (2 <= INR (length xs)) by (change 2 with (INR 2); now apply le_INR).
  rewrite fval_div_fin by lra.
  rewrite fval_sqrt_fin by now apply variance_nonneg. reflexivity.
Qed.

Lemma Rstd_nonneg (xs : list R) : 0 <= Rstd xs.
Proof. unfold Rstd. apply sqrt_pos. Qed.

(** The normalisation of line 111 on a row of finite values is the
    normalisation of the reals they stand for. *)
Lemma cmvn_row_fin (xs : list R) :
  (2 <= length xs)%nat -> cmvn_row (map Fin xs) = map Fin (Rcmvn xs).
Proof.
  intros Hn. unfold cmvn_row, Rcmvn.
  rewrite mean_row_fin by lia. rewrite std_row_fin by exact Hn.
  rewrite !map_map. apply map_ext. intros x.
  cbn [f_div f_sub f_add f_lit fval_scalar fval_add fval_sub fval_neg].
  fold eps_R. rewrite fval_div_fin; [reflexivity |].
  pose proof (Rstd_nonneg xs). pose proof eps_R_pos. lra.
Qed.

(** ** Finite values through the steps of the selector *)

Lemma finite_values (l : list fval) : all_finite l -> exists xs, l = map Fin xs.
Proof.
  induction l as [| y l IH]; intros H; [now exists [] |].
  destruct IH as [xs ->]; [intros z Hz; apply H; now right |].
  pose proof (H y (or_introl eq_refl)) as Hy. destruct y as [r | | |]; try contradiction.
  now exists (r :: xs).
Qed.

Lemma map_Fin_finite (xs : list R) : all_finite (map Fin xs).
Proof. intros y Hy. apply in_map_iff in Hy as (x & <- & _). exact I. Qed.

Lemma in_row {X : Type} (n : nat) (l : list X) (i : nat) (x : X) :
  In x (row n l i) -> In x l.
Proof.
  unfold row. intros H.
  assert (H1 : In x (skipn (i * n) l)).
  { rewrite <- (firstn_skipn n (skipn (i * n) l)). apply in_or_app. now left. }
  rewrite <- (firstn_skipn (i * n) l). apply in_or_app. now right.
Qed.

Lemma in_rows {X : Type} (count n : nat) (l r : list X) (x : X) :
  In r (rows count n l) -> In x r -> In x l.
Proof.
  unfold rows. intros Hr Hx. apply in_map_iff in Hr as (i & <- & _).
  eapply in_row; eauto.
Qed.

Lemma zip_mul_fin (xs ys : list R) :
  zip_with f_mul (map Fin xs) (map Fin ys)
  = map Fin (map (fun p => fst p * snd p) (combine xs ys)).
Proof.
  revert ys. induction xs as [| x xs IH]; intros [| y ys]; try reflexivity.
  cbn [map zip_with combine fst snd]. now rewrite IH.
Qed.

Lemma lit_ten : f_lit (A:=fval) 10%Q = Fin 10.
Proof. apply (lit_Z 10). Qed.

Lemma delta_kernel_fin :
  delta_kernel (A:=fval) = map Fin (map IZR [-2; -1; 0; 1; 2]%Z).
Proof. unfold delta_kernel. rewrite map_map. apply map_ext. intros z. apply lit_Z. Qed.

Lemma last_in {X : Type} (l : list X) (d : X) : l <> [] -> In (last l d) l.
Proof.
  induction l as [| a l IH]; intros Hne; [contradiction |].
  destruct l as [| b l']; [now left |].
  right. apply IH. discriminate.
Qed.

Lemma replicate_pad_finite (n : nat) (r : list fval) :
  all_finite r -> all_finite (replicate_pad n r).
Proof.
  intros H y Hy. unfold replicate_pad in Hy. destruct r as [| x r']; [contradiction |].
  apply in_app_or in Hy as [Hy | Hy].
  - apply repeat_spec in Hy. subst y. apply H. now left.
  - apply in_app_or in Hy as [Hy | Hy]; [now apply H |].
    apply repeat_spec in Hy. subst y. apply H. apply last_in. discriminate.
Qed.

(** The delta operator keeps finite rows finite. *)
Lemma deltas_row_finite (r : list fval) : all_finite r -> all_finite (deltas_row r).
Proof.
  intros H y Hy. unfold deltas_row in Hy. apply in_map_iff in Hy as (t & <- & _).
  set (w := firstn 5 (skipn t (replicate_pad 2 r))).
  assert (Hw : all_finite w).
  { intros z Hz. apply (replicate_pad_finite 2 r H).
    unfold w in Hz.
    assert (H1 : In z (skipn t (replicate_pad 2 r))).
    { rewrite <- (firstn_skipn 5 (skipn t (replicate_pad 2 r))). apply in_or_app. now left. }
    rewrite <- (firstn_skipn t (replicate_pad 2 r)). apply in_or_app. now right. }
  destruct (finite_values w Hw) as [ws ->].
  rewrite delta_kernel_fin, zip_mul_fin, f_sum_fin, lit_ten.
  cbn [f_div fval_scalar]. rewrite fval_div_fin by lra. exact I.
Qed.

Lemma compute_deltas_finite (x d : Tensor fval) :
  compute_deltas x = ret d -> all_finite (data x) -> all_finite (data d).
Proof.
  unfold compute_deltas.
  destruct (split_end 1 (shape x)) as [[pre [| T [| ? ?]]] |]; try discriminate.
  destruct (numel (shape x) =? 0)%nat; [discriminate |].
  intros Hd Hx. injection Hd as <-. cbn [data]. intros y Hy.
  apply in_flat_map in Hy as (r & Hr & Hy).
  apply (deltas_row_finite r); [| exact Hy].
  intros z Hz. apply Hx. eapply in_rows; eauto.
Qed.

Lemma delta_chain_finite (n : nat) (x : Tensor fval) (ds : list (Tensor fval)) :
  delta_chain n x = ret ds -> all_finite (data x) ->
  forall d, In d ds -> all_finite (data d).
Proof.
  revert x ds. induction n as [| n IH]; intros x ds Hc Hx d Hd.
  - injection Hc as <-. contradiction.
  - cbn [delta_chain] in Hc.
    destruct (compute_deltas x) as [e | d1] eqn:E1; [discriminate |]. cbn [bind] in Hc.
    destruct (delta_chain n d1) as [e | ds1] eqn:E2; [discriminate |]. cbn [bind] in Hc.
    injection Hc as <-.
    pose proof (compute_deltas_finite x d1 E1 Hx) as H1.
    destruct Hd as [<- | Hd]; [exact H1 |]. now apply (IH d1 ds1 E2 H1).
Qed.

(** Normalisation over time keeps finite rows of at least two frames finite. *)
Lemma cmvn_row_finite (r : list fval) :
  (2 <= length r)%nat -> all_finite r -> all_finite (cmvn_row r).
Proof.
  intros Hn H. destruct (finite_values r H) as [xs ->].
  rewrite length_map in Hn. rewrite cmvn_row_fin by exact Hn. apply map_Fin_finite.
Qed.

(** The deviation of a single value is [0 / 0]. *)
Lemma std_row_single (x : fval) : std_row [x] = NaN.
Proof.
  unfold std_row, mean_row, f_sum.
  cbn [length map fold_left]. rewrite lit_zero, (lit_nat 1), (lit_nat_pred 1).
  cbn [f_add f_sub f_mul f_div f_sqrt fval_scalar INR].
  destruct x as [r | | |].
  - cbn [fval_add]. rewrite fval_div_fin by lra.
    cbn [fval_sub fval_neg fval_add fval_mul fval_div].
    destruct (Req_dec_T (1 - 1) 0) as [_ | N]; [| exfalso; apply N; lra].
    destruct (Rlt_dec 0 _) as [H | _]; [exfalso; revert H; unfold Rdiv; nra |].
    destruct (Rlt_dec _ 0) as [H | _]; [exfalso; revert H; unfold Rdiv; nra |].
    reflexivity.
  - cbn [fval_add fval_div]. destruct (Rlt_dec 1 0); [lra |]. reflexivity.
  - cbn [fval_add fval_div]. destruct (Rlt_dec 1 0); [lra |]. reflexivity.
  - reflexivity.
Qed.

Lemma cmvn_row_single (x : fval) : cmvn_row [x] = [NaN].
Proof.
  unfold cmvn_row. rewrite std_row_single. cbn [map f_add f_div fval_scalar fval_add].
  f_equal. destruct (f_sub x (mean_row [x])); reflexivity.
Qed.

End ExactFacts.

(* ================================================================== *)
(** * Log stability *)
(* ================================================================== *)

Section LogClaim.

Lemma log_eps_nonneg (r : R) : (0 <= r)%R -> log_eps (Fin r) = Fin (ln (r + eps_R)).
Proof.
  intros Hr. unfold log_eps. cbn [f_log f_add f_lit fval_scalar fval_add fval_log].
  fold eps_R. pose proof eps_R_pos.
  destruct (Rlt_dec 0 (r + eps_R)); [reflexivity | lra].
Qed.

Lemma log_eps_minus_one : log_eps (Fin (-1)) = NaN.
Proof.
  unfold log_eps. cbn [f_log f_add f_lit fval_scalar fval_add fval_log].
  fold eps_R. pose proof eps_R_value as Hv.
  destruct (Rlt_dec 0 (-1 + eps_R)); [lra |].
  destruct (Rlt_dec (-1 + eps_R) 0); [reflexivity | lra].
Qed.

(** C9 (as the code has it). With [log] the selector computes
    [log(x + 1e-10)] on every value of the selected channel. When these
    values are finite and not negative, zero included, every value of the
    log step is finite, and so is every value of the feature that is
    returned: without deltas and CMVN it is the log step itself; for a
    feature that is not empty, with any number of deltas, and with CMVN
    when there are at least two frames. *)
Theorem log_finite_on_nonnegative (variables : variables_t) (ft : string)
    (t : Tensor fval) (pre : list nat) (C D T : nat) (channel : Z) :
  dict_get variables ft = ret (PyTensor t) ->
  shape t = pre ++ [C; D; T] -> wf t ->
  (- Z.of_nat C <= channel < Z.of_nat C)%Z ->
  (forall sel, select 2 channel t = ret sel ->
     forall x, In x (data sel) -> exists r, x = Fin r /\ (0 <= r)%R) ->
  exists sel out,
    select 2 channel t = ret sel
    /\ select_feat variables ft channel true 0 false = ret out
    /\ shape out = pre ++ [D; T]
    /\ data out = map log_eps (data sel)
    /\ (forall y, In y (data out) ->
          is_finite y /\ exists r, (0 <= r)%R /\ y = Fin (ln (r + eps_R)))
    /\ (0 < numel (pre ++ [D; T]) ->
        forall (delta : Z) (cmvn : bool), (cmvn = true -> 2 <= T) ->
        exists f,
          select_feat variables ft channel true delta cmvn = ret f
          /\ shape f = pre ++ [(Z.to_nat delta + 1) * D; T]
          /\ forall y, In y (data f) -> is_finite y).
Proof.
  intros Hget Hsh Hwf Hch Hpos.
  destruct (select_feat_log_only variables ft t pre C D T channel Hget Hsh Hwf Hch)
    as (sel & out & Hsel & Hout & Hos & Hod).
  assert (Hlog : forall y, In y (map log_eps (data sel)) ->
            is_finite y /\ exists r, (0 <= r)%R /\ y = Fin (ln (r + eps_R))).
  { intros y Hy. apply in_map_iff in Hy as (x & <- & Hx).
    destruct (Hpos sel Hsel x Hx) as (r & -> & Hr).
    rewrite log_eps_nonneg by exact Hr. split; [exact I |]. now exists r. }
  exists sel, out. split; [exact Hsel |]. split; [exact Hout |]. split; [exact Hos |].
  split; [exact Hod |]. split; [now rewrite Hod |].
  intros Hne delta cmvn HT.
  destruct (select_feat_stack variables ft t pre C D T channel true delta
              Hget Hsh Hwf Hch Hne)
    as (sel' & ds & st & Hsel' & _ & _ & Hc & _ & _ & _ & _ & Hss & Hsw & Hsd & Hsf).
  rewrite Hsel in Hsel'. injection Hsel' as <-.
  assert (Hraw : all_finite (data (tmap log_eps sel))).
  { intros y Hy. now apply Hlog. }
  assert (Hst : all_finite (data st)).
  { intros y Hy. rewrite Hsd in Hy.
    apply in_flat_map in Hy as (b & _ & Hy). apply in_flat_map in Hy as (x & Hx & Hy).
    apply in_row in Hy. destruct Hx as [<- | Hx]; [now apply Hraw |].
    now apply (delta_chain_finite _ _ ds Hc Hraw x Hx). }
  rewrite (Hsf cmvn). destruct cmvn.
  - assert (Hss' : shape st = (pre ++ [(Z.to_nat delta + 1) * D]) ++ [T])
      by (now rewrite <- app_assoc).
    rewrite (cmvn_normalize_rows st _ T Hss' Hsw).
    eexists. split; [reflexivity |]. split; [exact Hss |]. cbn [data].
    intros y Hy. apply in_flat_map in Hy as (r & Hr & Hy).
    apply (cmvn_row_finite r); [| | exact Hy].
    + assert (Hlen : length r = T).
      { apply (rows_all_length (numel (pre ++ [(Z.to_nat delta + 1) * D])) T (data st));
          [| exact Hr].
        unfold wf in Hsw. rewrite Hsw, Hss'. rewrite numel_app. numel_norm. lia. }
      rewrite Hlen. now apply HT.
    + intros z Hz. apply Hst. eapply in_rows; eauto.
  - exists st. split; [reflexivity |]. split; [exact Hss | exact Hst].
Qed.

(** The power spectrum of the all-zero waveform, two frames: with deltas
    and CMVN every value is finite. *)
Lemma log_of_zero_is_finite :
  exists out,
    select_feat zero_linear "linear" 0 true 2 true = ret out
    /\ shape out = [1; 3; 2]
    /\ forall y, In y (data out) -> is_finite y.
Proof.
  destruct (log_finite_on_nonnegative zero_linear "linear"
              (mkTensor [1; 1; 1; 2] [Fin 0; Fin 0]) [1] 1 1 2 0)
    as (sel & out & _ & _ & _ & _ & _ & Hall).
  - reflexivity.
  - reflexivity.
  - reflexivity.
  - lia.
  - intros sel Hsel x Hx. injection Hsel as <-.
    destruct Hx as [<- | [<- | []]]; exists 0%R; split; (reflexivity || lra).
  - destruct (Hall ltac:(cbn; lia) 2%Z true ltac:(intros _; lia)) as (f & Hf & Hs & Hfin).
    exists f. split; [exact Hf |]. split; [exact Hs | exact Hfin].
Defined.

(** C9 as stated fails: the log of a phase of minus one radian is NaN; with
    CMVN a single frame of the all-zero power spectrum, finite after the
    log step, is NaN; and a feature without elements has no deltas. *)
Lemma log_of_negative_is_nan :
  select_feat negative_phase "phase" 0 true 0 false = ret (mkTensor [1; 1; 1] [NaN])
  /\ select_feat zero_frame "linear" 0 true 0 true = ret (mkTensor [1; 1; 1] [NaN])
  /\ select_feat no_bins "linear" 0 true 1 false = raise RuntimeError
  /\ ~ is_finite NaN.
Proof.
  split; [| split; [| split; [reflexivity | intros []]]].
  - unfold negative_phase. rewrite single_element_log. now rewrite log_eps_minus_one.
  - rewrite select_feat_cmvn. unfold zero_frame. rewrite single_element_log.
    cbn [bind ret].
    rewrite (cmvn_normalize_rows (mkTensor [1; 1; 1] [log_eps (Fin 0)]) [1; 1] 1
               eq_refl eq_refl).
    cbn [shape data numel fold_right Nat.mul Nat.add rows seq map flat_map app].
    change (row 1 [log_eps (Fin 0)] 0) with [log_eps (Fin 0)].
    now rewrite cmvn_row_single.
Qed.

End LogClaim.

(* ================================================================== *)
(** * CMVN: what it computes, and what it does not guarantee *)
(* ================================================================== *)

Section CmvnClaim.

Context {A : Type} {SO : ScalarOps A}.

Lemma time_rows_eq (t : Tensor A) (pre : list nat) (T : nat) :
  shape t = pre ++ [T] -> time_rows t = rows (numel pre) T (data t).
Proof.
  intros Hsh. unfold time_rows. rewrite Hsh.
  now rewrite (split_end_app 1 pre [T]) by reflexivity.
Qed.

(** C5 (as the code has it). With [cmvn] the selector normalises what the
    request gives without it, one time row (that is, one batch item and
    feature channel) at a time: every value [x] of a row becomes
    [(x - mean) / (std + 1e-10)] for the mean and the unbiased deviation of
    that row alone, in the arithmetic of the elements, and the result has
    the same sizes. *)
Theorem cmvn_statistics (variables : variables_t) (ft : string) (channel : Z)
    (log : bool) (delta : Z) (feats : Tensor A) (pre : list nat) (T : nat) :
  select_feat variables ft channel log delta false = ret feats ->
  shape feats = pre ++ [T] -> wf feats ->
  exists out,
    select_feat variables ft channel log delta true = ret out
    /\ shape out = shape feats /\ wf out
    /\ length (time_rows feats) = numel pre
    /\ data out = concat (time_rows out)
    /\ time_rows out = map cmvn_row (time_rows feats)
    /\ forall i r, nth_error (time_rows feats) i = Some r ->
         length r = T
         /\ nth_error (time_rows out) i
            = Some (map (fun x => f_div (f_sub x (mean_row r))
                                        (f_add (std_row r) (f_lit eps_lit))) r).
Proof.
  intros Hfeats Hsh Hwf.
  destruct (cmvn_normalize_ok feats pre T Hsh Hwf) as (out & Hout & Hos & How & Hrows).
  exists out. split; [rewrite select_feat_cmvn, Hfeats; exact Hout |].
  split; [exact Hos |]. split; [exact How |].
  rewrite (time_rows_eq feats pre T Hsh) in *.
  split; [apply length_rows |]. split; [| split; [exact Hrows |]].
  - rewrite Hrows. rewrite (cmvn_normalize_rows feats pre T Hsh Hwf) in Hout.
    injection Hout as <-. cbn [data]. now rewrite flat_map_concat_map.
  - intros i r Hr. split.
    + apply (rows_all_length (numel pre) T (data feats)); [| eapply nth_error_In; eauto].
      unfold wf in Hwf. rewrite Hwf, Hsh. numel_norm. lia.
    + rewrite Hrows, nth_error_map, Hr. reflexivity.
Qed.

End CmvnClaim.

(** The plain row [0, 1, 2] in binary32: mean 1 and deviation 1, and
    [1 + 1e-10] rounds to 1, so the result is [-1, 0, 1]. *)
Lemma cmvn_of_plain_row :
  exists out,
    data out = map b32_lit [-1; 0; 1]%Q
    /\ forall log,
         select_feat (SO:=b32_scalar log) (b32_variables plain_row) "linear" 0 false 0 true
         = ret out.
Proof.
  exists (mkTensor [1; 1; 3] (map b32_lit [-1; 0; 1]%Q)). split; [reflexivity |].
  intros log.
  destruct (cmvn_statistics (SO:=b32_scalar log) (b32_variables plain_row) "linear" 0
              false 0 (mkTensor [1; 1; 3] (map b32_lit plain_row)) [1; 1] 3)
    as (out & Hout & Hsh & _ & _ & Hdata & Hrows & _).
  - reflexivity.
  - reflexivity.
  - reflexivity.
  - rewrite Hout. f_equal. destruct out as [sh d]. cbn [shape data] in *.
    rewrite Hsh. f_equal. rewrite Hdata, Hrows. reflexivity.
Defined.

(** C5 as stated fails in both of its bounds, on rows that are not
    constant, in the binary32 arithmetic of the tensors and whatever the
    logarithm is.
    - The quiet row [0, 1e-10, 2e-10] is normalised to [-1/2, 0, 1/2]: the
      stabiliser is as large as the deviation of the row. The time-variance
      of the result is [1/4], below [(1 - 1e-5)^2]: its time-deviation is
      [1/2].
    - The close row [100, 100.001, 100.002, 100.003], of time-deviation
      above [1e-5], is normalised to four values of time-mean
      [396809 / 2^27], about [2.96e-3]: the rounding error of the mean of
      the row is divided by the deviation of the row. *)
Lemma cmvn_of_rounded_rows :
  (exists xs ys,
     b32_values (map b32_lit quiet_row) = Some xs
     /\ (0 < Qvar xs)%Q
     /\ (forall log,
           select_feat (SO:=b32_scalar log) (b32_variables quiet_row) "linear" 0
             false 0 true
           = ret (mkTensor [1; 1; 3] (map b32_lit [- (1 # 2); 0; 1 # 2]%Q)))
     /\ b32_values (map b32_lit [- (1 # 2); 0; 1 # 2]%Q) = Some ys
     /\ (Qvar ys == 1 # 4)%Q
     /\ (Qvar ys < (1 - tol_lit) * (1 - tol_lit))%Q)
  /\ (exists xs ys,
        b32_values (map b32_lit close_row) = Some xs
        /\ (tol_lit * tol_lit <= Qvar xs)%Q
        /\ (forall log,
              select_feat (SO:=b32_scalar log) (b32_variables close_row) "linear" 0
                false 0 true
              = ret (mkTensor [1; 1; 4] close_normalised))
        /\ b32_values close_normalised = Some ys
        /\ (Qmean ys == 396809 # 134217728)%Q
        /\ (tol_lit < Qabs (Qmean ys))%Q).
Proof.
  split.
  - eexists. eexists. split; [vm_compute; reflexivity |].
    split; [vm_compute; reflexivity |].
    split; [intros log; vm_compute; reflexivity |].
    split; [vm_compute; reflexivity |].
    split; vm_compute; reflexivity.
  - eexists. eexists. split; [vm_compute; reflexivity |].
    split; [vm_compute; discriminate |].
    split; [intros log; vm_compute; reflexivity |].
    split; [vm_compute; reflexivity |].
    split; vm_compute; reflexivity.
Qed.

(* ================================================================== *)
(** * [forward] without a waveform, and requests it cannot serve *)
(* ================================================================== *)

Section ForwardArguments.

Context {A : Type} {SO : ScalarOps A} {TO : TransformOps A}.

Lemma map_res_ext {X Y : Type} (f g : X -> res Y) (l : list X) :
  (forall a, In a l -> f a = g a) -> map_res f l = map_res g l.
Proof.
  induction l as [| a l IH]; intros H; [reflexivity |].
  cbn [map_res]. rewrite (H a (or_introl eq_refl)), IH; [reflexivity |].
  intros a' Ha'. apply H. now right.
Qed.

(** The local [max_channel_id], bound only when no waveform was passed, is
    the one difference between the two dictionaries. *)
Lemma forward_locals_pseudo (wavs c l p m f : Tensor A) (ft : string) :
  ft <> "max_channel_id"%string ->
  dict_get (forward_locals wavs c l p m f true) ft
  = dict_get (forward_locals wavs c l p m f false) ft.
Proof.
  intros Hne. unfold forward_locals. cbn [app dict_get].
  destruct (String.eqb_spec "max_channel_id" ft) as [E | _]; [now subst ft |].
  reflexivity.
Qed.

Lemma select_all_pseudo (wavs c l p m f : Tensor A) (fl : list FeatArgs) :
  (forall a, In a fl -> a_feat_type a <> Some "max_channel_id"%string) ->
  select_all (forward_locals wavs c l p m f true) fl
  = select_all (forward_locals wavs c l p m f false) fl.
Proof.
  intros Hfl. unfold select_all. f_equal. apply map_res_ext. intros a Ha.
  unfold call_select_feat. destruct (a_feat_type a) as [ft |] eqn:Eft; [| reflexivity].
  unfold select_feat. rewrite forward_locals_pseudo; [reflexivity |].
  intros ->. now apply (Hfl a Ha).
Qed.

(** X1. What [forward] does with its defaults (lines 83-86), each time
    before any transform is started. Without a request list it takes the
    list of the instance, and fails the assertion of [_check_list] when
    there is none. Without a waveform it expands the stored pseudo waveform
    to [m + 1] channels, for the largest requested channel [m]: an empty
    request list has no maximum ([ValueError]); a buffer of [C <> 1]
    channels, as the constructor makes it, is kept for [m + 1 = C] and for
    [m + 1 = -1] (the size that [expand] reads as "unchanged") and cannot
    be expanded to any other size ([RuntimeError]), so that requests for
    channel 0 alone are refused. When the buffer is kept, the dictionary of
    the requests has one name more than that of a call with the buffer as
    waveform, [max_channel_id], bound to an integer; for requests that do
    not name it the two calls are equal. *)
Theorem forward_without_waveform (self : OnlinePreprocessor A) (fl : list FeatArgs)
    (B C T : nat) (m : Z) :
  shape (_pseudo_wav self) = [B; C; T] -> C <> 1 ->
  max_channel fl = ret m ->
  (forall wavs, feat_list self = None ->
     forward self wavs None = ([], raise AssertionError))
  /\ (forall wavs l, feat_list self = Some l ->
        forward self wavs None = forward self wavs (Some l))
  /\ forward self None (Some []) = ([], raise ValueError)
  /\ ((m + 1)%Z <> Z.of_nat C -> (m + 1)%Z <> (-1)%Z ->
      forward self None (Some fl) = ([], raise RuntimeError))
  /\ ((m + 1)%Z = Z.of_nat C \/ (m + 1)%Z = (-1)%Z ->
      (forall a, In a fl -> a_feat_type a <> Some "max_channel_id"%string) ->
      forward self None (Some fl) = forward self (Some (_pseudo_wav self)) (Some fl))
  /\ (forall wavs c l p f g : Tensor A,
        dict_get (forward_locals wavs c l p f g true) "max_channel_id" = ret PyOther
        /\ dict_get (forward_locals wavs c l p f g false) "max_channel_id"
           = raise (KeyError "max_channel_id")
        /\ forall ft, ft <> "max_channel_id"%string ->
             dict_get (forward_locals wavs c l p f g true) ft
             = dict_get (forward_locals wavs c l p f g false) ft).
Proof.
  intros Hsh HC Hm. split; [| split; [| split; [| split; [| split]]]].
  - intros wavs Hn. unfold forward, _check_list. rewrite Hn. apply tbind_lift_raise.
  - intros wavs l Hl. unfold forward, _check_list. now rewrite Hl.
  - unfold forward. cbn [_check_list]. rewrite tbind_lift_ret.
    cbn [max_channel map bind]. apply tbind_lift_raise.
  - intros H1 H2. unfold forward. cbn [_check_list]. rewrite tbind_lift_ret.
    rewrite Hm. cbn [bind ret]. unfold expand_channels. rewrite Hsh.
    destruct (Z.eqb_spec (m + 1) (-1)) as [E | _]; [contradiction |].
    destruct (Z.eqb_spec (m + 1) (Z.of_nat C)) as [E | _]; [contradiction |].
    destruct (Nat.eqb_spec C 1) as [E | _]; [contradiction |].
    cbn [orb andb]. apply tbind_lift_raise.
  - intros H1 Hfl. unfold forward. cbn [_check_list]. rewrite !tbind_lift_ret.
    rewrite Hm. cbn [bind ret]. unfold expand_channels. rewrite Hsh.
    assert (Hkeep : ((m + 1 =? -1) || (m + 1 =? Z.of_nat C))%Z = true).
    { apply orb_true_iff. destruct H1 as [E | E]; [right | left]; now apply Z.eqb_eq. }
    rewrite Hkeep. rewrite tbind_lift_ret.
    destruct (3 <=? dim (_pseudo_wav self)); cbn [py_assert];
      [| now rewrite !tbind_lift_raise].
    rewrite !tbind_lift_ret.
    destruct (compute_features self (_pseudo_wav self)) as [tr [e | v]]; [reflexivity |].
    unfold tbind, lift. now rewrite select_all_pseudo.
  - intros wavs c l p f g. split; [reflexivity |]. split; [reflexivity |].
    intros ft Hft. now apply forward_locals_pseudo.
Qed.

End ForwardArguments.

Section RequestErrors.

Context {A : Type} {SO : ScalarOps A} {TO : TransformOps A}.

(** [forward] serves the requests in order and stops at the first one that
    raises, after the transforms. *)
Lemma forward_stops_at (self : OnlinePreprocessor A) (wavs : Tensor A)
    (good : list FeatArgs) (bad : FeatArgs) (rest : list FeatArgs)
    (B C T n_freq n_mels n_mfcc : nat) (e : exn) :
  shape wavs = [B; C; T] -> wf wavs -> 0 < B -> 0 < C ->
  valid_config self n_freq -> n_freq - 1 < T ->
  0 < n_mels -> 0 < n_mfcc ->
  melscale_contract self n_mels -> mfcc_contract self n_freq n_mfcc ->
  Forall (valid_request C) good ->
  (forall v, call_select_feat
               (forward_locals wavs (complx v) (linear v) (phase v) (mel v) (mfcc v) false)
               bad = raise e) ->
  forward self (Some wavs) (Some (good ++ bad :: rest)) = (all_transforms, raise e).
Proof.
  intros Hsh Hwf HB HC Hcfg HT Hnm Hnc Cmel Cmfcc Hgood Hbad.
  destruct (compute_features_ok self wavs B C T n_freq n_mels n_mfcc
              Hsh Hwf HB HC Hcfg HT Cmel Cmfcc) as (v & Hv & Hsized).
  set (fr := T / Z.to_nat (hop_length self) + 1) in *.
  assert (Hnf : 0 < n_freq) by (destruct Hcfg; lia).
  assert (Hfr : 0 < fr) by (unfold fr; lia).
  assert (Hdim : 3 <= dim wavs) by (unfold dim; rewrite Hsh; cbn; lia).
  rewrite (forward_selects self wavs v _ Hdim Hv). f_equal.
  unfold select_all.
  rewrite (map_res_stops _ good bad rest e); [reflexivity | | apply Hbad].
  intros a Ha. rewrite Forall_forall in Hgood.
  destruct (request_output_ok wavs v B C fr n_freq n_mels n_mfcc a
              Hsized HB Hfr Hnf Hnm Hnc (Hgood a Ha))
    as (ft' & t & f & D & o & H1 & H2 & H3 & _).
  exists f. now rewrite (call_select_feat_steps wavs v a ft' t H1 H2).
Qed.

(** The names bound in [forward] when [locals()] is called at line 115
    with a waveform passed. *)
Lemma forward_locals_names (wavs c l p m f : Tensor A) (ft : string) :
  ~ In ft ["self"; "wavs"; "feat_list"; "shape"; "complx"; "linear"; "phase";
           "mel"; "mfcc"; "select_feat"]%string ->
  dict_get (forward_locals wavs c l p m f false) ft = raise (KeyError ft).
Proof.
  intros Hn. unfold forward_locals. cbn [app dict_get].
  repeat match goal with
         | |- context [String.eqb ?k ft] =>
             destruct (String.eqb_spec k ft) as [E | _];
             [exfalso; apply Hn; rewrite <- E; cbn; tauto |]
         end.
  reflexivity.
Qed.

Lemma forward_locals_other (wavs c l p m f : Tensor A) (ft : string) :
  In ft ["self"; "feat_list"; "shape"; "select_feat"]%string ->
  dict_get (forward_locals wavs c l p m f false) ft = ret PyOther.
Proof.
  intros [<- | [<- | [<- | [<- | []]]]]; reflexivity.
Qed.

(** X2. A request is looked at only when its turn comes in line 116, after
    the four transforms and after the requests before it: without a
    [feat_type] the call of [select_feat] lacks an argument ([TypeError]);
    a [feat_type] that is not a local name of [forward] is a missing key of
    [locals()] ([KeyError]); and one that names a local that is not a tensor
    has no [select] ([AttributeError]). *)
Theorem request_errors_after_transforms (self : OnlinePreprocessor A)
    (wavs : Tensor A) (good : list FeatArgs) (bad : FeatArgs) (rest : list FeatArgs)
    (B C T n_freq n_mels n_mfcc : nat) :
  shape wavs = [B; C; T] -> wf wavs -> 0 < B -> 0 < C ->
  valid_config self n_freq -> n_freq - 1 < T ->
  0 < n_mels -> 0 < n_mfcc ->
  melscale_contract self n_mels -> mfcc_contract self n_freq n_mfcc ->
  Forall (valid_request C) good ->
  (a_feat_type bad = None ->
     forward self (Some wavs) (Some (good ++ bad :: rest))
     = (all_transforms, raise TypeError))
  /\ (forall ft, a_feat_type bad = Some ft ->
        ~ In ft ["self"; "wavs"; "feat_list"; "shape"; "complx"; "linear"; "phase";
                 "mel"; "mfcc"; "select_feat"]%string ->
        forward self (Some wavs) (Some (good ++ bad :: rest))
        = (all_transforms, raise (KeyError ft)))
  /\ (forall ft, a_feat_type bad = Some ft ->
        In ft ["self"; "feat_list"; "shape"; "select_feat"]%string ->
        forward self (Some wavs) (Some (good ++ bad :: rest))
        = (all_transforms, raise (AttributeError "select"))).
Proof.
  intros Hsh Hwf HB HC Hcfg HT Hnm Hnc Cmel Cmfcc Hgood.
  pose proof (fun e => forward_stops_at self wavs good bad rest B C T n_freq n_mels n_mfcc e
                         Hsh Hwf HB HC Hcfg HT Hnm Hnc Cmel Cmfcc Hgood) as Hstop.
  repeat split.
  - intros Hnone. apply Hstop. intros v. unfold call_select_feat. now rewrite Hnone.
  - intros ft Hft Hn. apply Hstop. intros v. unfold call_select_feat. rewrite Hft.
    unfold select_feat. now rewrite forward_locals_names.
  - intros ft Hft Hin. apply Hstop. intros v. unfold call_select_feat. rewrite Hft.
    unfold select_feat. now rewrite forward_locals_other.
Qed.

(** [t.reshape(-1, T)] either raises or reads the elements as rows of [T]. *)
Lemma reshape_rows_shape (t : Tensor A) (T : nat) :
  reshape t [(-1)%Z; Z.of_nat T] = raise RuntimeError
  \/ exists N, reshape t [(-1)%Z; Z.of_nat T] = ret (mkTensor [N; T] (data t)).
Proof.
  unfold reshape.
  assert (Hne : (Z.of_nat T =? -1)%Z = false) by (apply Z.eqb_neq; lia).
  assert (Hlt : (Z.of_nat T <? -1)%Z = false) by (apply Z.ltb_ge; lia).
  cbn [existsb filter known_sizes]. rewrite Hlt, Hne.
  cbn [orb Z.ltb Z.eqb Z.compare Pos.compare Pos.eqb negb filter length map].
  rewrite Hne.
  repeat match goal with
         | |- (if ?c then _ else _) = _ \/ _ => destruct c; [now left |]
         end.
  right. rewrite Nat2Z.id. eexists. reflexivity.
Qed.

(** X3. A waveform of at most [n_fft / 2] samples cannot be reflect-padded
    for the centred analysis: [forward] stops in the first transform with
    the library's [RuntimeError], whatever is requested. *)
Theorem forward_short_waveform (self : OnlinePreprocessor A) (wavs : Tensor A)
    (fl : list FeatArgs) (pre : list nat) (T n_freq : nat) :
  shape wavs = pre ++ [T] -> 2 <= length pre ->
  valid_config self n_freq -> T <= n_freq - 1 ->
  forward self (Some wavs) (Some fl) = ([EvStft], raise RuntimeError).
Proof.
  intros Hsh Hpre (Hnf & Hfft & Hhop & Hwin & Hlen) HT.
  assert (Hdim : 3 <= dim wavs).
  { unfold dim. rewrite Hsh, length_app. cbn. lia. }
  rewrite (forward_after_check self wavs fl Hdim).
  assert (Ha : analyze self wavs = raise RuntimeError).
  { unfold analyze. rewrite Hsh, last_last.
    destruct (reshape_rows_shape wavs T) as [E | (N & E)]; rewrite E; [reflexivity |].
    cbn [bind ret]. unfold _stft, stft. cbn [shape].
    assert (Hv : stft_valid (n_fft self) (hop_length self) (win_length self)
                   (_window self) T = false).
    { unfold stft_valid. rewrite Hfft, Nat2Z.id.
      replace ((n_freq - 1) * 2 / 2) with (n_freq - 1) by (now rewrite Nat.div_mul).
      destruct (Nat.ltb_spec (n_freq - 1) T) as [Hlt | _]; [lia |].
      apply andb_false_r. }
    rewrite Hv. reflexivity. }
  unfold compute_features. rewrite Ha. reflexivity.
Qed.

End RequestErrors.

Section MissingAttributes.

Context {A : Type} {SO : ScalarOps A} {TO : TransformOps A}.

(** X4. The attributes that [__init__] is written to assign do not include
    [_melscale]: on an instance that has only those, [forward] runs the
    analysis and the magnitude/phase decomposition and then stops at the
    attribute lookup of line 94 with [AttributeError], whatever is
    requested. *)
Theorem forward_without_melscale (self : OnlinePreprocessor A) (wavs : Tensor A)
    (fl : list FeatArgs) (pre : list nat) (B C T n_freq : nat) :
  shape wavs = B :: pre ++ [C; T] -> wf wavs ->
  valid_config self n_freq -> n_freq - 1 < T ->
  _melscale self = None ->
  forward self (Some wavs) (Some fl)
  = ([EvStft; EvMagphase], raise (AttributeError "_melscale")).
Proof.
  intros Hsh Hwf Hcfg HT Hnone.
  assert (Hdim : 3 <= dim wavs).
  { unfold dim. rewrite Hsh. cbn [length]. rewrite length_app. cbn. lia. }
  rewrite (forward_after_check self wavs fl Hdim).
  pose proof (analyze_ok self wavs (B :: pre) C T n_freq Hsh Hwf Hcfg HT) as Ha.
  pose proof (analyze_wf self wavs (B :: pre) C T n_freq _ Hsh Hwf Hcfg HT Ha) as Hcw.
  set (cx := mkTensor _ _) in *.
  assert (Hcs : shape cx
                = ((B :: pre) ++ [C; n_freq; T / Z.to_nat (hop_length self) + 1]) ++ [2])
    by (unfold cx; cbn [shape]; now rewrite <- app_assoc).
  destruct (magphase_ok 2%Q cx _ Hcs Hcw) as (lin & ph & Hmp & _).
  unfold compute_features. rewrite Ha, tbind_assoc.
  unfold tbind at 1. unfold run_transform at 1. unfold ret at 1.
  unfold _magphase. rewrite Hmp, Hnone. reflexivity.
Qed.

End MissingAttributes.

(* ================================================================== *)
(** * [_transpose_list] twice *)
(* ================================================================== *)

Section TransposeTwice.

Context {A : Type}.

(** Reading a position in the exchanged sizes and writing it back. *)
Lemma swap_index_involutive (X Y Z k : nat) :
  X <> 0 -> Y <> 0 -> Z <> 0 ->
  swap_index Y X Z (swap_index X Y Z k) = k.
Proof.
  intros HX HY HZ. unfold swap_index. cbv zeta.
  set (z := k mod Z). set (x := k / Z mod X).
  set (y := k / Z / X mod Y). set (b := k / Z / X / Y).
  assert (Hz : z < Z) by (now apply Nat.mod_upper_bound).
  assert (Hx : x < X) by (now apply Nat.mod_upper_bound).
  assert (Hy : y < Y) by (now apply Nat.mod_upper_bound).
  rewrite (mod_block _ Z z Hz), (div_block _ Z z Hz).
  rewrite (mod_block _ Y y Hy), (div_block _ Y y Hy).
  rewrite (mod_block _ X x Hx), (div_block _ X x Hx).
  pose proof (Nat.div_mod_eq k Z) as E1.
  pose proof (Nat.div_mod_eq (k / Z) X) as E2.
  pose proof (Nat.div_mod_eq (k / Z / X) Y) as E3.
  fold z in E1. fold x in E2. fold y b in E3.
  transitivity (Z * (X * (Y * b + y) + x) + z); [ring |].
  rewrite <- E3, <- E2. symmetry. exact E1.
Qed.

Lemma shape_last2 (sh : list nat) :
  2 <= length sh -> exists pre X Y, sh = pre ++ [X; Y].
Proof.
  intros Hl. destruct (rev sh) as [| Y [| X r]] eqn:E.
  - apply (f_equal (@length nat)) in E. rewrite length_rev in E. cbn in E. lia.
  - apply (f_equal (@length nat)) in E. rewrite length_rev in E. cbn in E. lia.
  - exists (rev r), X, Y. rewrite <- (rev_involutive sh), E. cbn [rev].
    now rewrite <- app_assoc.
Qed.

Lemma transpose_adjacent_twice (t : Tensor A) (pre : list nat) (X Y : nat)
    (post : list nat) :
  shape t = pre ++ X :: Y :: post -> wf t ->
  exists t', transpose_adjacent (length post) t = ret t'
             /\ shape t' = pre ++ Y :: X :: post /\ wf t'
             /\ transpose_adjacent (length post) t' = ret t.
Proof.
  intros Hsh Hwf.
  destruct (transpose_adjacent_ok t pre X Y post Hsh Hwf) as (t' & Ht' & Hsh' & Hwf').
  exists t'. repeat split; try assumption.
  pose proof Ht' as Hd. unfold transpose_adjacent in Hd. rewrite Hsh in Hd.
  rewrite (split_end_app (length post + 2) pre (X :: Y :: post)) in Hd by (cbn; lia).
  unfold ret in Hd. injection Hd as Hd.
  unfold transpose_adjacent. rewrite Hsh'.
  rewrite (split_end_app (length post + 2) pre (Y :: X :: post)) by (cbn; lia).
  destruct t as [sh d]. cbn [shape data] in *. subst sh. unfold ret. do 2 f_equal.
  unfold wf in Hwf, Hwf'. cbn [shape data] in Hwf. rewrite Hsh' in Hwf'.
  set (B := numel pre) in *. set (Z := numel post) in *.
  assert (Hn : numel (pre ++ X :: Y :: post) = B * (X * (Y * Z))) by (now numel_norm).
  assert (Hn' : numel (pre ++ Y :: X :: post) = B * (Y * (X * Z))) by (now numel_norm).
  rewrite Hn in Hwf. rewrite Hn' in Hwf' |- *.
  apply list_eq_by_nth.
  - rewrite length_gather_seq; [lia |].
    intros j Hj. rewrite Hwf'. now apply swap_index_bound.
  - intros k Hk. rewrite length_gather_seq in Hk
      by (intros j Hj; rewrite Hwf'; now apply swap_index_bound).
    rewrite nth_error_gather; [| intros j Hj; rewrite Hwf'; now apply swap_index_bound | exact Hk].
    rewrite <- Hd. cbn [data]. rewrite Hn.
    rewrite nth_error_gather.
    + rewrite swap_index_involutive; [reflexivity | | |]; intro; subst; lia.
    + intros j Hj. rewrite Hwf. now apply swap_index_bound.
    + replace (B * (X * (Y * Z))) with (B * (Y * (X * Z))) by ring.
      now apply swap_index_bound.
Qed.

Lemma transpose_last2_rank (t : Tensor A) :
  dim t < 2 -> transpose_last2 t = raise IndexError.
Proof.
  intros Hd. unfold transpose_last2, transpose_adjacent, split_end, dim in *.
  destruct (Nat.leb_spec (0 + 2) (length (shape t))) as [Hle | _]; [cbn in Hle; lia |].
  reflexivity.
Qed.

End TransposeTwice.

Section TransposeList.

Context {A : Type} {SO : ScalarOps A} {TO : TransformOps A}.

(** X5. [_transpose_list] exchanges the last two dimensions of every tensor
    of its list, in order, and is its own inverse: applied to its result it
    returns the list it was given. A tensor with fewer than two dimensions
    has no such pair, and the call raises [IndexError] at the first one. *)
Theorem transpose_list_involutive (feats : list (Tensor A)) :
  Forall (fun t => wf t /\ 2 <= dim t) feats ->
  (exists feats',
     _transpose_list feats = ret feats'
     /\ _transpose_list feats' = ret feats
     /\ Forall2 (fun t t' => exists pre X Y,
                   shape t = pre ++ [X; Y] /\ shape t' = pre ++ [Y; X] /\ wf t')
                feats feats')
  /\ (forall bad rest, dim bad < 2 ->
        _transpose_list (feats ++ bad :: rest) = raise IndexError).
Proof.
  intros Hall. split.
  - unfold _transpose_list. induction Hall as [| t feats [Hwf Hd] _ IH].
    + exists []. repeat split; constructor.
    + destruct IH as (feats' & H1 & H2 & H3).
      destruct (shape_last2 (shape t) Hd) as (pre & X & Y & Hsh).
      destruct (transpose_adjacent_twice t pre X Y [] Hsh Hwf)
        as (t' & Ht & Hs' & Hw' & Hback).
      cbn [length] in Ht, Hback. fold (transpose_last2 (A:=A)) in Ht, Hback.
      exists (t' :: feats'). cbn [map_res]. rewrite Ht, H1, Hback, H2.
      repeat split. constructor; [| exact H3]. exists pre, X, Y. auto.
  - intros bad rest Hbad. unfold _transpose_list. apply map_res_stops.
    + intros t Ht. rewrite Forall_forall in Hall. destruct (Hall t Ht) as [Hwf Hd].
      destruct (shape_last2 (shape t) Hd) as (pre & X & Y & Hsh).
      destruct (transpose_last2_ok t pre X Y Hsh Hwf) as (t' & Ht' & _). eauto.
    + now apply transpose_last2_rank.
Qed.

End TransposeList.

(* ================================================================== *)
(** * The selector without its optional steps, and what it selects from *)
(* ================================================================== *)

Section PlainSelection.

Context {A : Type} {SO : ScalarOps A} {TO : TransformOps A}.

Lemma cat_feat_single (t : Tensor A) (pre : list nat) (D T : nat) :
  shape t = pre ++ [D; T] -> wf t -> cat_feat [t] = ret t.
Proof.
  intros Hsh Hwf.
  destruct (cat_feat_ok [t] pre D T) as (out & Hc & Hos & _ & Hod).
  - discriminate.
  - constructor; [now split | constructor].
  - rewrite Hc. unfold ret. f_equal.
    destruct out as [osh od], t as [sh d]. cbn [shape data length] in *.
    subst osh sh. rewrite Nat.mul_1_l. f_equal. rewrite Hod.
    cbn [flat_map].
    rewrite (flat_map_ext (fun b => row (D * T) d b ++ []) (row (D * T) d))
      by (intros b; apply app_nil_r).
    apply flat_map_rows. unfold wf in Hwf. cbn [shape data] in Hwf.
    rewrite Hwf. numel_norm. ring.
Qed.

Lemma select_feat_is_select_aux (variables : variables_t) (ft : string) (t : Tensor A)
    (pre : list nat) (C D T : nat) (channel delta : Z) :
  dict_get variables ft = ret (PyTensor t) ->
  shape t = pre ++ [C; D; T] -> wf t ->
  (- Z.of_nat C <= channel < Z.of_nat C)%Z ->
  (delta <= 0)%Z ->
  exists sel,
    select 2 channel t = ret sel
    /\ shape sel = pre ++ [D; T] /\ wf sel
    /\ select_feat variables ft channel false delta false = ret sel.
Proof.
  intros Hget Hsh Hwf Hch Hd.
  destruct (select_ok t pre C [D; T] channel Hsh Hwf Hch) as (sel & Hsel & Hss & Hsw).
  cbn [length] in Hsel. exists sel. repeat split; try assumption.
  unfold select_feat. rewrite Hget. cbn [bind ret]. rewrite Hsel. cbn [bind ret].
  replace (Z.to_nat delta) with 0 by lia. cbn [delta_loop bind ret].
  rewrite (cat_feat_single sel pre D T Hss Hsw). reflexivity.
Qed.

(** X6. With the log scale and the normalisation off and a [delta] that is
    not positive, [select_feat] is the channel selection and nothing else:
    a negative [delta] is an empty [range], as [delta] 0, and the
    concatenation of the one tensor is that tensor. *)
Theorem select_feat_is_select (variables : variables_t) (ft : string) (t : Tensor A)
    (pre : list nat) (C D T : nat) (channel delta : Z) :
  dict_get variables ft = ret (PyTensor t) ->
  shape t = pre ++ [C; D; T] -> wf t ->
  (- Z.of_nat C <= channel < Z.of_nat C)%Z ->
  (delta <= 0)%Z ->
  exists sel,
    select 2 channel t = ret sel
    /\ shape sel = pre ++ [D; T]
    /\ select_feat variables ft channel false delta false = ret sel.
Proof.
  intros Hget Hsh Hwf Hch Hd.
  destruct (select_feat_is_select_aux variables ft t pre C D T channel delta
              Hget Hsh Hwf Hch Hd) as (sel & H1 & H2 & _ & H3).
  exists sel. auto.
Qed.

(** X7. The channel of a request is a Python index: a negative channel
    [-k], for [k] up to the number of channels [C], is not refused and is
    served exactly as channel [C - k], whatever the other steps. *)
Theorem select_feat_negative_channel (variables : variables_t) (ft : string)
    (t : Tensor A) (pre : list nat) (C D T : nat) (channel : Z)
    (log : bool) (delta : Z) (cmvn : bool) :
  dict_get variables ft = ret (PyTensor t) ->
  shape t = pre ++ [C; D; T] ->
  (- Z.of_nat C <= channel < 0)%Z ->
  select_feat variables ft channel log delta cmvn
  = select_feat variables ft (channel + Z.of_nat C) log delta cmvn.
Proof.
  intros Hget Hsh Hch. unfold select_feat. rewrite Hget. cbn [bind ret].
  assert (Hs : select 2 channel t = select 2 (channel + Z.of_nat C) t).
  { unfold select. rewrite Hsh.
    rewrite (split_end_app (2 + 1) pre [C; D; T]) by reflexivity.
    f_equal. unfold norm_index.
    destruct (Z.leb_spec 0 channel) as [Hp | _]; [lia |].
    destruct (Z.leb_spec (- Z.of_nat C) channel) as [_ | Hl]; [| lia].
    destruct (Z.ltb_spec channel 0) as [_ | Hl]; [| lia].
    destruct (Z.leb_spec 0 (channel + Z.of_nat C)) as [_ | Hl]; [| lia].
    destruct (Z.ltb_spec (channel + Z.of_nat C) (Z.of_nat C)) as [_ | Hl]; [| lia].
    reflexivity. }
  now rewrite Hs.
Qed.

(** X8. The dictionary of line 115 is [locals()], so it also holds the
    waveform: a request with [feat_type] ["wavs"] is served from the raw
    waveform [(B, C, T)]. Its [channel] then indexes the batch (dimension
    [-3]), and the output is that batch item transposed, [(T, C)]. *)
Theorem forward_serves_waveform (self : OnlinePreprocessor A) (wavs : Tensor A)
    (B C T n_freq n_mels n_mfcc : nat) (b : Z) :
  shape wavs = [B; C; T] -> wf wavs -> 0 < B -> 0 < C ->
  valid_config self n_freq -> n_freq - 1 < T ->
  melscale_contract self n_mels -> mfcc_contract self n_freq n_mfcc ->
  (- Z.of_nat B <= b < Z.of_nat B)%Z ->
  exists item o,
    select 2 b wavs = ret item /\ shape item = [C; T]
    /\ transpose_last2 item = ret o /\ shape o = [T; C]
    /\ forward self (Some wavs) (Some [feat_channel "wavs" b])
       = (all_transforms, ret [o]).
Proof.
  intros Hsh Hwf HB HC Hcfg HT Cmel Cmfcc Hb.
  destruct (compute_features_ok self wavs B C T n_freq n_mels n_mfcc
              Hsh Hwf HB HC Hcfg HT Cmel Cmfcc) as (v & Hv & _).
  assert (Hdim : 3 <= dim wavs) by (unfold dim; rewrite Hsh; cbn; lia).
  set (vars := forward_locals wavs (complx v) (linear v) (phase v) (mel v) (mfcc v) false).
  destruct (select_feat_is_select_aux vars "wavs" wavs [] B C T b 0 eq_refl Hsh Hwf Hb)
    as (item & Hsel & His & Hiw & Hsf); [lia |].
  destruct (transpose_last2_ok item [] C T His Hiw) as (o & Ho & Hos & _).
  exists item, o. repeat split; try assumption.
  rewrite (forward_selects self wavs v _ Hdim Hv). f_equal. fold vars.
  apply select_all_single. unfold request_output, call_select_feat, feat_channel.
  cbn [a_feat_type a_channel a_log a_delta a_cmvn]. rewrite Hsf. exact Ho.
Qed.

End PlainSelection.

Section ExtraBatchAxis.

Context {A : Type} {SO : ScalarOps A} {TO : TransformOps A}.

(** X9. A waveform with one more leading dimension, [(N, B, C, T)]. Line
    96 takes the leading sizes of the complex feature from
    [mfcc.shape[:2]], so the channel dimension is folded into the features:
    the [channel] of a ["complx"] request then indexes [B], and the output
    [(N, frames, C * n_freq * 2)] holds every channel. The other
    representations keep the channel where [select] looks for it: a
    ["linear"] request gives [(N, B, frames, n_freq)]. *)
Theorem forward_extra_batch_axis (self : OnlinePreprocessor A) (wavs : Tensor A)
    (N B C T n_freq n_mels n_mfcc : nat) (ch ch' : Z) :
  shape wavs = [N; B; C; T] -> wf wavs -> 0 < N -> 0 < B -> 0 < C ->
  valid_config self n_freq -> n_freq - 1 < T ->
  melscale_contract self n_mels -> mfcc_contract self n_freq n_mfcc ->
  (- Z.of_nat B <= ch < Z.of_nat B)%Z ->
  (- Z.of_nat C <= ch' < Z.of_nat C)%Z ->
  exists o1 o2,
    forward self (Some wavs)
      (Some [feat_channel "complx" ch; feat_channel "linear" ch'])
    = (all_transforms, ret [o1; o2])
    /\ shape o1 = [N; T / Z.to_nat (hop_length self) + 1; C * (n_freq * 2)]
    /\ shape o2 = [N; B; T / Z.to_nat (hop_length self) + 1; n_freq].
Proof.
  intros Hsh Hwf HN HB HC Hcfg HT (fmel & Hmel & Cmel) (fmfcc & Hmfcc & Cmfcc) Hch Hch'.
  set (fr := T / Z.to_nat (hop_length self) + 1).
  set (F := n_freq).
  assert (HF : 2 <= F) by (destruct Hcfg; assumption).
  assert (Hdim : 3 <= dim wavs) by (unfold dim; rewrite Hsh; cbn; lia).
  pose proof (analyze_ok self wavs [N; B] C T n_freq Hsh Hwf Hcfg HT) as Ha.
  cbn [app] in Ha. fold fr F in Ha.
  pose proof (analyze_wf self wavs [N; B] C T n_freq _ Hsh Hwf Hcfg HT Ha) as Hcw.
  set (cx := mkTensor [N; B; C; F; fr; 2] _) in *.
  destruct (magphase_ok 2%Q cx [N; B; C; F; fr] eq_refl Hcw)
    as (lin & ph & Hmp & Hls & Hlw & Hps & Hpw).
  destruct (Cmel lin [N; B; C] F fr Hls Hlw) as (ml & Hml & Hmls & Hmlw).
  destruct (Cmfcc wavs [N; B] C T Hsh Hwf HT) as (mf & Hmf & Hmfs & Hmfw).
  cbn [app] in Hmls, Hmfs. fold fr in Hmfs.
  destruct (transpose_last2_ok cx [N; B; C; F] fr 2 eq_refl Hcw)
    as (ct & Hct & Hcts & Hctw).
  cbn [app] in Hcts.
  assert (Hre : reshape ct (sizes (firstn 2 (shape mf))
                            ++ [(-1)%Z; Z.of_nat (last (shape mf) 0)])
                = ret (mkTensor [N; B; C * (F * 2); fr] (data ct))).
  { rewrite Hmfs. cbn [firstn last].
    change (sizes [N; B] ++ [(-1)%Z; Z.of_nat fr])
      with (sizes [N; B] ++ (-1)%Z :: sizes [fr]).
    rewrite (reshape_infer ct [N; B] [fr] (C * (F * 2))); [reflexivity | |].
    - rewrite Hcts. numel_norm. ring.
    - numel_norm. unfold fr. nia. }
  set (cv := mkTensor [N; B; C * (F * 2); fr] (data ct)) in *.
  assert (Hcvw : wf cv).
  { unfold wf, cv in *. cbn [shape data]. rewrite Hctw, Hcts. numel_norm. ring. }
  assert (Hv : compute_features self wavs
               = (all_transforms, ret (mkFeatures cv lin ph ml mf))).
  { unfold compute_features, all_transforms. rewrite Ha.
    apply tbind_transform_ret. unfold _magphase. rewrite Hmp.
    apply tbind_transform_ret. rewrite Hmel. cbn [getattr]. rewrite tbind_lift_ret.
    rewrite Hml. apply tbind_transform_ret.
    rewrite Hmfcc. cbn [getattr]. rewrite tbind_lift_ret.
    rewrite Hmf. apply tbind_transform_ret.
    rewrite Hct. cbn [bind ret]. rewrite Hmfs at 1. rewrite Hre.
    rewrite tbind_lift_ret. reflexivity. }
  set (vars := forward_locals wavs cv lin ph ml mf false).
  destruct (select_feat_is_select_aux vars "complx" cv [N] B (C * (F * 2)) fr ch 0
              eq_refl eq_refl Hcvw Hch ltac:(lia)) as (s1 & _ & Hs1 & Hw1 & Hf1).
  destruct (select_feat_is_select_aux vars "linear" lin [N; B] C F fr ch' 0
              eq_refl Hls Hlw Hch' ltac:(lia)) as (s2 & _ & Hs2 & Hw2 & Hf2).
  destruct (transpose_last2_ok s1 [N] (C * (F * 2)) fr Hs1 Hw1) as (o1 & Ho1 & Hos1 & _).
  destruct (transpose_last2_ok s2 [N; B] F fr Hs2 Hw2) as (o2 & Ho2 & Hos2 & _).
  exists o1, o2. repeat split; try assumption.
  rewrite (forward_selects self wavs _ _ Hdim Hv). f_equal.
  cbn [complx linear phase mel mfcc]. fold vars.
  unfold select_all, call_select_feat, feat_channel, _transpose_list.
  cbn [map_res a_feat_type a_channel a_log a_delta a_cmvn].
  rewrite Hf1, Hf2. unfold ret at 1 2 3. cbn [bind map_res]. now rewrite Ho1, Ho2.
Qed.

End ExtraBatchAxis.

(* ================================================================== *)
(** * CMVN on a single frame *)
(* ================================================================== *)

Section CmvnEdges.

(** X11. A feature of one frame has no deviation ([torch.std] divides by
    [n - 1], here [0 / 0]): with [cmvn] every value of the result is NaN,
    whatever the values before, and the stabiliser does not help. *)
Theorem cmvn_single_frame (variables : variables_t) (ft : string) (channel : Z)
    (log : bool) (delta : Z) (feats : Tensor fval) (pre : list nat) :
  select_feat variables ft channel log delta false = ret feats ->
  shape feats = pre ++ [1] -> wf feats ->
  exists out,
    select_feat variables ft channel log delta true = ret out
    /\ shape out = shape feats
    /\ data out = repeat NaN (length (data feats)).
Proof.
  intros Hfeats Hsh Hwf.
  exists (mkTensor (shape feats) (repeat NaN (length (data feats)))).
  split; [| split; reflexivity].
  rewrite select_feat_cmvn, Hfeats. cbn [bind ret].
  rewrite (cmvn_normalize_rows feats pre 1 Hsh Hwf). unfold ret. do 2 f_equal.
  assert (Hl : length (data feats) = numel pre).
  { unfold wf in Hwf. rewrite Hwf, Hsh. numel_norm. lia. }
  rewrite Hl. clear Hfeats Hsh Hwf. revert Hl.
  generalize (data feats) as d. generalize (numel pre) as n.
  induction n as [| n IH]; intros d Hl; [reflexivity |].
  destruct d as [| x d]; [discriminate |].
  unfold rows. cbn [seq map flat_map repeat].
  replace (row 1 (x :: d) 0) with [x] by reflexivity.
  rewrite cmvn_row_single. cbn [app]. f_equal.
  rewrite <- (IH d) by (cbn in Hl; lia). unfold rows.
  rewrite <- seq_shift, map_map. reflexivity.
Qed.

End CmvnEdges.

(* ================================================================== *)
(** * [get_feat_config] and the requests it builds *)
(* ================================================================== *)

Section Configs.

Context {A : Type} {SO : ScalarOps A} {TO : TransformOps A}.

Lemma known_feat_type (ft : string) :
  existsb (String.eqb ft) ["complx"; "linear"; "phase"; "mel"; "mfcc"]%string = true
  <-> In ft feature_names.
Proof.
  rewrite existsb_exists. unfold feature_names. split.
  - intros (x & Hin & Heq). apply String.eqb_eq in Heq. now subst x.
  - intros Hin. exists ft. split; [exact Hin | apply String.eqb_refl].
Qed.

(** [get_feat_config] returns the dictionary of its five arguments when
    they have the types and values of its assertions. *)
Lemma get_feat_config_accepts (ft : string) (ch : Z) (lg : bool) (d : Z) (cm : bool) :
  In ft feature_names -> (0 <= d)%Z ->
  get_feat_config (ArgStr ft) (ArgInt ch) (ArgBool lg) (ArgInt d) (ArgBool cm)
  = ret (mkFeatArgs (Some ft) (Some ch) (Some lg) (Some d) (Some cm)).
Proof.
  intros Hin Hd. unfold get_feat_config. apply known_feat_type in Hin. rewrite Hin.
  cbn [py_assert bind ret].
  destruct (Z.leb_spec 0 d) as [_ | Hneg]; [reflexivity | lia].
Qed.

(** Every other call fails one of the five assertions. *)
Lemma get_feat_config_refuses (feat_type channel log delta cmvn : pyarg) :
  (exists ft ch lg d cm,
     feat_type = ArgStr ft /\ In ft feature_names /\ channel = ArgInt ch
     /\ log = ArgBool lg /\ delta = ArgInt d /\ (0 <= d)%Z /\ cmvn = ArgBool cm)
  \/ get_feat_config feat_type channel log delta cmvn = raise AssertionError.
Proof.
  unfold get_feat_config.
  destruct feat_type as [ft | | | | |]; try (right; reflexivity).
  destruct (existsb _ _) eqn:Eft; [| right; reflexivity].
  apply known_feat_type in Eft. cbn [py_assert bind ret].
  destruct channel as [| ch | | | |]; try (right; reflexivity).
  destruct log as [| | lg | | |]; try (right; reflexivity).
  destruct delta as [| d | | | |]; try (right; reflexivity).
  destruct (Z.leb_spec 0 d) as [Hd | Hneg]; [| right; reflexivity].
  destruct cmvn as [| | cm | | |]; try (right; reflexivity).
  left. exists ft, ch, lg, d, cm. repeat split; assumption.
Qed.

Lemma representation_named (v : Features A) (B C fr n_freq n_mels n_mfcc : nat)
    (ft : string) :
  features_sized v B C fr n_freq n_mels n_mfcc -> In ft feature_names ->
  exists t, representation v ft = Some t
    /\ shape t = [B; C; feature_size n_freq n_mels n_mfcc ft; fr] /\ wf t.
Proof.
  intros ((Hc & Hcw) & (Hl & Hlw) & (Hp & Hpw) & (Hm & Hmw) & (Hf & Hfw)) Hin.
  unfold feature_names in Hin. cbn in Hin.
  destruct Hin as [<- | [<- | [<- | [<- | [<- | []]]]]];
    eexists; (split; [reflexivity |]); split; assumption.
Qed.

(** X12. [get_feat_config] returns the dictionary of its five arguments
    exactly when [feat_type] is one of the five names, [channel] an [int],
    [log] a [bool], [delta] an [int] that is not negative and [cmvn] a
    [bool]; every other call raises [AssertionError] (a [bool] is no [int]
    here, and the value of the channel is not examined). A dictionary it
    returns is served by [forward] on every batched waveform that has the
    channel: the output has [delta + 1] blocks of the features of the
    named representation for every frame. *)
Theorem get_feat_config_contract (self : OnlinePreprocessor A) (wavs : Tensor A)
    (B C T n_freq n_mels n_mfcc : nat)
    (feat_type channel log delta cmvn : pyarg) :
  shape wavs = [B; C; T] -> wf wavs -> 0 < B -> 0 < C ->
  valid_config self n_freq -> n_freq - 1 < T ->
  0 < n_mels -> 0 < n_mfcc ->
  melscale_contract self n_mels -> mfcc_contract self n_freq n_mfcc ->
  ((exists ft ch lg d cm,
      feat_type = ArgStr ft /\ In ft feature_names /\ channel = ArgInt ch
      /\ log = ArgBool lg /\ delta = ArgInt d /\ (0 <= d)%Z /\ cmvn = ArgBool cm)
   \/ get_feat_config feat_type channel log delta cmvn = raise AssertionError)
  /\ (forall ft ch lg d cm,
        feat_type = ArgStr ft -> In ft feature_names -> channel = ArgInt ch ->
        log = ArgBool lg -> delta = ArgInt d -> (0 <= d)%Z -> cmvn = ArgBool cm ->
        get_feat_config feat_type channel log delta cmvn
        = ret (mkFeatArgs (Some ft) (Some ch) (Some lg) (Some d) (Some cm))
        /\ ((- Z.of_nat C <= ch < Z.of_nat C)%Z ->
            exists o,
              forward self (Some wavs)
                (Some [mkFeatArgs (Some ft) (Some ch) (Some lg) (Some d) (Some cm)])
              = (all_transforms, ret [o])
              /\ shape o = [B; T / Z.to_nat (hop_length self) + 1;
                            (Z.to_nat d + 1) * feature_size n_freq n_mels n_mfcc ft]
              /\ wf o)).
Proof.
  intros Hsh Hwf HB HC Hcfg HT Hnm Hnc Cmel Cmfcc.
  split; [apply get_feat_config_refuses |].
  intros ft ch lg d cm -> Hin -> -> -> Hd ->.
  split; [now apply get_feat_config_accepts |]. intros Hch.
  destruct (compute_features_ok self wavs B C T n_freq n_mels n_mfcc
              Hsh Hwf HB HC Hcfg HT Cmel Cmfcc) as (v & Hv & Hsized).
  set (fr := T / Z.to_nat (hop_length self) + 1) in *.
  assert (Hnf : 0 < n_freq) by (destruct Hcfg; lia).
  assert (Hfr : 0 < fr) by (unfold fr; lia).
  assert (Hdim : 3 <= dim wavs) by (unfold dim; rewrite Hsh; cbn; lia).
  destruct (representation_named v B C fr n_freq n_mels n_mfcc ft Hsized Hin)
    as (t & Hr & Hts & Htw).
  set (D := feature_size n_freq n_mels n_mfcc ft) in *.
  assert (HD : 0 < D).
  { unfold D, feature_size. unfold feature_names in Hin. cbn in Hin.
    destruct Hin as [<- | [<- | [<- | [<- | [<- | []]]]]]; cbn; lia. }
  destruct (feature_steps_ok t [B] C D fr ch lg d cm Hts Htw Hch)
    as (f & Hfs & Hfsh & Hfwf).
  { numel_norm. nia. }
  cbn [app] in Hfsh.
  destruct (transpose_last2_ok f [B] ((Z.to_nat d + 1) * D) fr Hfsh Hfwf)
    as (o & Ho & Hos & How).
  cbn [app] in Hos.
  exists o. split; [| split; assumption].
  rewrite (forward_selects self wavs v _ Hdim Hv). f_equal.
  apply select_all_single. unfold request_output.
  rewrite (call_select_feat_steps wavs v
             (mkFeatArgs (Some ft) (Some ch) (Some lg) (Some d) (Some cm))
             ft t eq_refl Hr).
  unfold request_steps, request_channel. cbn [a_channel a_log a_delta a_cmvn].
  rewrite Hfs. exact Ho.
Qed.

End Configs.

(* ================================================================== *)
(** * The entries of [istft] *)
(* ================================================================== *)

Section Broadcasting.

Context {A : Type}.

Lemma broadcast_rev_same (r : list nat) : broadcast_rev r r = Some r.
Proof.
  induction r as [| n r IH]; [reflexivity |].
  cbn [broadcast_rev]. now rewrite IH, Nat.eqb_refl.
Qed.

Lemma broadcast_shapes_same (sh : list nat) : broadcast_shapes sh sh = Some sh.
Proof.
  unfold broadcast_shapes. rewrite broadcast_rev_same. cbn [option_map].
  now rewrite rev_involutive.
Qed.

(** A last size 1 against a last size [m]. *)
Lemma broadcast_shapes_last (sh : list nat) (m : nat) :
  broadcast_shapes (sh ++ [1]) (sh ++ [m]) = Some (sh ++ [m]).
Proof.
  unfold broadcast_shapes. rewrite !rev_app_distr. cbn [rev app broadcast_rev].
  rewrite broadcast_rev_same.
  destruct (Nat.eqb_spec 1 m) as [<- | _]; cbn [option_map rev Nat.eqb];
    now rewrite rev_involutive.
Qed.

Lemma ravel_unravel (sh : list nat) (k : nat) :
  numel sh <> 0 -> ravel sh (unravel sh k) = k mod numel sh.
Proof.
  induction sh as [| n sh IH]; intros Hn.
  - cbn. reflexivity.
  - rewrite numel_cons in Hn. cbn [unravel ravel]. rewrite IH by nia.
    rewrite numel_cons.
    destruct (Nat.eqb_spec n 1) as [-> | _].
    + now rewrite Nat.mul_1_l.
    + rewrite (Nat.mul_comm n), Nat.Div0.mod_mul_r. lia.
Qed.

Lemma ravel_unravel_last (sh : list nat) (m k : nat) :
  ravel (sh ++ [1]) (unravel (sh ++ [m]) k) = (k / m) mod numel sh.
Proof.
  induction sh as [| n sh IH].
  - cbn [app unravel ravel Nat.eqb]. rewrite numel_nil, Nat.mod_1_r. reflexivity.
  - cbn [app unravel ravel]. rewrite IH. rewrite !numel_app, numel_cons.
    numel_norm. rewrite !Nat.mul_1_r.
    replace (k / (numel sh * m)) with (k / m / numel sh)
      by (now rewrite Nat.Div0.div_div, (Nat.mul_comm m)).
    destruct (Nat.eqb_spec n 1) as [-> | _].
    + now rewrite Nat.mul_1_l.
    + rewrite (Nat.mul_comm n), Nat.Div0.mod_mul_r. lia.
Qed.

Lemma gather_pointwise (g h : nat -> nat) (n : nat) (l : list A) :
  (forall k, k < n -> g k = h k) ->
  gather (map g (seq 0 n)) l = gather (map h (seq 0 n)) l.
Proof.
  intros Hgh. f_equal. apply map_ext_in. intros k Hk. apply Hgh.
  apply in_seq in Hk. lia.
Qed.

Lemma gather_identity (l : list A) :
  gather (map (fun k => k) (seq 0 (length l))) l = l.
Proof.
  apply list_eq_by_nth.
  - now apply length_gather_seq.
  - intros k Hk. rewrite length_gather_seq in Hk by auto.
    now rewrite nth_error_gather by auto.
Qed.

Lemma gather_halves (l : list A) :
  gather (map (fun k => k / 2) (seq 0 (length l * 2))) l
  = flat_map (fun x => [x; x]) l.
Proof.
  assert (Hb : forall j, j < length l * 2 -> j / 2 < length l)
    by (intros j Hj; apply Nat.Div0.div_lt_upper_bound; lia).
  assert (Hlen : length (flat_map (fun x : A => [x; x]) l) = length l * 2).
  { rewrite (flat_map_constant_length (c := 2)) by reflexivity. lia. }
  apply list_eq_by_nth.
  - rewrite length_gather_seq by exact Hb. now rewrite Hlen.
  - intros k Hk. rewrite length_gather_seq in Hk by exact Hb.
    rewrite nth_error_gather by assumption.
    destruct (block_decompose k (length l) 2 Hk) as (Hq & Hr & Ek).
    destruct (nth_error l (k / 2)) as [x |] eqn:Ex;
      [| apply nth_error_None in Ex; lia].
    rewrite Ek at 1.
    rewrite (nth_error_flat_map_block (fun x => [x; x]) l 2 (k / 2) (k mod 2) x);
      [| reflexivity | exact Ex | exact Hr].
    destruct (k mod 2) as [| [| ?]]; [reflexivity | reflexivity | lia].
Qed.

(** A tensor broadcast to its own sizes, and a tensor with last size 1
    broadcast to last size 2. *)
Lemma broadcast_to_same (t : Tensor A) :
  wf t -> broadcast_to (shape t) t = data t.
Proof.
  intros Hwf. unfold broadcast_to, broadcast_index.
  rewrite Nat.sub_diag. cbn [skipn].
  rewrite (gather_pointwise _ (fun k => k) (numel (shape t))).
  - rewrite <- Hwf. apply gather_identity.
  - intros k Hk. rewrite ravel_unravel by lia. now apply Nat.mod_small.
Qed.

Lemma broadcast_to_self (sh : list nat) (d : list A) :
  length d = numel sh -> broadcast_to sh (mkTensor sh d) = d.
Proof. intros Hl. now apply (broadcast_to_same (mkTensor sh d)). Qed.

Lemma broadcast_to_pairs (sh : list nat) (d : list A) :
  length d = numel sh ->
  broadcast_to (sh ++ [2]) (mkTensor (sh ++ [1]) d) = flat_map (fun x => [x; x]) d.
Proof.
  intros Hlen. unfold broadcast_to, broadcast_index. cbn [shape data].
  rewrite !length_app. cbn [length]. rewrite Nat.sub_diag. cbn [skipn].
  rewrite numel_app. numel_norm. rewrite <- Hlen.
  rewrite (gather_pointwise _ (fun k => k / 2) (length d * 2)).
  - apply gather_halves.
  - intros k Hk. rewrite ravel_unravel_last, <- Hlen. apply Nat.mod_small.
    apply Nat.Div0.div_lt_upper_bound. lia.
Qed.

End Broadcasting.

Section PolarEntry.

Context {A : Type} {SO : ScalarOps A} {TO : TransformOps A}.

Lemma zip_polar (q : Q) (ms ps : list A) :
  zip_with f_mul (flat_map (fun x => [x; x]) (map (fun x => f_pow x q) ms))
                 (flat_map (fun p => [fst p; snd p])
                           (combine (map f_cos ps) (map f_sin ps)))
  = polar_pairs q ms ps.
Proof.
  unfold polar_pairs, polar_pair. revert ps.
  induction ms as [| m ms IH]; intros [| p ps]; try reflexivity.
  cbn [map combine flat_map app zip_with fst snd]. now rewrite IH.
Qed.

(** X13. The arguments of [istft]. Without [complxs] it needs both
    [linears] and [phases] and fails its assertion otherwise; with
    [complxs] it looks neither at them nor at [linear_power]. On the
    magnitude and phase entry, [1 / linear_power] of line 126 is Python's
    division: a power of 0 raises [ZeroDivisionError], after the
    transposition of line 125 has been done. *)
Theorem istft_argument_errors (self : OnlinePreprocessor A) (l p : Tensor A) :
  wf l -> wf p -> 2 <= dim l -> 2 <= dim p ->
  istft self (Some l) (Some p) 0 None = raise ZeroDivisionError
  /\ (forall p' pw, istft self None p' pw None = raise AssertionError)
  /\ (forall l' pw, istft self l' None pw None = raise AssertionError)
  /\ (forall l1 p1 pw1 l2 p2 pw2 c,
        istft self l1 p1 pw1 (Some c) = istft self l2 p2 pw2 (Some c)).
Proof.
  intros Hl Hp Hdl Hdp. split; [| split; [| split]].
  - destruct (shape_last2 (shape l) Hdl) as (pre & X & Y & Hsl).
    destruct (shape_last2 (shape p) Hdp) as (pre' & X' & Y' & Hsp).
    destruct (transpose_last2_ok l pre X Y Hsl Hl) as (l' & Hl' & _).
    destruct (transpose_last2_ok p pre' X' Y' Hsp Hp) as (p' & Hp' & _).
    unfold istft, _transpose_list. cbn [py_assert bind ret map_res].
    rewrite Hl', Hp'. reflexivity.
  - intros p' pw. reflexivity.
  - intros [l' |] pw; reflexivity.
  - intros l1 p1 pw1 l2 p2 pw2 c. reflexivity.
Qed.

(** The magnitude and phase entry of [istft], up to the library inverse. *)
Lemma istft_polar_paired (self : OnlinePreprocessor A) (l p : Tensor A)
    (pre : list nat) (fr F : nat) (linear_power : Z) :
  shape l = pre ++ [fr; F] -> shape p = pre ++ [fr; F] -> wf l -> wf p ->
  linear_power <> 0%Z ->
  exists l' p',
    transpose_last2 l = ret l' /\ transpose_last2 p = ret p'
    /\ shape l' = pre ++ [F; fr] /\ shape p' = pre ++ [F; fr]
    /\ istft self (Some l) (Some p) linear_power None
       = _istft self (mkTensor (pre ++ [F; fr; 2])
                        (polar_pairs (Qinv (inject_Z linear_power)) (data l') (data p'))).
Proof.
  intros Hsl Hsp Hwl Hwp Hpw.
  destruct (transpose_last2_ok l pre fr F Hsl Hwl) as (l' & Hl' & Hsl' & Hwl').
  destruct (transpose_last2_ok p pre fr F Hsp Hwp) as (p' & Hp' & Hsp' & Hwp').
  exists l', p'. repeat split; try assumption.
  unfold istft, _transpose_list. cbn [py_assert bind ret map_res].
  rewrite Hl', Hp'. unfold ret at 1 2. cbn [bind].
  destruct (Z.eqb_spec linear_power 0) as [E | _]; [contradiction |].
  unfold stack_last, tmap. cbn [shape data]. rewrite shape_eqb_refl. cbn [bind ret].
  unfold tmul, unsqueeze_last. cbn [shape data].
  rewrite Hsl', Hsp'. rewrite broadcast_shapes_last. cbn [bind ret].
  rewrite (broadcast_to_pairs (pre ++ [F; fr])).
  2:{ rewrite length_map. unfold wf in Hwl'. now rewrite Hwl', Hsl'. }
  rewrite broadcast_to_self.
  2:{ rewrite (flat_map_constant_length (c := 2)) by reflexivity.
      rewrite length_combine, !length_map, Nat.min_id.
      unfold wf in Hwp'. rewrite Hwp', Hsp'. rewrite numel_app. numel_norm. ring. }
  rewrite zip_polar. cbn [shape].
  rewrite (rev_app_distr (pre ++ [F; fr]) [2]). cbn [rev app Nat.eqb negb bind ret].
  now rewrite <- app_assoc.
Qed.

(** X14. The magnitude and phase entry of [istft]: both tensors
    [(.., frames, bins)] are transposed to [(.., bins, frames)], every
    magnitude [m] and phase [p] becomes the pair
    [m ** (1 / linear_power) * (cos p, sin p)], and the paired tensor
    [(.., bins, frames, 2)], which has one pair for every bin and frame,
    goes to the library inverse as it is. *)
Theorem istft_polar_entry (self : OnlinePreprocessor A) (l p : Tensor A)
    (pre : list nat) (fr F : nat) (linear_power : Z) :
  shape l = pre ++ [fr; F] -> shape p = pre ++ [fr; F] -> wf l -> wf p ->
  linear_power <> 0%Z ->
  exists l' p',
    transpose_last2 l = ret l' /\ transpose_last2 p = ret p'
    /\ shape l' = pre ++ [F; fr] /\ shape p' = pre ++ [F; fr]
    /\ istft self (Some l) (Some p) linear_power None
       = _istft self (mkTensor (pre ++ [F; fr; 2])
                        (polar_pairs (Qinv (inject_Z linear_power)) (data l') (data p')))
    /\ wf (mkTensor (pre ++ [F; fr; 2])
             (polar_pairs (Qinv (inject_Z linear_power)) (data l') (data p'))).
Proof.
  intros Hsl Hsp Hwl Hwp Hpw.
  destruct (istft_polar_paired self l p pre fr F linear_power Hsl Hsp Hwl Hwp Hpw)
    as (l' & p' & Hl' & Hp' & Hsl' & Hsp' & Hi).
  destruct (transpose_last2_ok l pre fr F Hsl Hwl) as (l2 & Hl2 & _ & Hwl2).
  destruct (transpose_last2_ok p pre fr F Hsp Hwp) as (p2 & Hp2 & _ & Hwp2).
  assert (l2 = l') by (unfold ret in *; congruence). subst l2.
  assert (p2 = p') by (unfold ret in *; congruence). subst p2.
  exists l', p'. repeat split; try assumption.
  unfold wf in *. unfold polar_pairs. cbn [shape data].
  rewrite (flat_map_constant_length (c := 2)) by reflexivity.
  rewrite length_combine, Hwl2, Hwp2, Hsl', Hsp', Nat.min_id.
  rewrite !numel_app. numel_norm. ring.
Qed.

End PolarEntry.

(* ================================================================== *)
(** * The complex feature of [forward], fed back to [istft] *)
(* ================================================================== *)

Section ComplxRoundTrip.

Context {A : Type} {SO : ScalarOps A} {TO : TransformOps A}.

Lemma swap_index_digits (X Y Z b x y z : nat) :
  x < X -> y < Y -> z < Z ->
  swap_index X Y Z (((b * Y + y) * X + x) * Z + z) = ((b * X + x) * Y + y) * Z + z.
Proof.
  intros Hx Hy Hz. unfold swap_index. cbv zeta.
  rewrite (mod_block _ Z z Hz), (div_block _ Z z Hz).
  rewrite (mod_block _ X x Hx), (div_block _ X x Hx).
  rewrite (mod_block _ Y y Hy), (div_block _ Y y Hy). reflexivity.
Qed.

Lemma select_index_digits (n Z i b r : nat) :
  r < Z -> select_index n Z i (b * Z + r) = (b * n + i) * Z + r.
Proof.
  intros Hr. unfold select_index. now rewrite (mod_block _ Z r Hr), (div_block _ Z r Hr).
Qed.

Lemma gather_gather (g h : nat -> nat) (n m : nat) (l : list A) :
  (forall k, k < n -> g k < m) ->
  (forall j, j < m -> h j < length l) ->
  gather (map g (seq 0 n)) (gather (map h (seq 0 m)) l)
  = gather (map (fun k => h (g k)) (seq 0 n)) l.
Proof.
  intros Hg Hh.
  assert (Hlen : length (gather (map h (seq 0 m)) l) = m) by (now apply length_gather_seq).
  apply list_eq_by_nth.
  - rewrite !length_gather_seq; auto. intros j Hj. rewrite Hlen. auto.
  - intros k Hk. rewrite length_gather_seq in Hk by (intros j Hj; rewrite Hlen; auto).
    rewrite nth_error_gather by (try (intros j Hj; rewrite Hlen); auto).
    rewrite nth_error_gather by auto.
    now rewrite nth_error_gather by auto.
Qed.

Lemma transpose_adjacent_data (t : Tensor A) (pre : list nat) (X Y : nat) (post : list nat) :
  shape t = pre ++ X :: Y :: post ->
  transpose_adjacent (length post) t
  = ret (mkTensor (pre ++ Y :: X :: post)
           (gather (map (swap_index X Y (numel post)) (seq 0 (numel (shape t)))) (data t))).
Proof.
  intros Hsh. unfold transpose_adjacent. rewrite Hsh.
  now rewrite (split_end_app (length post + 2) pre (X :: Y :: post)) by (cbn; lia).
Qed.

Lemma select_data (t : Tensor A) (pre : list nat) (n : nat) (post : list nat)
    (index : Z) (i : nat) :
  shape t = pre ++ n :: post -> norm_index n index = ret i ->
  select (length post) index t
  = ret (mkTensor (pre ++ post)
           (gather (map (select_index n (numel post) i) (seq 0 (numel pre * numel post)))
                   (data t))).
Proof.
  intros Hsh Hi. unfold select. rewrite Hsh.
  rewrite (split_end_app (length post + 1) pre (n :: post)) by (cbn; lia).
  now rewrite Hi.
Qed.

(** The positions that the two transpositions of [forward], its channel
    selection and the transposition of [istft] read, composed: those of the
    channel in the paired spectrogram. *)
Lemma complx_positions (B C F fr i k : nat) :
  i < C -> k < B * (F * fr * 2) ->
  swap_index fr 2 1
    (select_index C (F * 2 * fr) i
       (swap_index (F * 2) fr 1 (swap_index fr F 2 k)))
  = select_index C (F * fr * 2) i k.
Proof.
  intros Hi Hk.
  destruct (paired_digits B F fr k Hk) as (Hc & Ht & Hf & Hb & Ek).
  set (c := k mod 2) in *. set (t := k / 2 mod fr) in *.
  set (f := k / 2 / fr mod F) in *. set (b := k / 2 / fr / F) in *.
  rewrite Ek.
  rewrite (swap_index_digits fr F 2 b t f c Ht Hf Hc).
  assert (Hfc : f * 2 + c < F * 2) by (apply block_bound; assumption).
  replace (((b * fr + t) * F + f) * 2 + c)
    with (((b * fr + t) * (F * 2) + (f * 2 + c)) * 1 + 0) by ring.
  rewrite (swap_index_digits (F * 2) fr 1 b (f * 2 + c) t 0 Hfc Ht ltac:(lia)).
  assert (Hr : (f * 2 + c) * fr + t < F * 2 * fr) by (apply block_bound; assumption).
  replace (((b * (F * 2) + (f * 2 + c)) * fr + t) * 1 + 0)
    with (b * (F * 2 * fr) + ((f * 2 + c) * fr + t)) by ring.
  rewrite (select_index_digits C (F * 2 * fr) i b _ Hr).
  replace ((b * C + i) * (F * 2 * fr) + ((f * 2 + c) * fr + t))
    with (((((b * C + i) * F + f) * 2 + c) * fr + t) * 1 + 0) by ring.
  rewrite (swap_index_digits fr 2 1 ((b * C + i) * F + f) t c 0 Ht Hc ltac:(lia)).
  assert (Hr' : (f * fr + t) * 2 + c < F * fr * 2).
  { apply block_bound; [| exact Hc]. apply block_bound; assumption. }
  replace (((b * F + f) * fr + t) * 2 + c)
    with (b * (F * fr * 2) + ((f * fr + t) * 2 + c)) by ring.
  rewrite (select_index_digits C (F * fr * 2) i b _ Hr'). ring.
Qed.

End ComplxRoundTrip.

Section ComplxFeedsIstft.

Context {A : Type} {SO : ScalarOps A} {TO : TransformOps A}.

Lemma complx_data (B C F fr i : nat) (d : list A) :
  i < C -> length d = B * (C * (F * (fr * 2))) ->
  gather (map (swap_index fr F 2) (seq 0 (B * (F * fr * 2))))
    (gather (map (swap_index (F * 2) fr 1) (seq 0 (B * (F * 2 * fr))))
       (gather (map (select_index C (F * 2 * fr) i) (seq 0 (B * (F * 2 * fr))))
          (gather (map (swap_index fr 2 1) (seq 0 (B * (C * (F * (fr * 2)))))) d)))
  = gather (map (select_index C (F * fr * 2) i) (seq 0 (B * (F * fr * 2)))) d.
Proof.
  intros Hi Hd.
  set (N := B * (C * (F * (fr * 2)))) in *.
  set (M := B * (F * 2 * fr)).
  assert (H1 : forall j, j < N -> swap_index fr 2 1 j < length d).
  { intros j Hj. rewrite Hd.
    replace N with ((B * C * F) * (fr * (2 * 1))) in * by (unfold N; ring).
    now apply swap_index_bound. }
  assert (H2 : forall j, j < M -> select_index C (F * 2 * fr) i j < N).
  { intros j Hj. replace N with (B * (C * (F * 2 * fr))) by (unfold N; ring).
    now apply select_index_bound. }
  assert (H3 : forall j, j < M -> swap_index (F * 2) fr 1 j < M).
  { intros j Hj. replace M with (B * ((F * 2) * (fr * 1))) in * by (unfold M; ring).
    now apply swap_index_bound. }
  assert (H4 : forall j, j < B * (F * fr * 2) -> swap_index fr F 2 j < M).
  { intros j Hj. replace M with (B * (fr * (F * 2))) by (unfold M; ring).
    apply swap_index_bound. replace (B * (fr * (F * 2))) with (B * (F * fr * 2)) by ring.
    exact Hj. }
  rewrite (gather_gather (select_index C (F * 2 * fr) i) (swap_index fr 2 1) M N d H2 H1).
  rewrite (gather_gather (swap_index (F * 2) fr 1) _ M M d H3)
    by (intros j Hj; auto).
  rewrite (gather_gather (swap_index fr F 2) _ (B * (F * fr * 2)) M d H4)
    by (intros j Hj; auto).
  apply gather_pointwise. intros k Hk. now apply complx_positions with (B := B).
Qed.

(** The five representations, with the complex one as lines 90-96 make it. *)
Lemma compute_features_complx (self : OnlinePreprocessor A) (wavs : Tensor A)
    (B C T n_freq n_mels n_mfcc : nat) :
  shape wavs = [B; C; T] -> wf wavs -> 0 < B -> 0 < C ->
  valid_config self n_freq -> n_freq - 1 < T ->
  melscale_contract self n_mels -> mfcc_contract self n_freq n_mfcc ->
  exists v cx ct,
    compute_features self wavs = (all_transforms, ret v)
    /\ analyze self wavs = ret cx
    /\ shape cx = [B; C; n_freq; T / Z.to_nat (hop_length self) + 1; 2] /\ wf cx
    /\ transpose_last2 cx = ret ct
    /\ complx v = mkTensor [B; C; n_freq * 2; T / Z.to_nat (hop_length self) + 1] (data ct)
    /\ wf (complx v).
Proof.
  intros Hsh Hwf HB HC Hcfg HT (fmel & Hmel & Cmel) (fmfcc & Hmfcc & Cmfcc).
  set (fr := T / Z.to_nat (hop_length self) + 1).
  pose proof (analyze_ok self wavs [B] C T n_freq Hsh Hwf Hcfg HT) as Ha.
  cbn [app] in Ha. fold fr in Ha.
  pose proof (analyze_wf self wavs [B] C T n_freq _ Hsh Hwf Hcfg HT Ha) as Hcw.
  set (cx := mkTensor [B; C; n_freq; fr; 2] _) in *.
  destruct (magphase_ok 2%Q cx [B; C; n_freq; fr] eq_refl Hcw)
    as (lin & ph & Hmp & Hls & Hlw & Hps & Hpw).
  destruct (Cmel lin [B; C] n_freq fr Hls Hlw) as (ml & Hml & Hmls & Hmlw).
  destruct (Cmfcc wavs [B] C T Hsh Hwf HT) as (mf & Hmf & Hmfs & Hmfw).
  cbn [app] in Hmls, Hmfs. fold fr in Hmfs.
  destruct (transpose_last2_ok cx [B; C; n_freq] fr 2 eq_refl Hcw)
    as (ct & Hct & Hcts & Hctw).
  cbn [app] in Hcts.
  assert (Hre : reshape ct (sizes (firstn 2 (shape mf))
                            ++ [(-1)%Z; Z.of_nat (last (shape mf) 0)])
                = ret (mkTensor [B; C; n_freq * 2; fr] (data ct))).
  { rewrite Hmfs. cbn [firstn last].
    change (sizes [B; C] ++ [(-1)%Z; Z.of_nat fr])
      with (sizes [B; C] ++ (-1)%Z :: sizes [fr]).
    rewrite (reshape_infer ct [B; C] [fr] (n_freq * 2)); [reflexivity | |].
    - rewrite Hcts. numel_norm. ring.
    - numel_norm. unfold fr. nia. }
  exists (mkFeatures (mkTensor [B; C; n_freq * 2; fr] (data ct)) lin ph ml mf), cx, ct.
  repeat split; try assumption; try reflexivity.
  - unfold compute_features, all_transforms. rewrite Ha.
    apply tbind_transform_ret. unfold _magphase. rewrite Hmp.
    apply tbind_transform_ret. rewrite Hmel. cbn [getattr]. rewrite tbind_lift_ret.
    rewrite Hml. apply tbind_transform_ret.
    rewrite Hmfcc. cbn [getattr]. rewrite tbind_lift_ret.
    rewrite Hmf. apply tbind_transform_ret.
    rewrite Hct. cbn [bind ret]. rewrite Hmfs at 1. rewrite Hre.
    rewrite tbind_lift_ret. reflexivity.
  - cbn [complx]. unfold wf in *. cbn [shape data]. rewrite Hctw, Hcts. numel_norm. ring.
Qed.

(** X15. What [forward] returns for ["complx"] is the layout that [istft]
    takes apart again: the transpositions and reshapes of lines 96, 116 and
    130 cancel, and feeding the feature back runs the library inverse on
    exactly the paired spectrogram of the requested channel, as the
    analysis produced it. *)
Theorem forward_complx_feeds_istft (self : OnlinePreprocessor A) (wavs : Tensor A)
    (B C T n_freq n_mels n_mfcc : nat) (ch linear_power : Z) :
  shape wavs = [B; C; T] -> wf wavs -> 0 < B -> 0 < C ->
  valid_config self n_freq -> n_freq - 1 < T ->
  melscale_contract self n_mels -> mfcc_contract self n_freq n_mfcc ->
  (- Z.of_nat C <= ch < Z.of_nat C)%Z ->
  exists complxs cx cs,
    forward self (Some wavs) (Some [feat_channel "complx" ch])
    = (all_transforms, ret [complxs])
    /\ analyze self wavs = ret cx
    /\ select 3 ch cx = ret cs
    /\ shape cs = [B; n_freq; T / Z.to_nat (hop_length self) + 1; 2]
    /\ istft self None None linear_power (Some complxs) = _istft self cs.
Proof.
  intros Hsh Hwf HB HC Hcfg HT Cmel Cmfcc Hch.
  destruct (compute_features_complx self wavs B C T n_freq n_mels n_mfcc
              Hsh Hwf HB HC Hcfg HT Cmel Cmfcc)
    as (v & cx & ct & Hv & Ha & Hcxs & Hcxw & Hct & Hcv & Hcvw).
  set (fr := T / Z.to_nat (hop_length self) + 1) in *.
  set (F := n_freq) in *.
  assert (HF : 2 <= F) by (destruct Hcfg; assumption).
  assert (Hdim : 3 <= dim wavs) by (unfold dim; rewrite Hsh; cbn; lia).
  destruct (norm_index_ok C ch Hch) as (i & Hi & HiC).
  (* the transposition of line 96 *)
  pose proof (transpose_adjacent_data cx [B; C; F] fr 2 [] Hcxs) as Hct'.
  cbn [length] in Hct'. fold (transpose_last2 (A:=A)) in Hct'.
  rewrite Hct in Hct'. unfold ret in Hct'. injection Hct' as Hct'.
  (* the channel of the complex feature, and its transposition *)
  assert (Hcvs : shape (complx v) = [B] ++ C :: [F * 2; fr]) by (now rewrite Hcv).
  pose proof (select_data (complx v) [B] C [F * 2; fr] ch i Hcvs Hi) as Hsel.
  cbn [length app] in Hsel.
  set (sel := mkTensor [B; F * 2; fr] _) in Hsel.
  destruct (select_ok (complx v) [B] C [F * 2; fr] ch Hcvs Hcvw Hch) as (sel' & Hsel' & _ & Hselw).
  cbn [length] in Hsel'. rewrite Hsel in Hsel'. unfold ret in Hsel'. injection Hsel' as <-.
  assert (Hsf : select_feat
                  (forward_locals wavs (complx v) (linear v) (phase v) (mel v) (mfcc v) false)
                  "complx" ch false 0 false = ret sel).
  { unfold select_feat. cbn [forward_locals app dict_get String.eqb Ascii.eqb Bool.eqb].
    cbn [bind ret]. rewrite Hsel. cbn [bind ret Z.to_nat delta_loop].
    rewrite (cat_feat_single sel [B] (F * 2) fr eq_refl Hselw). reflexivity. }
  pose proof (transpose_adjacent_data sel [B] (F * 2) fr [] eq_refl) as Ho.
  cbn [length app] in Ho. fold (transpose_last2 (A:=A)) in Ho.
  set (o := mkTensor [B; fr; F * 2] _) in Ho.
  (* the paired spectrogram of the channel *)
  assert (Hcxs' : shape cx = [B] ++ C :: [F; fr; 2]) by exact Hcxs.
  pose proof (select_data cx [B] C [F; fr; 2] ch i Hcxs' Hi) as Hcs.
  cbn [length app] in Hcs.
  set (cs := mkTensor [B; F; fr; 2] _) in Hcs.
  exists o, cx, cs. repeat split; try assumption.
  - rewrite (forward_selects self wavs v _ Hdim Hv). f_equal.
    apply select_all_single. unfold request_output, call_select_feat, feat_channel.
    cbn [a_feat_type a_channel a_log a_delta a_cmvn]. rewrite Hsf. exact Ho.
  - unfold istft. cbn [py_assert bind ret].
    assert (Hos : shape o = [B; fr; F * 2]) by reflexivity.
    rewrite Hos. cbn [rev app removelast].
    destruct (Nat.eqb_spec (F * 2) 2) as [E | _]; [lia |]. cbn [negb].
    change (sizes [B; fr] ++ [(-1)%Z; 2%Z]) with (sizes [B; fr] ++ (-1)%Z :: sizes [2]).
    rewrite (reshape_infer o [B; fr] [2] F);
      [| unfold o; cbn [shape]; numel_norm; ring | numel_norm; unfold fr; nia].
    cbn [bind ret app].
    pose proof (transpose_adjacent_data (mkTensor [B; fr; F; 2] (data o))
                  [B] fr F [2] eq_refl) as Htm.
    cbn [length] in Htm. fold (transpose_mid (A:=A)) in Htm. rewrite Htm.
    cbn [bind ret app]. f_equal. unfold cs. f_equal.
    unfold o, sel. cbn [shape data]. rewrite Hcv. cbn [data]. rewrite Hct'.
    cbn [data]. rewrite Hcxs.
    assert (Hd : length (data cx) = B * (C * (F * (fr * 2)))).
    { unfold wf in Hcxw. rewrite Hcxw, Hcxs. numel_norm. ring. }
    cbn [numel fold_right]. rewrite !Nat.mul_1_r.
    replace (B * (fr * (F * 2))) with (B * (F * fr * 2)) by ring.
    replace (B * (F * (fr * 2))) with (B * (F * fr * 2)) by ring.
    replace (select_index C (F * (fr * 2)) i) with (select_index C (F * fr * 2) i)
      by (f_equal; ring).
    exact (complx_data B C F fr i (data cx) HiC Hd).
Qed.

End ComplxFeedsIstft.

(* ================================================================== *)
(** * The length of the reconstruction *)
(* ================================================================== *)

Section SynthesisLength.

Context {A : Type} {SO : ScalarOps A} {TO : TransformOps A}.

(** The library inverse on a paired spectrogram of a batch. *)
Lemma istft_paired_ok (self : OnlinePreprocessor A) (s : Tensor A) (B fr n_freq : nat) :
  shape s = [B; n_freq; fr; 2] -> 0 < fr ->
  valid_config self n_freq ->
  (hop_length self <= win_length self)%Z ->
  nola_ok (pad_window (Z.to_nat (n_fft self)) (_window self))
          (Z.to_nat (hop_length self)) fr = true ->
  istft_length (Z.to_nat (n_fft self)) (Z.to_nat (hop_length self)) fr <> 0 ->
  exists r, _istft self s = ret r
    /\ shape r = [B; istft_length (Z.to_nat (n_fft self)) (Z.to_nat (hop_length self)) fr].
Proof.
  intros Hsh Hfr (Hf & Hn & Hh & Hw & Hl) Hhop Hnola Hlen.
  unfold _istft, istft_lib. rewrite Hsh. unfold istft_rows.
  assert (Hbins : ((n_fft self / 2 + 1 =? Z.of_nat n_freq) = true)%Z).
  { apply Z.eqb_eq. rewrite Hn, Nat2Z.inj_mul, Z.div_mul by lia. lia. }
  rewrite Hbins. cbn [py_assert bind ret].
  assert (Hhop' : ((0 <? hop_length self) && (hop_length self <=? win_length self) = true)%Z).
  { apply andb_true_iff. split; [apply Z.ltb_lt | apply Z.leb_le]; lia. }
  rewrite Hhop'. cbn [py_assert bind ret].
  assert (Hwin' : ((0 <? win_length self) && (win_length self <=? n_fft self) = true)%Z).
  { apply andb_true_iff. split; [apply Z.ltb_lt | apply Z.leb_le]; lia. }
  rewrite Hwin'. cbn [py_assert bind ret].
  rewrite Hl, Nat.eqb_refl. cbn [py_assert bind ret Nat.eqb negb orb].
  destruct (Nat.eqb_spec fr 0) as [E | _]; [lia |]. cbn [orb].
  destruct (Nat.eqb_spec
              (istft_length (Z.to_nat (n_fft self)) (Z.to_nat (hop_length self)) fr) 0)
    as [E | _]; [contradiction |].
  rewrite Hnola. cbn [py_assert bind ret].
  eexists. split; reflexivity.
Qed.

Lemma allclose_same_sizes (eps : Q) (a b : Tensor A) :
  shape a = shape b -> exists ok, allclose eps a b = ret ok.
Proof.
  intros E. unfold allclose. rewrite E, broadcast_shapes_same. eauto.
Qed.

(** X16. The analysis of [T] samples followed by the synthesis returns
    [T - T mod hop] samples for every batch item: no [length] is passed to
    the library inverse, so the last [T mod hop] samples are not
    reconstructed, and the result has the sizes of the selected channel
    exactly when the hop divides [T]. *)
Theorem analysis_synthesis_length (self : OnlinePreprocessor A) (wavs : Tensor A)
    (B C T n_freq n_mels n_mfcc : nat) (ch : Z) :
  shape wavs = [B; C; T] -> wf wavs -> 0 < B -> 0 < C ->
  valid_config self n_freq -> n_freq - 1 < T ->
  0 < n_mels -> 0 < n_mfcc ->
  melscale_contract self n_mels -> mfcc_contract self n_freq n_mfcc ->
  (hop_length self <= win_length self)%Z ->
  nola_ok (pad_window (Z.to_nat (n_fft self)) (_window self))
          (Z.to_nat (hop_length self)) (T / Z.to_nat (hop_length self) + 1) = true ->
  Z.to_nat (hop_length self) <= T ->
  (- Z.of_nat C <= ch < Z.of_nat C)%Z ->
  exists complxs r w,
    forward self (Some wavs) (Some [feat_channel "complx" ch])
    = (all_transforms, ret [complxs])
    /\ shape complxs = [B; T / Z.to_nat (hop_length self) + 1; n_freq * 2]
    /\ istft self None None 2 (Some complxs) = ret r
    /\ shape r = [B; T - T mod Z.to_nat (hop_length self)]
    /\ select 1 ch wavs = ret w /\ shape w = [B; T]
    /\ (shape r = shape w <-> T mod Z.to_nat (hop_length self) = 0).
Proof.
  intros Hsh Hwf HB HC Hcfg HT Hnm Hnc Cmel Cmfcc Hhop Hnola HhT Hch.
  destruct (compute_features_ok self wavs B C T n_freq n_mels n_mfcc
              Hsh Hwf HB HC Hcfg HT Cmel Cmfcc) as (v & Hv & Hsized).
  set (hp := Z.to_nat (hop_length self)) in *.
  set (fr := T / hp + 1) in *.
  set (vars := forward_locals wavs (complx v) (linear v) (phase v) (mel v) (mfcc v) false).
  assert (Hnf : 2 <= n_freq) by (destruct Hcfg; lia).
  assert (Hhp : 0 < hp) by (unfold hp; destruct Hcfg as (_ & _ & ? & _); lia).
  assert (Hfr : 0 < fr) by (unfold fr; lia).
  assert (Hdim : 3 <= dim wavs) by (unfold dim; rewrite Hsh; cbn; lia).
  destruct Hsized as ((Hc & Hcw) & _).
  destruct (plain_request_output wavs v B C (n_freq * 2) fr "complx" ch (complx v)
              eq_refl Hc Hcw Hch ltac:(nia)) as (o1 & Ho1 & Hs1 & Hw1).
  fold vars in Ho1.
  pose proof (Nat.div_mod_eq T hp) as Hdm.
  assert (Hlen : istft_length (Z.to_nat (n_fft self)) hp fr = T - T mod hp).
  { destruct Hcfg as (_ & Hn & _). rewrite Hn, Nat2Z.id.
    unfold fr. rewrite istft_length_roundtrip by exact Hnf. lia. }
  assert (Hq : 0 < T / hp) by (apply Nat.div_str_pos; lia).
  destruct (istft_complx_ok self o1 B fr n_freq 2 Hs1 Hw1 HB Hfr Hcfg Hhop Hnola)
    as (r1 & Hr1 & Hrs1).
  { fold hp. rewrite Hlen. nia. }
  fold hp in Hrs1. rewrite Hlen in Hrs1.
  destruct (select_ok wavs [B] C [T] ch Hsh Hwf Hch) as (w1 & Hw1' & Hws1 & _).
  cbn [length app] in Hw1', Hws1.
  exists o1, r1, w1. repeat split; try assumption.
  - rewrite (forward_selects self wavs v _ Hdim Hv). f_equal. fold vars.
    now apply select_all_single.
  - rewrite Hrs1, Hws1. intros E. injection E as E.
    pose proof (Nat.mod_upper_bound T hp ltac:(lia)). lia.
  - intros E. rewrite Hrs1, Hws1, E. now rewrite Nat.sub_0_r.
Qed.

(** X17. When the hop divides [T], both comparisons of [test_istft] are
    between tensors of equal sizes, on the complex entry and on the
    magnitude and phase entry: after the four transforms the self-test
    returns or fails one of its two assertions, and which of the two is
    decided by the closeness of the values alone. *)
Theorem test_istft_sizes_agree (self : OnlinePreprocessor A) (wavs : Tensor A)
    (B C T n_freq n_mels n_mfcc : nat) (epsilon : Q) :
  shape wavs = [B; C; T] -> wf wavs -> 0 < B -> 2 <= C ->
  valid_config self n_freq -> n_freq - 1 < T ->
  0 < n_mels -> 0 < n_mfcc ->
  melscale_contract self n_mels -> mfcc_contract self n_freq n_mfcc ->
  (hop_length self <= win_length self)%Z ->
  nola_ok (pad_window (Z.to_nat (n_fft self)) (_window self))
          (Z.to_nat (hop_length self)) (T / Z.to_nat (hop_length self) + 1) = true ->
  Z.to_nat (hop_length self) <= T ->
  T mod Z.to_nat (hop_length self) = 0 ->
  test_istft self (Some wavs) epsilon = (all_transforms, ret tt)
  \/ test_istft self (Some wavs) epsilon = (all_transforms, raise AssertionError).
Proof.
  intros Hsh Hwf HB HC Hcfg HT Hnm Hnc Cmel Cmfcc Hhop Hnola HhT Hmod.
  destruct (compute_features_ok self wavs B C T n_freq n_mels n_mfcc
              Hsh Hwf HB ltac:(lia) Hcfg HT Cmel Cmfcc) as (v & Hv & Hsized).
  set (hp := Z.to_nat (hop_length self)) in *.
  set (fr := T / hp + 1) in *.
  set (vars := forward_locals wavs (complx v) (linear v) (phase v) (mel v) (mfcc v) false).
  assert (Hnf : 2 <= n_freq) by (destruct Hcfg; lia).
  assert (Hhp : 0 < hp) by (unfold hp; destruct Hcfg as (_ & _ & ? & _); lia).
  assert (Hfr : 0 < fr) by (unfold fr; lia).
  assert (Hdim : 3 <= dim wavs) by (unfold dim; rewrite Hsh; cbn; lia).
  destruct Hsized as ((Hc & Hcw) & (Hl & Hlw) & (Hp & Hpw) & _).
  destruct (plain_request_output wavs v B C (n_freq * 2) fr "complx" 0 (complx v)
              eq_refl Hc Hcw ltac:(lia) ltac:(nia)) as (o1 & Ho1 & Hs1 & Hw1).
  destruct (plain_request_output wavs v B C n_freq fr "linear" 1 (linear v)
              eq_refl Hl Hlw ltac:(lia) ltac:(nia)) as (o2 & Ho2 & Hs2 & Hw2).
  destruct (plain_request_output wavs v B C n_freq fr "phase" 1 (phase v)
              eq_refl Hp Hpw ltac:(lia) ltac:(nia)) as (o3 & Ho3 & Hs3 & Hw3).
  fold vars in Ho1, Ho2, Ho3.
  pose proof (Nat.div_mod_eq T hp) as Hdm.
  assert (Hlen : istft_length (Z.to_nat (n_fft self)) hp fr = T).
  { destruct Hcfg as (_ & Hn & _). rewrite Hn, Nat2Z.id.
    unfold fr. rewrite istft_length_roundtrip by exact Hnf. lia. }
  destruct (istft_complx_ok self o1 B fr n_freq 2 Hs1 Hw1 HB Hfr Hcfg Hhop Hnola)
    as (r1 & Hr1 & Hrs1).
  { fold hp. rewrite Hlen. lia. }
  fold hp in Hrs1. rewrite Hlen in Hrs1.
  destruct (istft_polar_paired self o2 o3 [B] fr n_freq 2 Hs2 Hs3 Hw2 Hw3 ltac:(lia))
    as (l' & p' & _ & _ & _ & _ & Hpolar).
  cbn [app] in Hpolar.
  destruct (istft_paired_ok self
              (mkTensor [B; n_freq; fr; 2]
                 (polar_pairs (Qinv (inject_Z 2)) (data l') (data p')))
              B fr n_freq eq_refl Hfr Hcfg Hhop Hnola) as (r2 & Hr2 & Hrs2).
  { fold hp. rewrite Hlen. lia. }
  fold hp in Hrs2. rewrite Hlen in Hrs2. rewrite <- Hpolar in Hr2.
  destruct (select_ok wavs [B] C [T] 0 Hsh Hwf ltac:(lia)) as (w1 & Hw1' & Hws1 & _).
  destruct (select_ok wavs [B] C [T] 1 Hsh Hwf ltac:(lia)) as (w2 & Hw2' & Hws2 & _).
  cbn [length app] in Hw1', Hws1, Hw2', Hws2.
  destruct (allclose_same_sizes epsilon w1 r1) as (ok1 & Hok1); [congruence |].
  destruct (allclose_same_sizes epsilon w2 r2) as (ok2 & Hok2); [congruence |].
  destruct (select_all_each vars
              [feat_channel "complx" 0; feat_channel "linear" 1; feat_channel "phase" 1])
    as (outs & Hs & Hall).
  { intros a [<- | [<- | [<- | []]]]; eauto. }
  clear Hlen Hdm.
  inversion Hall as [| a1 o1' l1 l1' H1 Hall1]; subst.
  inversion Hall1 as [| a2 o2' l2 l2' H2 Hall2]; subst.
  inversion Hall2 as [| a3 o3' l3 l3' H3 Hall3]; subst.
  inversion Hall3; subst.
  assert (o1' = o1) by (unfold ret in *; congruence). subst o1'.
  assert (o2' = o2) by (unfold ret in *; congruence). subst o2'.
  assert (o3' = o3) by (unfold ret in *; congruence). subst o3'.
  unfold test_istft.
  rewrite (forward_selects self wavs v _ Hdim Hv). fold vars. rewrite Hs.
  unfold tbind, lift, ret. rewrite app_nil_r.
  unfold ret in Hw1', Hr1, Hok1, Hw2', Hr2, Hok2.
  rewrite Hw1'. cbn [bind]. rewrite Hr1. cbn [bind]. rewrite Hok1. cbn [bind].
  destruct ok1; cbn [py_assert bind ret]; [| now right].
  unfold ret. cbn [bind]. rewrite Hw2'. cbn [bind]. rewrite Hr2. cbn [bind].
  rewrite Hok2. cbn [bind].
  destruct ok2; cbn [py_assert]; [now left | now right].
Qed.

End SynthesisLength.

(* ================================================================== *)
(** * [adnoise]: lengths, and the segment of noise that is mixed in *)
(* ================================================================== *)

Section AdnoiseFacts.

Context {A : Type} {SO : ScalarOps A} {WO : WaveOps A}.

Lemma length_np_tile (a : list A) (reps : Z) :
  length (np_tile a reps) = Z.to_nat reps * length a.
Proof.
  unfold np_tile. induction (Z.to_nat reps) as [| n IH]; [reflexivity |].
  cbn [repeat concat]. rewrite length_app, IH. lia.
Qed.

Lemma nth_error_np_tile (a : list A) (reps : Z) (j : nat) :
  j < Z.to_nat reps * length a ->
  nth_error (np_tile a reps) j = nth_error a (j mod length a).
Proof.
  unfold np_tile. revert j. induction (Z.to_nat reps) as [| n IH]; intros j Hj; [lia |].
  cbn [repeat concat].
  destruct (Nat.lt_ge_cases j (length a)) as [Hlt | Hge].
  - rewrite nth_error_app1 by exact Hlt. now rewrite Nat.mod_small.
  - rewrite nth_error_app2 by exact Hge. rewrite IH by lia.
    f_equal. assert (Hl : length a <> 0) by lia.
    replace j with ((j - length a) + 1 * length a) at 2 by lia.
    now rewrite Nat.Div0.mod_add.
Qed.

(** The quotient rounded up. *)
Lemma ceil_div_bounds (a b : Z) :
  (0 <= a)%Z -> (0 < b)%Z ->
  exists k, ceil_div a b = ret k /\ (a <= k * b < a + b)%Z.
Proof.
  intros Ha Hb. unfold ceil_div.
  destruct (Z.eqb_spec b 0) as [E | _]; [lia |].
  eexists. split; [reflexivity |].
  pose proof (Z.div_mod (- a) b ltac:(lia)) as Hdm.
  pose proof (Z.mod_pos_bound (- a) b Hb) as Hr. nia.
Qed.

Lemma length_py_slice (a : list A) (start len : nat) :
  start + len <= length a ->
  length (py_slice a (Z.of_nat start) (Z.of_nat start + Z.of_nat len)) = len.
Proof.
  intros H. unfold py_slice. rewrite length_firstn, length_skipn. lia.
Qed.

Lemma nth_error_py_slice (a : list A) (start len i : nat) :
  i < len ->
  nth_error (py_slice a (Z.of_nat start) (Z.of_nat start + Z.of_nat len)) i
  = nth_error a (start + i).
Proof.
  intros H. unfold py_slice. rewrite nth_error_firstn.
  destruct (Nat.ltb_spec i (Z.to_nat (Z.of_nat start + Z.of_nat len) - Z.to_nat (Z.of_nat start)))
    as [_ | Hge]; [| lia].
  rewrite nth_error_skipn. f_equal. lia.
Qed.

(** Lines 19-29 return a segment of the periodic repetition of the noise,
    of the length of the speech, unless the noise is empty or the length of
    the speech is a positive multiple of the length of the noise. *)
Lemma crop_noise_ok (u : Z) (speech noise : list A) :
  noise <> [] ->
  length speech < length noise \/ length speech mod length noise <> 0 ->
  exists start seg,
    crop_noise u speech noise = ret seg
    /\ length seg = length speech
    /\ forall i, i < length speech ->
         nth_error seg i = nth_error noise ((start + i) mod length noise).
Proof.
  intros Hne Hlen. set (n := length noise) in *. set (s := length speech) in *.
  assert (Hn : 0 < n) by (unfold n; destruct noise; [contradiction | cbn; lia]).
  unfold crop_noise. fold n s.
  destruct (Z.leb_spec (Z.of_nat n - Z.of_nat s) 0) as [Hle | Hgt].
  - (* the noise is repeated *)
    destruct Hlen as [Hlt | Hmod]; [lia |].
    destruct (ceil_div_bounds (Z.of_nat s) (Z.of_nat n) ltac:(lia) ltac:(lia))
      as (k & Hk & Hk1 & Hk2).
    rewrite Hk. cbn [bind ret]. rewrite length_np_tile. fold n.
    assert (Hk0 : (0 <= k)%Z) by nia.
    assert (Htl : Z.of_nat (Z.to_nat k * n) = (k * Z.of_nat n)%Z) by lia.
    rewrite Htl.
    assert (Hne' : (k * Z.of_nat n <> Z.of_nat s)%Z).
    { intros E. apply Hmod.
      replace s with (Z.to_nat k * n) by lia. apply Nat.Div0.mod_mul. }
    unfold np_random_randint.
    destruct (Z.leb_spec (k * Z.of_nat n - Z.of_nat s) 0) as [Hbad | Hok]; [lia |].
    cbn [bind ret]. rewrite Z.add_0_l, Z.sub_0_r.
    pose proof (Z.mod_pos_bound u (k * Z.of_nat n - Z.of_nat s) Hok) as Hst.
    set (st := (u mod (k * Z.of_nat n - Z.of_nat s))%Z) in *.
    exists (Z.to_nat st), (py_slice (np_tile noise k) st (st + Z.of_nat s)).
    split; [reflexivity |].
    remember (Z.to_nat st) as stn eqn:Estn.
    replace st with (Z.of_nat stn) by lia.
    split.
    + apply length_py_slice. rewrite length_np_tile. fold n. lia.
    + intros i Hi. rewrite nth_error_py_slice by exact Hi.
      apply nth_error_np_tile. fold n. lia.
  - (* the noise is longer than the speech *)
    cbn [bind ret]. unfold np_random_randint.
    destruct (Z.leb_spec (Z.of_nat n - Z.of_nat s) 0) as [Hbad | Hok]; [lia |].
    cbn [bind ret]. rewrite Z.add_0_l, Z.sub_0_r.
    pose proof (Z.mod_pos_bound u (Z.of_nat n - Z.of_nat s) Hok) as Hst.
    set (st := (u mod (Z.of_nat n - Z.of_nat s))%Z) in *.
    exists (Z.to_nat st), (py_slice noise st (st + Z.of_nat s)).
    split; [reflexivity |].
    remember (Z.to_nat st) as stn eqn:Estn.
    replace st with (Z.of_nat stn) by lia.
    split.
    + apply length_py_slice. fold n. lia.
    + intros i Hi. rewrite nth_error_py_slice by exact Hi.
      rewrite Nat.mod_small; [reflexivity | fold n; lia].
Qed.

Lemma length_zip_with (f : A -> A -> A) (l1 l2 : list A) :
  length l1 = length l2 -> length (zip_with f l1 l2) = length l1.
Proof.
  revert l2. induction l1 as [| x l1 IH]; intros [| y l2] H; try discriminate;
    [reflexivity |].
  cbn [zip_with length]. f_equal. apply IH. cbn in H. lia.
Qed.

Lemma crop_noise_rejects (u : Z) (speech noise : list A) :
  (noise = [] -> crop_noise u speech noise = raise ZeroDivisionError)
  /\ (noise <> [] -> length noise <= length speech ->
      length speech mod length noise = 0 ->
      crop_noise u speech noise = raise ValueError).
Proof.
  split.
  - intros ->. unfold crop_noise. cbn [length].
    destruct (Z.leb_spec (Z.of_nat 0 - Z.of_nat (length speech)) 0) as [_ | H]; [| lia].
    reflexivity.
  - intros Hne Hle Hmod. set (n := length noise) in *. set (s := length speech) in *.
    assert (Hn : 0 < n) by (unfold n; destruct noise; [contradiction | cbn; lia]).
    unfold crop_noise. fold n s.
    destruct (Z.leb_spec (Z.of_nat n - Z.of_nat s) 0) as [_ | H]; [| lia].
    destruct (ceil_div_bounds (Z.of_nat s) (Z.of_nat n) ltac:(lia) ltac:(lia))
      as (k & Hk & Hk1 & Hk2).
    rewrite Hk. cbn [bind ret]. rewrite length_np_tile. fold n.
    assert (Hk0 : (0 <= k)%Z) by nia.
    assert (Hs : s = (s / n) * n).
    { pose proof (Nat.div_mod_eq s n). lia. }
    assert (Hkq : k = Z.of_nat (s / n)).
    { assert (Z.of_nat s = Z.of_nat (s / n) * Z.of_nat n)%Z by lia. nia. }
    unfold np_random_randint.
    destruct (Z.leb_spec (Z.of_nat (Z.to_nat k * n) - Z.of_nat s) 0) as [_ | Hbad].
    + reflexivity.
    + exfalso. rewrite Hkq, Nat2Z.id in Hbad. lia.
Qed.

(** What [crop_noise] returns has the length of the speech. *)
Lemma crop_noise_length (u : Z) (speech noise seg : list A) :
  crop_noise u speech noise = ret seg -> length seg = length speech.
Proof.
  intros Hc. destruct noise as [| x noise'] eqn:En.
  - rewrite (proj1 (crop_noise_rejects u speech [])) in Hc by reflexivity. discriminate.
  - rewrite <- En in *. assert (Hne : noise <> []) by (rewrite En; discriminate).
    destruct (Nat.lt_ge_cases (length speech) (length noise)) as [Hlt | Hge].
    + destruct (crop_noise_ok u speech noise Hne (or_introl Hlt)) as (st & seg' & H1 & H2 & _).
      rewrite H1 in Hc. injection Hc as <-. exact H2.
    + destruct (Nat.eq_dec (length speech mod length noise) 0) as [E | N].
      * rewrite (proj2 (crop_noise_rejects u speech noise) Hne Hge E) in Hc. discriminate.
      * destruct (crop_noise_ok u speech noise Hne (or_intror N)) as (st & seg' & H1 & H2 & _).
        rewrite H1 in Hc. injection Hc as <-. exact H2.
Qed.

(** X18. [adnoise] cannot mix a noise without samples ([ZeroDivisionError]
    from the quotient of the lengths), nor a noise whose length divides the
    length of the speech, equal lengths included: the repeated noise is then
    exactly as long as the speech, the range of the random start is empty,
    and [randint] raises [ValueError], whatever the generator. *)
Theorem adnoise_rejected_lengths (u : Z) (speech noise : list A) (SNR : A) :
  (noise = [] -> adnoise u speech noise SNR = raise ZeroDivisionError)
  /\ (noise <> [] -> length noise <= length speech ->
      length speech mod length noise = 0 ->
      adnoise u speech noise SNR = raise ValueError).
Proof.
  destruct (crop_noise_rejects u speech noise) as [H1 H2]. split.
  - intros E. unfold adnoise. now rewrite (H1 E).
  - intros Hne Hle Hmod. unfold adnoise. now rewrite (H2 Hne Hle Hmod).
Qed.

(** X19. For every other pair of lengths [adnoise] crops a segment of the
    periodic repetition of the noise, of the length of the speech, from one
    start that the generator chooses. Then the power [10.0 ** (SNR / 10.0)]
    of line 31 is computed: if it raises, [adnoise] raises the same; if not,
    [adnoise] returns a mix of the length of the speech, whose sample [i] is
    the speech plus the factor of line 34 times the segment. *)
Theorem adnoise_mixes (u : Z) (speech noise : list A) (SNR : A) :
  noise <> [] ->
  length speech < length noise \/ length speech mod length noise <> 0 ->
  exists start seg,
    crop_noise u speech noise = ret seg
    /\ length seg = length speech
    /\ (forall i, i < length speech ->
          nth_error seg i = nth_error noise ((start + i) mod length noise))
    /\ (forall e, f_pow10 (f_div SNR (f_lit 10%Q)) = raise e ->
          adnoise u speech noise SNR = raise e)
    /\ (forall SNR_exp, f_pow10 (f_div SNR (f_lit 10%Q)) = ret SNR_exp ->
          exists scaler out,
            noise_scaler speech seg SNR = ret scaler
            /\ adnoise u speech noise SNR = ret out
            /\ out = zip_with f_add speech (map (f_mul scaler) seg)
            /\ length out = length speech).
Proof.
  intros Hne Hlen.
  destruct (crop_noise_ok u speech noise Hne Hlen) as (start & seg & Hc & Hl & Hnth).
  exists start, seg. split; [exact Hc |]. split; [exact Hl |]. split; [exact Hnth |].
  split.
  - intros e He. unfold adnoise. rewrite Hc. cbn [bind ret].
    unfold noise_scaler. rewrite He. reflexivity.
  - intros p Hp.
    assert (Hsc : exists scaler, noise_scaler speech seg SNR = ret scaler).
    { unfold noise_scaler, np_dot. rewrite Hp, !Nat.eqb_refl. cbn [bind ret]. eauto. }
    destruct Hsc as [scaler Hsc].
    exists scaler, (zip_with f_add speech (map (f_mul scaler) seg)).
    split; [exact Hsc |]. split; [| split; [reflexivity |]].
    + unfold adnoise. rewrite Hc. cbn [bind ret]. rewrite Hsc. cbn [bind ret].
      unfold np_add. now rewrite length_map, Hl, Nat.eqb_refl.
    + apply length_zip_with. now rewrite length_map.
Qed.

End AdnoiseFacts.

(* ================================================================== *)
(** * [read] and [adnoise] over reals with special values *)
(* ================================================================== *)

Section WaveExact.

Local Open Scope R_scope.

Lemma Rpeak_nonneg (xs : list R) : 0 <= Rpeak xs.
Proof.
  unfold Rpeak. induction xs as [| x xs IH]; cbn [fold_right]; [lra |].
  pose proof (Rmax_r (Rabs x) (fold_right (fun x m => Rmax (Rabs x) m) 0 xs)). lra.
Qed.

Lemma Rpeak_bounds (xs : list R) (x : R) : In x xs -> Rabs x <= Rpeak xs.
Proof.
  unfold Rpeak. induction xs as [| y xs IH]; intros Hin; [contradiction |].
  cbn [fold_right]. destruct Hin as [-> | Hin].
  - apply Rmax_l.
  - eapply Rle_trans; [apply IH, Hin | apply Rmax_r].
Qed.

Lemma Rpeak_attained (xs : list R) :
  0 < Rpeak xs -> exists x, In x xs /\ Rabs x = Rpeak xs.
Proof.
  unfold Rpeak. induction xs as [| y xs IH]; cbn [fold_right]; intros Hpos; [lra |].
  destruct (Rmax_case (Rabs y) (fold_right (fun x m => Rmax (Rabs x) m) 0 xs)
              (fun r => r = Rabs y \/ r = fold_right (fun x m => Rmax (Rabs x) m) 0 xs))
    as [E | E]; auto.
  - exists y. split; [now left | now rewrite E].
  - rewrite E in Hpos |- *. destruct (IH Hpos) as (x & Hin & Hx).
    exists x. split; [now right | exact Hx].
Qed.

Lemma Rpeak_pos (xs : list R) (x : R) : In x xs -> x <> 0 -> 0 < Rpeak xs.
Proof.
  intros Hin Hx. pose proof (Rpeak_bounds xs x Hin). pose proof (Rabs_pos_lt x Hx). lra.
Qed.

Lemma fold_max_peak (xs : list R) (a : R) :
  0 <= a ->
  fold_left fval_max (map fval_abs (map Fin xs)) (Fin a) = Fin (Rmax a (Rpeak xs)).
Proof.
  revert a. induction xs as [| x xs IH]; intros a Ha.
  - cbn. f_equal. now rewrite Rmax_left.
  - cbn [map fold_left fval_abs fval_max]. rewrite IH.
    + f_equal. unfold Rpeak. cbn [fold_right]. now rewrite Rmax_assoc.
    + eapply Rle_trans; [exact Ha | apply Rmax_l].
Qed.

Lemma np_max_abs_fin (xs : list R) :
  xs <> [] -> np_max (map f_abs (map Fin xs)) = ret (Fin (Rpeak xs)).
Proof.
  destruct xs as [| x xs]; [contradiction |]. intros _.
  cbn [map np_max f_abs fval_wave fval_abs f_max].
  rewrite (fold_max_peak xs (Rabs x) (Rabs_pos x)). reflexivity.
Qed.

(** X20. [read] scales the samples by their peak and returns the rate of
    the loader: for a recording of finite samples that is not silent, some
    sample of the result has magnitude one and no sample has more. *)
Theorem read_peak_normalised (load : string -> Z -> res (list fval * Z))
    (path : string) (sr sr' : Z) (xs : list R) :
  load path sr = ret (map Fin xs, sr') ->
  (exists x, In x xs /\ x <> 0) ->
  read load path sr = ret (map Fin (map (fun x => x / Rpeak xs) xs), sr')
  /\ 0 < Rpeak xs
  /\ (forall x, In x xs -> Rabs (x / Rpeak xs) <= 1)
  /\ (exists x, In x xs /\ Rabs (x / Rpeak xs) = 1).
Proof.
  intros Hload (x0 & Hin0 & Hx0).
  pose proof (Rpeak_pos xs x0 Hin0 Hx0) as Hpos.
  assert (Hne : xs <> []) by (intros ->; contradiction).
  split; [| split; [exact Hpos | split]].
  - unfold read. rewrite Hload. cbn [bind ret].
    rewrite (np_max_abs_fin xs Hne). cbn [bind ret]. unfold ret. do 2 f_equal.
    rewrite !map_map. apply map_ext. intros x. cbn [f_div fval_scalar].
    apply fval_div_fin. lra.
  - intros x Hin. unfold Rdiv. rewrite Rabs_mult, Rabs_inv, (Rabs_pos_eq (Rpeak xs)) by lra.
    pose proof (Rpeak_bounds xs x Hin).
    apply (Rmult_le_reg_r (Rpeak xs)); [exact Hpos |].
    rewrite Rmult_assoc, Rinv_l by lra. lra.
  - destruct (Rpeak_attained xs Hpos) as (x & Hin & Hx). exists x. split; [exact Hin |].
    unfold Rdiv. rewrite Rabs_mult, Rabs_inv, (Rabs_pos_eq (Rpeak xs)) by lra.
    rewrite Hx. apply Rinv_r. lra.
Qed.

(** X21. The recordings that [read] cannot scale. One without samples has
    no peak: [max] raises [ValueError]. A silent one has peak 0: every
    sample becomes [0 / 0], NaN. *)
Theorem read_degenerate (load : string -> Z -> res (list fval * Z))
    (path : string) (sr sr' : Z) (n : nat) :
  load path sr = ret (repeat (Fin 0) n, sr') ->
  read load path sr
  = match n with
    | O => raise ValueError
    | S _ => ret (repeat NaN n, sr')
    end.
Proof.
  intros Hload. unfold read. rewrite Hload. cbn [bind ret].
  destruct n as [| n]; [reflexivity |].
  assert (Hrep : repeat (Fin 0) (S n) = map Fin (repeat 0 (S n)))
    by (now rewrite map_repeat).
  rewrite Hrep at 1. rewrite np_max_abs_fin by discriminate. cbn [bind ret].
  assert (Hp : Rpeak (repeat 0 (S n)) = 0).
  { unfold Rpeak. generalize (S n) as m. induction m as [| m IH]; [reflexivity |].
    cbn [repeat fold_right]. rewrite IH, Rabs_R0. apply Rmax_left. lra. }
  rewrite Hp, map_repeat. unfold ret. do 2 f_equal.
  cbn [f_div fval_scalar fval_div].
  destruct (Req_dec_T 0 0) as [_ | N]; [| contradiction].
  destruct (Rlt_dec 0 0) as [H | _]; [lra |]. reflexivity.
Qed.

Lemma combine_diag (xs : list R) :
  map (fun p => fst p * snd p) (combine xs xs) = map (fun x => x * x) xs.
Proof. induction xs as [| x xs IH]; [reflexivity |]. cbn. now rewrite IH. Qed.

Lemma np_dot_energy (xs : list R) :
  np_dot (map Fin xs) (map Fin xs) = ret (Fin (Renergy xs)).
Proof.
  unfold np_dot. rewrite Nat.eqb_refl, zip_mul_fin, combine_diag, f_sum_fin. reflexivity.
Qed.

Lemma Renergy_nonneg (xs : list R) : 0 <= Renergy xs.
Proof.
  unfold Renergy, Rsum. induction xs as [| x xs IH]; cbn [map fold_right]; [lra |].
  pose proof (Rle_0_sqr x) as H. unfold Rsqr in H. lra.
Qed.

(** The largest double is between [10^308] and [10^309]. *)
Lemma pow10_in_range (r : R) : r <= 308 -> Rpower 10 r <= max_double.
Proof.
  intros Hr. apply Rle_trans with (Rpower 10 308).
  - apply Rle_Rpower; lra.
  - replace 308 with (INR 308) by (rewrite INR_IZR_INZ; reflexivity).
    rewrite Rpower_pow by lra. rewrite pow_IZR. unfold max_double.
    apply IZR_le. apply Z.leb_le. vm_compute. reflexivity.
Qed.

Lemma pow10_out_of_range (r : R) : 309 <= r -> max_double < Rpower 10 r.
Proof.
  intros Hr. apply Rlt_le_trans with (Rpower 10 309).
  - replace 309 with (INR 309) by (rewrite INR_IZR_INZ; reflexivity).
    rewrite Rpower_pow by lra. rewrite pow_IZR. unfold max_double.
    apply IZR_lt. apply Z.ltb_lt. vm_compute. reflexivity.
  - apply Rle_Rpower; lra.
Qed.

(** Line 31 on a finite [SNR]: up to 3080 the power is a double, from 3090
    on it is not. *)
Lemma snr_factor (snr : R) :
  snr <= 3080 ->
  f_pow10 (f_div (Fin snr) (f_lit 10%Q)) = ret (Fin (Rpower 10 (snr / 10))).
Proof.
  intros Hs. rewrite lit_ten. cbn [f_div fval_scalar]. rewrite fval_div_fin by lra.
  cbn [f_pow10 fval_wave fval_pow10].
  pose proof (pow10_in_range (snr / 10) ltac:(lra)).
  destruct (Rlt_dec max_double (Rpower 10 (snr / 10))); [lra | reflexivity].
Qed.

Lemma snr_factor_overflows (snr : R) :
  3090 <= snr ->
  f_pow10 (f_div (Fin snr) (f_lit 10%Q)) = raise OverflowError.
Proof.
  intros Hs. rewrite lit_ten. cbn [f_div fval_scalar]. rewrite fval_div_fin by lra.
  cbn [f_pow10 fval_wave fval_pow10].
  pose proof (pow10_out_of_range (snr / 10) ltac:(lra)).
  destruct (Rlt_dec max_double (Rpower 10 (snr / 10))); [reflexivity | lra].
Qed.

Lemma Rpower_10_pos (y : R) : 0 < Rpower 10 y.
Proof. unfold Rpower. apply exp_pos. Qed.

(** X23. A silent noise does not leave the speech as it is. For a finite
    [SNR] of at most 3080 the factor of line 34 is [inf] (or [0 / 0] for a
    silent speech), and [inf * 0] makes every sample of the mix NaN. For an
    [SNR] of 3090 or more the power of line 31 is beyond the doubles and
    [adnoise] raises [OverflowError]. *)
Theorem adnoise_silent_noise (u : Z) (speech : list R) (k : nat) (snr : R) :
  (0 < k)%nat ->
  (length speech < k \/ length speech mod k <> 0)%nat ->
  (snr <= 3080 ->
   adnoise u (map Fin speech) (repeat (Fin 0) k) (Fin snr)
   = ret (repeat NaN (length speech)))
  /\ (3090 <= snr ->
      adnoise u (map Fin speech) (repeat (Fin 0) k) (Fin snr) = raise OverflowError).
Proof.
  intros Hk Hlen.
  assert (Hne : repeat (Fin 0) k <> []) by (destruct k; [lia | discriminate]).
  destruct (crop_noise_ok u (map Fin speech) (repeat (Fin 0) k) Hne)
    as (start & seg & Hc & Hl & Hnth).
  { now rewrite length_map, repeat_length. }
  rewrite length_map in Hl, Hnth. rewrite repeat_length in Hnth.
  assert (Hseg : seg = map Fin (repeat 0 (length speech))).
  { apply list_eq_by_nth; [now rewrite length_map, repeat_length |].
    intros i Hi. rewrite Hl in Hi. rewrite (Hnth i Hi).
    rewrite map_repeat.
    rewrite !nth_error_repeat; [reflexivity | exact Hi |].
    apply Nat.mod_upper_bound. lia. }
  subst seg. split.
  - intros Hsnr.
    assert (He : Renergy (repeat 0 (length speech)) = 0).
    { unfold Renergy, Rsum. generalize (length speech) as m.
      induction m as [| m IH]; [reflexivity |].
      cbn [repeat map fold_right]. rewrite IH. lra. }
    pose proof (Rpower_10_pos (snr / 10)) as Hp.
    pose proof (Renergy_nonneg speech) as Hs.
    assert (Hsc : exists sc, noise_scaler (map Fin speech) (map Fin (repeat 0 (length speech)))
                               (Fin snr) = ret sc
                             /\ fval_mul sc (Fin 0) = NaN).
    { unfold noise_scaler. rewrite (snr_factor snr Hsnr). cbn [bind ret].
      rewrite !np_dot_energy, He. cbn [bind ret].
      cbn [f_mul f_div f_sqrt fval_scalar fval_mul fval_div].
      destruct (Req_dec_T (Rpower 10 (snr / 10) * 0) 0) as [_ | N]; [| exfalso; apply N; lra].
      destruct (Rlt_dec 0 (Renergy speech)) as [_ | _].
      - eexists. split; [reflexivity |]. cbn [fval_sqrt fval_mul]. unfold inf_times.
        destruct (Rlt_dec 0 0); [lra |]. destruct (Rlt_dec 0 0); [lra | reflexivity].
      - destruct (Rlt_dec (Renergy speech) 0); [lra |].
        eexists. split; reflexivity. }
    destruct Hsc as (sc & Hsc & Hmul).
    unfold adnoise. rewrite Hc. cbn [bind ret]. rewrite Hsc. cbn [bind ret].
    unfold np_add. rewrite !length_map, repeat_length, Nat.eqb_refl.
    unfold ret. f_equal. rewrite map_map. cbn [f_mul fval_scalar]. rewrite map_repeat, Hmul.
    clear. induction speech as [| x xs IH]; [reflexivity |].
    cbn [map length repeat zip_with]. now rewrite IH.
  - intros Hsnr. unfold adnoise. rewrite Hc. cbn [bind ret].
    unfold noise_scaler. now rewrite (snr_factor_overflows snr Hsnr).
Qed.

End WaveExact.

(* ================================================================== *)
(** * The further theorems at concrete inputs *)
(* ================================================================== *)

(** Requests for channel 0 alone, without a waveform, on the two-channel
    buffer of the defaults. *)
Lemma forward_without_waveform_default :
  forward default_instance None (Some [feat_channel "linear" 0])
  = ([], raise RuntimeError).
Proof.
  destruct (forward_without_waveform default_instance [feat_channel "linear" 0]
              2 2 16000 0) as (_ & _ & _ & H & _).
  - reflexivity.
  - lia.
  - reflexivity.
  - apply H; lia.
Defined.

(** A representation that [forward] does not compute, asked after a valid
    request. *)
Lemma request_errors_small :
  forward small_instance (Some small_wav)
    (Some ([feat_channel "mel" 0] ++ feat_channel "energy" 0 :: []))
  = (all_transforms, raise (KeyError "energy")).
Proof.
  destruct (request_errors_after_transforms small_instance small_wav
              [feat_channel "mel" 0] (feat_channel "energy" 0) [] 1 2 8 3 2 2)
    as (_ & H & _).
  - reflexivity.
  - apply sym_input_wf.
  - lia.
  - lia.
  - apply sym_instance_valid; lia.
  - lia.
  - lia.
  - lia.
  - apply sym_instance_melscale.
  - apply sym_instance_mfcc; lia.
  - repeat constructor; cbn; try (eexists; split; [reflexivity | cbn; tauto]); lia.
  - apply (H "energy"%string); [reflexivity |].
    cbn. intros Hin. repeat (destruct Hin as [Hin | Hin]; [discriminate Hin |]).
    exact Hin.
Defined.

(** Two samples for a transform that pads by two. *)
Lemma forward_short_small :
  forward small_instance (Some short_wav) (Some [feat_channel "linear" 0])
  = ([EvStft], raise RuntimeError).
Proof.
  apply (forward_short_waveform small_instance short_wav [feat_channel "linear" 0]
           [1; 2] 2 3).
  - reflexivity.
  - cbn. lia.
  - apply sym_instance_valid; lia.
  - lia.
Defined.

(** The instance that the assignments of [__init__] describe, at the
    defaults. *)
Lemma forward_default_bare :
  forward (sym_bare 257 256 512 16000) (Some default_wav) (Some [feat_channel "linear" 0])
  = ([EvStft; EvMagphase], raise (AttributeError "_melscale")).
Proof.
  apply (forward_without_melscale (sym_bare 257 256 512 16000) default_wav
           [feat_channel "linear" 0] [] 2 2 16000 257).
  - reflexivity.
  - apply sym_input_wf.
  - apply sym_bare_valid; lia.
  - apply Nat.ltb_lt. vm_compute. reflexivity.
  - reflexivity.
Defined.

(** A matrix and a paired spectrogram, transposed and transposed back. *)
Lemma transpose_list_small :
  exists feats',
    _transpose_list [sym_input "a" [2; 3]; small_paired] = ret feats'
    /\ _transpose_list feats' = ret [sym_input "a" [2; 3]; small_paired].
Proof.
  destruct (transpose_list_involutive [sym_input "a" [2; 3]; small_paired])
    as ((feats' & H1 & H2 & _) & _).
  - repeat constructor; try apply sym_input_wf; cbn; lia.
  - exists feats'. split; [exact H1 | exact H2].
Defined.

(** A negative [delta] on the second channel of the small representation. *)
Lemma select_feat_plain_small :
  exists sel,
    select 2 1 (sym_input "mel" [1; 2; 3; 4]) = ret sel
    /\ select_feat small_variables "mel" 1 false (-3) false = ret sel.
Proof.
  destruct (select_feat_is_select small_variables "mel" (sym_input "mel" [1; 2; 3; 4])
              [1] 2 3 4 1 (-3)) as (sel & H1 & _ & H2).
  - reflexivity.
  - reflexivity.
  - apply sym_input_wf.
  - lia.
  - lia.
  - exists sel. split; [exact H1 | exact H2].
Defined.

(** Channel -1 of two channels is channel 1. *)
Lemma negative_channel_small :
  select_feat small_variables "mel" (-1) true 2 true
  = select_feat small_variables "mel" 1 true 2 true.
Proof.
  apply (select_feat_negative_channel small_variables "mel"
           (sym_input "mel" [1; 2; 3; 4]) [1] 2 3 4 (-1) true 2 true).
  - reflexivity.
  - reflexivity.
  - lia.
Defined.

(** The waveform itself, requested by name. *)
Lemma forward_serves_waveform_small :
  exists o,
    forward small_instance (Some small_wav) (Some [feat_channel "wavs" 0])
    = (all_transforms, ret [o])
    /\ shape o = [8; 2].
Proof.
  destruct (forward_serves_waveform small_instance small_wav 1 2 8 3 2 2 0)
    as (item & o & _ & _ & _ & Hs & Hf).
  - reflexivity.
  - apply sym_input_wf.
  - lia.
  - lia.
  - apply sym_instance_valid; lia.
  - lia.
  - apply sym_instance_melscale.
  - apply sym_instance_mfcc; lia.
  - lia.
  - exists o. split; [exact Hf | exact Hs].
Defined.

(** Three batch items of one channel: "channel" 2 of the complex feature. *)
Lemma forward_extra_batch_axis_small :
  exists o1 o2,
    forward small_instance (Some stacked_wav)
      (Some [feat_channel "complx" 2; feat_channel "linear" 0])
    = (all_transforms, ret [o1; o2])
    /\ shape o1 = [1; 5; 6]
    /\ shape o2 = [1; 3; 5; 3].
Proof.
  destruct (forward_extra_batch_axis small_instance stacked_wav 1 3 1 8 3 2 2 2 0)
    as (o1 & o2 & Hf & H1 & H2).
  - reflexivity.
  - apply sym_input_wf.
  - lia.
  - lia.
  - lia.
  - apply sym_instance_valid; lia.
  - lia.
  - apply sym_instance_melscale.
  - apply sym_instance_mfcc; lia.
  - lia.
  - lia.
  - exists o1, o2. split; [exact Hf |]. split; [exact H1 | exact H2].
Defined.

(** One frame of one bin. *)
Lemma cmvn_of_one_frame :
  exists out,
    select_feat negative_phase "phase" 0 false 0 true = ret out
    /\ data out = [NaN].
Proof.
  destruct (cmvn_single_frame negative_phase "phase" 0 false 0
              (mkTensor [1; 1; 1] [Fin (-1)]) [1; 1])
    as (out & Hout & _ & Hd).
  - unfold select_feat, negative_phase. cbn [dict_get]. rewrite String.eqb_refl.
    reflexivity.
  - reflexivity.
  - reflexivity.
  - exists out. split; [exact Hout | exact Hd].
Defined.

(** A configuration with every step, built and served: three blocks of the
    two mel bands. *)
Lemma get_feat_config_small :
  exists o,
    get_feat_config (ArgStr "mel") (ArgInt 1) (ArgBool true) (ArgInt 2) (ArgBool true)
    = ret (mkFeatArgs (Some "mel"%string) (Some 1%Z) (Some true) (Some 2%Z) (Some true))
    /\ forward small_instance (Some small_wav)
         (Some [mkFeatArgs (Some "mel"%string) (Some 1%Z) (Some true) (Some 2%Z) (Some true)])
       = (all_transforms, ret [o])
    /\ shape o = [1; 5; 6].
Proof.
  destruct (get_feat_config_contract small_instance small_wav 1 2 8 3 2 2
              (ArgStr "mel") (ArgInt 1) (ArgBool true) (ArgInt 2) (ArgBool true))
    as (_ & H).
  - reflexivity.
  - apply sym_input_wf.
  - lia.
  - lia.
  - apply sym_instance_valid; lia.
  - lia.
  - lia.
  - lia.
  - apply sym_instance_melscale.
  - apply sym_instance_mfcc; lia.
  - destruct (H "mel"%string 1%Z true 2%Z true) as (Hg & Hserve);
      try reflexivity; [cbn; tauto | lia |].
    destruct Hserve as (o & Hf & Hs & _); [lia |].
    exists o. split; [exact Hg |]. split; [exact Hf | exact Hs].
Defined.

(** A power of 0 on the magnitude and phase entry. *)
Lemma istft_zero_power_small :
  istft small_instance (Some small_linears) (Some small_phases) 0 None
  = raise ZeroDivisionError.
Proof.
  destruct (istft_argument_errors small_instance small_linears small_phases) as (H & _).
  - apply sym_input_wf.
  - apply sym_input_wf.
  - cbn. lia.
  - cbn. lia.
  - exact H.
Defined.

(** Five frames of three bins, as magnitudes and phases. *)
Lemma istft_polar_small :
  exists l' p',
    transpose_last2 small_linears = ret l'
    /\ transpose_last2 small_phases = ret p'
    /\ istft small_instance (Some small_linears) (Some small_phases) 2 None
       = _istft small_instance
           (mkTensor [1; 3; 5; 2] (polar_pairs (Qinv (inject_Z 2)) (data l') (data p'))).
Proof.
  destruct (istft_polar_entry small_instance small_linears small_phases [1] 5 3 2)
    as (l' & p' & H1 & H2 & _ & _ & H & _).
  - reflexivity.
  - reflexivity.
  - apply sym_input_wf.
  - apply sym_input_wf.
  - discriminate.
  - exists l', p'. split; [exact H1 |]. split; [exact H2 | exact H].
Defined.

(** The complex feature of the second channel, fed back. *)
Lemma forward_complx_feeds_istft_small :
  exists complxs cs,
    forward small_instance (Some small_wav) (Some [feat_channel "complx" 1])
    = (all_transforms, ret [complxs])
    /\ shape cs = [1; 3; 5; 2]
    /\ istft small_instance None None 2 (Some complxs) = _istft small_instance cs.
Proof.
  destruct (forward_complx_feeds_istft small_instance small_wav 1 2 8 3 2 2 1 2)
    as (complxs & cx & cs & Hf & _ & _ & Hs & Hi).
  - reflexivity.
  - apply sym_input_wf.
  - lia.
  - lia.
  - apply sym_instance_valid; lia.
  - lia.
  - apply sym_instance_melscale.
  - apply sym_instance_mfcc; lia.
  - lia.
  - exists complxs, cs. split; [exact Hf |]. split; [exact Hs | exact Hi].
Defined.

(** Nine samples with hop 2: eight come back. *)
Lemma analysis_synthesis_odd :
  exists complxs r,
    forward small_instance (Some odd_wav) (Some [feat_channel "complx" 0])
    = (all_transforms, ret [complxs])
    /\ istft small_instance None None 2 (Some complxs) = ret r
    /\ shape r = [1; 8].
Proof.
  destruct (analysis_synthesis_length small_instance odd_wav 1 2 9 3 2 2 0)
    as (complxs & r & w & Hf & _ & Hi & Hs & _).
  - reflexivity.
  - apply sym_input_wf.
  - lia.
  - lia.
  - apply sym_instance_valid; lia.
  - lia.
  - lia.
  - lia.
  - apply sym_instance_melscale.
  - apply sym_instance_mfcc; lia.
  - cbn. lia.
  - reflexivity.
  - cbn. lia.
  - lia.
  - exists complxs, r. split; [exact Hf |]. split; [exact Hi | exact Hs].
Defined.

(** Eight samples with hop 2: the self-test compares equal sizes. *)
Lemma test_istft_small :
  test_istft small_instance (Some small_wav) (1 # 1000000) = (all_transforms, ret tt)
  \/ test_istft small_instance (Some small_wav) (1 # 1000000)
     = (all_transforms, raise AssertionError).
Proof.
  apply (test_istft_sizes_agree small_instance small_wav 1 2 8 3 2 2 (1 # 1000000)).
  - reflexivity.
  - apply sym_input_wf.
  - lia.
  - lia.
  - apply sym_instance_valid; lia.
  - lia.
  - lia.
  - lia.
  - apply sym_instance_melscale.
  - apply sym_instance_mfcc; lia.
  - cbn. lia.
  - reflexivity.
  - cbn. lia.
  - reflexivity.
Defined.

(** Two samples of speech in three of noise, at 10 dB and at 3090 dB. *)
Lemma adnoise_mixes_short :
  (exists out,
     adnoise 0 (map Fin short_speech) (map Fin short_noise) (Fin 10) = ret out
     /\ length out = 2)
  /\ adnoise 0 (map Fin short_speech) (map Fin short_noise) (Fin 3090)
     = raise OverflowError.
Proof.
  split.
  - destruct (adnoise_mixes 0 (map Fin short_speech) (map Fin short_noise) (Fin 10))
      as (start & seg & _ & _ & _ & _ & Hmix).
    + discriminate.
    + left. cbn. lia.
    + destruct (Hmix (Fin (Rpower 10 (10 / 10)))) as (scaler & out & _ & Ha & _ & Hl).
      * apply snr_factor. lra.
      * exists out. split; [exact Ha | exact Hl].
  - destruct (adnoise_mixes 0 (map Fin short_speech) (map Fin short_noise) (Fin 3090))
      as (start & seg & _ & _ & _ & Hraise & _).
    + discriminate.
    + left. cbn. lia.
    + apply Hraise. apply snr_factor_overflows. lra.
Defined.

(** A recording of the samples 1 and -2. *)
Lemma read_two_samples :
  read (constant_load (map Fin two_samples)) "a.wav" 16000
  = ret (map Fin (map (fun x => (x / Rpeak two_samples)%R) two_samples), 16000%Z)
  /\ exists x, In x two_samples /\ Rabs (x / Rpeak two_samples) = 1%R.
Proof.
  destruct (read_peak_normalised (constant_load (map Fin two_samples)) "a.wav"
              16000 16000 two_samples) as (Hr & _ & _ & Hx).
  - reflexivity.
  - exists 1%R. split; [left; reflexivity | lra].
  - split; [exact Hr | exact Hx].
Defined.

(** A recording of three zeros. *)
Lemma read_three_zeros :
  read (constant_load (repeat (Fin 0) 3)) "a.wav" 16000 = ret (repeat NaN 3, 16000%Z).
Proof.
  apply (read_degenerate (constant_load (repeat (Fin 0) 3)) "a.wav" 16000 16000 3).
  reflexivity.
Defined.

(** The short speech in three samples of silence. *)
Lemma adnoise_short_silence :
  adnoise 0 (map Fin short_speech) (repeat (Fin 0) 3) (Fin 10)
  = ret (repeat NaN (length short_speech)).
Proof.
  destruct (adnoise_silent_noise 0 short_speech 3 10) as [H _].
  - lia.
  - left. cbn. lia.
  - apply H. lra.
Defined.

(** Noise and speech of two samples each. *)
Lemma adnoise_equal_lengths :
  adnoise 0 (map Fin short_speech) (map Fin two_samples) (Fin 10) = raise ValueError.
Proof.
  destruct (adnoise_rejected_lengths 0 (map Fin short_speech) (map Fin two_samples) (Fin 10))
    as (_ & H).
  apply H.
  - discriminate.
  - cbn. lia.
  - reflexivity.
Defined.
